(** * loopy kernel creation: a shallow embedding of
      [loopy/kernel/creation.py] and [loopy/library/function.py]

    The front end of the kernel compiler is modelled as pure functions over
    explicit state.  Python exceptions become the [Raise] branch of [result];
    dicts with string keys are [gmap string _], Python sets are [gset _],
    ordered lists are [list _]. *)

From Stdlib Require Import ZArith Ascii String List Lia Permutation.
From stdpp Require Import gmap strings list fin_maps pretty sets.

Local Open Scope string_scope.
#[local] Set Warnings "-register-all".

(* ===================================================================== *)
(** ** Exceptions and the result monad *)
(* ===================================================================== *)

Inductive exn : Type :=
| RuntimeError (msg : string)
| ValueError (msg : string)
| KeyError (key : string)
| IslError (text : string).

Inductive result (A : Type) : Type :=
| Ok (a : A)
| Raise (e : exn).
Arguments Ok {A} a.
Arguments Raise {A} e.

#[global] Instance result_ret : MRet result := fun A a => Ok a.
#[global] Instance result_bind : MBind result := fun A B k m =>
  match m with
  | Ok a => k a
  | Raise e => Raise e
  end.

Definition is_ok {A : Type} (m : result A) : Prop :=
  match m with Ok _ => True | Raise _ => False end.

Definition is_raise {A : Type} (m : result A) : Prop :=
  match m with Ok _ => False | Raise _ => True end.

(** Threading a state through a list, left to right (a Python [for] loop
    whose body may raise). *)
Section fold_result.
Context {A S : Type}.
Variable f : A -> S -> result S.

Fixpoint fold_result (l : list A) (s : S) : result S :=
  match l with
  | [] => Ok s
  | x :: xs => s' ← f x s; fold_result xs s'
  end.

End fold_result.

(* ===================================================================== *)
(** ** Expression trees *)
(* ===================================================================== *)

(** Modelled from the spec: the expression tree of the symbolic-expression
    collaborator ([pymbolic.primitives] and [loopy.symbolic], neither under
    src/), one constructor per node kind: variable, constant, arithmetic,
    indexed reference, call, reduction and tagged common subexpression.  A
    [TypedCSE] is a [CommonSubexpression] whose [dtype] is [Some _].
    [Var] is pymbolic's [Variable]. *)
Inductive expr : Type :=
| Var (name : string)
| Constant (value : Z)
| Sum (children : list expr)
| Product (children : list expr)
| Subscript (aggregate : expr) (index : list expr)
| Call (function : expr) (parameters : list expr)
| Reduction (operation : string) (inames : list string) (body : expr)
| CommonSubexpression (child : expr) (prefix : option string)
                      (dtype : option string).

Section expr_induction.
Variable P : expr -> Prop.
Hypothesis HVar : forall n, P (Var n).
Hypothesis HConstant : forall z, P (Constant z).
Hypothesis HSum : forall es, Forall P es -> P (Sum es).
Hypothesis HProduct : forall es, Forall P es -> P (Product es).
Hypothesis HSubscript :
  forall a idx, P a -> Forall P idx -> P (Subscript a idx).
Hypothesis HCall : forall f ps, P f -> Forall P ps -> P (Call f ps).
Hypothesis HReduction : forall op ins b, P b -> P (Reduction op ins b).
Hypothesis HCSE :
  forall c p d, P c -> P (CommonSubexpression c p d).

Fixpoint expr_ind' (e : expr) : P e :=
  let fix all (es : list expr) : Forall P es :=
    match es with
    | [] => List.Forall_nil P
    | x :: xs => List.Forall_cons P x xs (expr_ind' x) (all xs)
    end in
  match e with
  | Var n => HVar n
  | Constant z => HConstant z
  | Sum es => HSum es (all es)
  | Product es => HProduct es (all es)
  | Subscript a idx => HSubscript a idx (expr_ind' a) (all idx)
  | Call f ps => HCall f ps (expr_ind' f) (all ps)
  | Reduction op ins b => HReduction op ins b (expr_ind' b)
  | CommonSubexpression c p d => HCSE c p d (expr_ind' c)
  end.
End expr_induction.

(** Structural equality of expression trees (pymbolic's [__eq__]). *)
Definition expr_eq_dec : forall a b : expr, {a = b} + {a <> b}.
Proof.
  fix IH 1.
  decide equality;
    try (apply list_eq_dec; exact IH);
    try (apply list_eq_dec; apply string_dec);
    try apply string_dec;
    try apply Z.eq_dec;
    try (decide equality; apply string_dec).
Defined.

#[global] Instance expr_eq_decision : EqDecision expr := expr_eq_dec.

Definition is_Variable (e : expr) : bool :=
  match e with Var _ => true | _ => false end.

(** [subexpr x e]: the node [x] occurs in the tree [e] (at any depth). *)
Inductive subexpr (x : expr) : expr -> Prop :=
| subexpr_refl : subexpr x x
| subexpr_Sum es e : e ∈ es -> subexpr x e -> subexpr x (Sum es)
| subexpr_Product es e : e ∈ es -> subexpr x e -> subexpr x (Product es)
| subexpr_Subscript_aggregate a idx :
    subexpr x a -> subexpr x (Subscript a idx)
| subexpr_Subscript_index a idx e :
    e ∈ idx -> subexpr x e -> subexpr x (Subscript a idx)
| subexpr_Call_function f ps : subexpr x f -> subexpr x (Call f ps)
| subexpr_Call_parameters f ps e :
    e ∈ ps -> subexpr x e -> subexpr x (Call f ps)
| subexpr_Reduction op ins b : subexpr x b -> subexpr x (Reduction op ins b)
| subexpr_CSE c p d : subexpr x c -> subexpr x (CommonSubexpression c p d).

(** [red_iname_in i e]: the loop index [i] appears in the index set of some
    reduction node of [e]. *)
Definition red_iname_in (i : string) (e : expr) : Prop :=
  exists op ins b, subexpr (Reduction op ins b) e /\ i ∈ ins.

(* ===================================================================== *)
(** ** The kernel data model *)
(* ===================================================================== *)

(** Modelled from the spec: the iname tags of [loopy.kernel.data] (not under
    src/).  [ParallelTag] stands for every tag class deriving from
    [ParallelTag]; [SequentialTag] for any other non-parallel tag. *)
Inductive iname_tag : Type :=
| ParallelTag (key : string)
| ForceSequentialTag
| SequentialTag (key : string).

Definition is_ParallelTag (t : iname_tag) : bool :=
  match t with ParallelTag _ => true | _ => false end.

(** The declared type of a temporary: a concrete [np.dtype] or the
    deferred-inference marker [loopy.infer_type]. *)
Inductive temp_var_dtype : Type :=
| infer_type
| np_dtype (name : string).

(** Modelled from the spec: an assignee is "a variable or an indexed
    variable reference" ([Instruction.get_assignee_var_name] and
    [get_assignee_indices] of [loopy.kernel.data] are not under src/). *)
Inductive lvalue : Type :=
| LVariable (name : string)
| LSubscript (name : string) (index : list expr).

Definition get_assignee_var_name_of (l : lvalue) : string :=
  match l with LVariable n => n | LSubscript n _ => n end.

Definition get_assignee_indices_of (l : lvalue) : list expr :=
  match l with LVariable _ => [] | LSubscript _ idx => idx end.

Record Instruction : Type := mkInstruction {
  insn_id : option string;
  insn_deps : gset string;
  forced_iname_deps : gset string;
  assignee : lvalue;
  expression : expr;
  temp_var_type : option temp_var_dtype;
  priority : Z
}.

Definition get_assignee_var_name (insn : Instruction) : string :=
  get_assignee_var_name_of (assignee insn).

Definition get_assignee_indices (insn : Instruction) : list expr :=
  get_assignee_indices_of (assignee insn).

Record SubstitutionRule : Type := mkSubstitutionRule {
  sr_name : string;
  sr_arguments : list string;
  sr_expression : expr
}.

Record TemporaryVariable : Type := mkTemporaryVariable {
  tv_name : string;
  tv_dtype : temp_var_dtype;
  tv_is_local : option bool;
  tv_base_indices : list expr;
  tv_shape : list expr
}.

Record Argument : Type := mkArgument {
  arg_name : string;
  arg_is_value : bool
}.

(** A polyhedral set of the external library (isl), seen through the three
    observations the front end makes: its printed form, the names of its
    parameters, and the names of its set dimensions ([None] for an unnamed
    dimension). *)
Record BasicSet : Type := mkBasicSet {
  bs_str : string;
  bs_params : list string;
  bs_set_dims : list (option string)
}.

Record LoopKernel : Type := mkLoopKernel {
  domains : list BasicSet;
  iname_to_tag : gmap string iname_tag;
  instructions : list Instruction;
  args : list Argument;
  temporary_variables : gmap string TemporaryVariable;
  substitutions : gmap string SubstitutionRule
}.

(** Modelled from the spec: [LoopKernel.all_inames] (not under src/), the
    loop indices bound by the kernel's domains. *)
Definition all_inames (knl : LoopKernel) : gset string :=
  list_to_set (omap id (concat (map bs_set_dims (domains knl)))).

(** Modelled from the spec: [LoopKernel.arg_dict] (not under src/), the
    mapping of argument name to argument. *)
Definition arg_dict (knl : LoopKernel) : gmap string Argument :=
  list_to_map (map (fun a => (arg_name a, a)) (args knl)).

(* ===================================================================== *)
(** ** Traversal with a callback at reduction nodes *)
(* ===================================================================== *)

Section ReductionCallbackMapper.
Context {S : Type}.

(** The callback: the operation, the index set and the operand of the
    reduction node, the mapper's recursion applied to the operand (the only
    tree the callbacks of this file pass to [rec]), and the state. *)
Variable callback :
  string -> list string -> expr -> (S -> result S) -> S -> result S.

(** Modelled from the spec: [loopy.symbolic.ReductionCallbackMapper] (not
    under src/).  The mapper walks the whole tree; at every reduction node it
    invokes the callback with the node and its own recursion, and, the
    callback having returned nothing, continues into the node's operand as
    the identity mapper does.  Both callers discard the rebuilt tree, so only
    the effect on the callback's state [S] is kept. *)
Fixpoint ReductionCallbackMapper (e : expr) (s : S) : result S :=
  match e with
  | Var _ | Constant _ => Ok s
  | Sum es | Product es => fold_result ReductionCallbackMapper es s
  | Subscript a idx =>
      s1 ← ReductionCallbackMapper a s;
      fold_result ReductionCallbackMapper idx s1
  | Call f ps =>
      s1 ← ReductionCallbackMapper f s;
      fold_result ReductionCallbackMapper ps s1
  | Reduction op ins b =>
      s1 ← callback op ins b (ReductionCallbackMapper b) s;
      ReductionCallbackMapper b s1
  | CommonSubexpression c _ _ => ReductionCallbackMapper c s
  end.
End ReductionCallbackMapper.

(* ===================================================================== *)
(** ** tag_reduction_inames_as_sequential *)
(* ===================================================================== *)

(** The local [map_reduction]: [rec(red_expr.expr)], then
    [result.update(red_expr.inames)]. *)
Definition map_reduction (op : string) (inames : list string) (body : expr)
    (rec : gset string -> result (gset string)) (result_ : gset string)
  : result (gset string) :=
  r ← rec result_; Ok (r ∪ list_to_set inames).

(** The first loop: the callback mapper run over [insn.expression] for
    every [insn] in [knl.instructions]. *)
Definition collect_reduction_inames (knl : LoopKernel)
  : result (gset string) :=
  fold_result
    (fun insn => ReductionCallbackMapper map_reduction (expression insn))
    (instructions knl) ∅.

Definition parallel_tag_message (iname : string) : string :=
  "inconsistency detected: reduction iname '" +:+ iname
    +:+ "' has a parallel tag".

(** The body of [for iname in result]: the tag is read from [knl], the
    kernel the pass was given; only [new_iname_to_tag] changes. *)
Definition tag_step (knl : LoopKernel) (iname : string)
    (new_iname_to_tag : gmap string iname_tag)
  : result (gmap string iname_tag) :=
  match iname_to_tag knl !! iname with
  | Some tag =>
      if is_ParallelTag tag
      then Raise (RuntimeError (parallel_tag_message iname))
      else Ok new_iname_to_tag
  | None => Ok (<[iname := ForceSequentialTag]> new_iname_to_tag)
  end.

(** Modelled from the spec: [loopy.tag_inames] (not under src/), "a single
    kernel update": a new kernel whose tag mapping is the old one overridden
    by the given entries. *)
Definition tag_inames (knl : LoopKernel)
    (new_tags : gmap string iname_tag) : LoopKernel :=
  {| domains := domains knl;
     iname_to_tag := new_tags ∪ iname_to_tag knl;
     instructions := instructions knl;
     args := args knl;
     temporary_variables := temporary_variables knl;
     substitutions := substitutions knl |}.

Definition tag_reduction_inames_as_sequential (knl : LoopKernel)
  : result LoopKernel :=
  result_ ← collect_reduction_inames knl;
  new_iname_to_tag ← fold_result (tag_step knl) (elements result_) ∅;
  Ok (tag_inames knl new_iname_to_tag).

(* ===================================================================== *)
(** ** check_for_reduction_inames_duplication_requests *)
(* ===================================================================== *)

Definition duplication_message : string :=
  "Reduction iname duplication with '@' is no longer supported. "
    +:+ "Use loopy.duplicate_inames instead.".

(** The helper [check_reduction_inames]: it does not call [rec]. *)
Definition check_reduction_inames (op : string) (inames : list string)
    (body : expr) (rec : unit -> result unit) (s : unit) : result unit :=
  fold_result
    (fun iname _ =>
       if String.prefix "@" iname
       then Raise (RuntimeError duplication_message)
       else Ok tt)
    inames s.

Definition check_for_reduction_inames_duplication_requests
    (kernel : LoopKernel) : result unit :=
  _ ← fold_result
        (fun insn =>
           ReductionCallbackMapper check_reduction_inames (expression insn))
        (instructions kernel) tt;
  fold_result
    (fun sub =>
       ReductionCallbackMapper check_reduction_inames
         (sr_expression (snd sub)))
    (map_to_list (substitutions kernel)) tt.

(* ===================================================================== *)
(** ** Unique name generation *)
(* ===================================================================== *)

(** [generate_unique_possibilities prefix k] is the [k]-th name the
    generator yields: [prefix], then [prefix_0], [prefix_1], ... *)
Definition generate_unique_possibilities (prefix : string) (k : nat)
  : string :=
  match k with
  | 0 => prefix
  | S try_num => prefix +:+ "_" +:+ pretty try_num
  end.

(** The search loop of [UniqueNameGenerator.__call__]: the first yielded
    name that does not conflict.  After [fuel] conflicting candidates the
    next one is returned unchecked; with [fuel] the number of existing names
    that point is reached only when every existing name has been met, so the
    result is the loop's (see [first_nonconflicting_spec]). *)
Fixpoint first_nonconflicting (is_name_conflicting : string -> bool)
    (prefix : string) (k fuel : nat) : string :=
  let var_name := generate_unique_possibilities prefix k in
  match fuel with
  | 0 => var_name
  | S fuel' =>
      if is_name_conflicting var_name
      then first_nonconflicting is_name_conflicting prefix (S k) fuel'
      else var_name
  end.

Definition unique_name (existing_names : gset string) (based_on : string)
  : string :=
  first_nonconflicting (fun n => bool_decide (n ∈ existing_names))
    based_on 0 (size existing_names).

(** [UniqueNameGenerator.__call__]: the name and the updated
    [existing_names]. *)
Definition UniqueNameGenerator_call (existing_names : gset string)
    (based_on : string) : string * gset string :=
  let var_name := unique_name existing_names based_on in
  (var_name, {[var_name]} ∪ existing_names).

(** Modelled from the spec: [LoopKernel.get_var_name_generator] (not under
    src/), a name registry seeded with every name of the four namespaces of
    the kernel. *)
Definition all_variable_names (knl : LoopKernel) : gset string :=
  dom (temporary_variables knl) ∪ dom (substitutions knl)
    ∪ list_to_set (map arg_name (args knl)) ∪ all_inames knl.

(** Modelled from the spec: [LoopKernel.make_unique_instruction_id] (not
    under src/): an identifier "generated fresh, guaranteed distinct from
    identifiers created earlier in the same pass" and from the identifiers
    of the kernel's instructions, tried in the order [insn], [insn_0], ... *)
Definition make_unique_instruction_id (knl : LoopKernel)
    (extra_used_ids : gset string) : string :=
  unique_name
    (list_to_set (omap insn_id (instructions knl)) ∪ extra_used_ids) "insn".

(* ===================================================================== *)
(** ** Sanity checks *)
(* ===================================================================== *)

Fixpoint join (sep : string) (l : list string) : string :=
  match l with
  | [] => ""
  | [x] => x
  | x :: xs => x +:+ sep +:+ join sep xs
  end.

Definition str_of_id (i : option string) : string :=
  match i with Some s => s | None => "None" end.

Definition add_name (name source : string)
    (name_to_source : gmap string string) : result (gmap string string) :=
  match name_to_source !! name with
  | Some used =>
      Raise (RuntimeError
        ("invalid " +:+ source +:+ " name '" +:+ name
           +:+ "'--name already used as " +:+ used))
  | None => Ok (<[name := source]> name_to_source)
  end.

Definition check_for_duplicate_names (knl : LoopKernel) : result unit :=
  m ← fold_result (fun n => add_name n "iname") (elements (all_inames knl)) ∅;
  m ← fold_result (fun a => add_name (arg_name a) "argument") (args knl) m;
  m ← fold_result (fun n => add_name n "temporary")
        (map fst (map_to_list (temporary_variables knl))) m;
  m ← fold_result (fun n => add_name n "substitution")
        (map fst (map_to_list (substitutions knl))) m;
  Ok tt.

Definition check_for_nonexistent_iname_deps (knl : LoopKernel)
  : result unit :=
  fold_result
    (fun insn _ =>
       if decide (forced_iname_deps insn ⊆ all_inames knl) then Ok tt
       else Raise (ValueError
         ("In instruction '" +:+ str_of_id (insn_id insn)
            +:+ "': cannot force dependency on inames '"
            +:+ join "," (elements (forced_iname_deps insn ∖ all_inames knl))
            +:+ "'--they don't exist")))
    (instructions knl) tt.

(** Modelled from the spec: [LoopKernel.writer_map] (not under src/): for a
    variable name, the instructions of the kernel that write it. *)
Definition writer_map (knl : LoopKernel) (var_name : string)
  : list Instruction :=
  filter (fun insn => get_assignee_var_name insn = var_name)
    (instructions knl).

Definition domain_parameters (knl : LoopKernel) : gset string :=
  list_to_set (concat (map bs_params (domains knl))).

Definition temp_var_domain_parameters (knl : LoopKernel) : gset string :=
  domain_parameters knl ∩ dom (temporary_variables knl).

Definition multiple_writes_message (tvpar : string) (n : nat) : string :=
  "there must be exactly one write to data-dependent domain parameter '"
    +:+ tvpar +:+ "' (found " +:+ pretty n +:+ ")".

Definition check_for_multiple_writes_to_loop_bounds (knl : LoopKernel)
  : result unit :=
  fold_result
    (fun tvpar _ =>
       let par_writers := writer_map knl tvpar in
       if decide (length par_writers ≠ 1)
       then Raise (RuntimeError
                     (multiple_writes_message tvpar (length par_writers)))
       else Ok tt)
    (elements (temp_var_domain_parameters knl)) tt.

Definition check_written_variable_names (knl : LoopKernel) : result unit :=
  let admissible_vars : gset string :=
    list_to_set (map arg_name (args knl)) ∪ dom (temporary_variables knl) in
  fold_result
    (fun insn _ =>
       let var_name := get_assignee_var_name insn in
       if decide (var_name ∈ admissible_vars) then Ok tt
       else Raise (RuntimeError
         ("variable '" +:+ var_name
            +:+ "' not declared or not allowed for writing")))
    (instructions knl) tt.

(* ===================================================================== *)
(** ** expand_cses: common subexpressions into assignments *)
(* ===================================================================== *)

(** A traversal that rebuilds a list while threading a state. *)
Section map_state.
Context {A B S : Type}.
Variable f : A -> S -> B * S.

Fixpoint map_state (l : list A) (s : S) : list B * S :=
  match l with
  | [] => ([], s)
  | x :: xs =>
      let '(y, s1) := f x s in
      let '(ys, s2) := map_state xs s1 in
      (y :: ys, s2)
  end.
End map_state.

(** The memo [expr_to_var] is a dict keyed by expression trees; it is an
    association list searched with structural equality. *)
Fixpoint memo_lookup (k : expr) (m : list (expr * expr)) : option expr :=
  match m with
  | [] => None
  | (k', v) :: m' => if decide (k = k') then Some v else memo_lookup k m'
  end.

(** The mutable objects one run of [expand_cses] shares between the mapper
    and [add_assignment]: the mapper's memo, the name generator's
    [existing_names], [new_insns], [newly_created_insn_ids] and
    [new_temp_vars]. *)
Record cse_state : Type := mkCseState {
  expr_to_var : list (expr * expr);
  existing_names : gset string;
  new_insns : list Instruction;
  newly_created_insn_ids : gset string;
  new_temp_vars : gmap string TemporaryVariable
}.

(** [Instruction(id=..., assignee=Variable(name), expression=expr)] with
    the constructor's defaults for the other attributes. *)
Definition assignment_insn (id_ name : string) (e : expr) : Instruction :=
  {| insn_id := Some id_;
     insn_deps := ∅;
     forced_iname_deps := ∅;
     assignee := LVariable name;
     expression := e;
     temp_var_type := None;
     priority := 0 |}.

Definition add_assignment (knl : LoopKernel) (base_name : option string)
    (e : expr) (dtype : option string) (st : cse_state)
  : string * cse_state :=
  let base_name := match base_name with Some b => b | None => "var" end in
  let '(new_var_name, names) :=
    UniqueNameGenerator_call (existing_names st) base_name in
  let dtype :=
    match dtype with None => infer_type | Some d => np_dtype d end in
  let tv :=
    {| tv_name := new_var_name; tv_dtype := dtype; tv_is_local := None;
       tv_base_indices := []; tv_shape := [] |} in
  let id_ := make_unique_instruction_id knl (newly_created_insn_ids st) in
  let insn := assignment_insn id_ new_var_name e in
  (new_var_name,
   {| expr_to_var := expr_to_var st;
      existing_names := names;
      new_insns := new_insns st ++ [insn];
      newly_created_insn_ids := {[id_]} ∪ newly_created_insn_ids st;
      new_temp_vars := <[new_var_name := tv]> (new_temp_vars st) |}).

Definition memoize (k v : expr) (st : cse_state) : cse_state :=
  {| expr_to_var := (k, v) :: expr_to_var st;
     existing_names := existing_names st;
     new_insns := new_insns st;
     newly_created_insn_ids := newly_created_insn_ids st;
     new_temp_vars := new_temp_vars st |}.

Section CSEToAssignmentMapper.
Variable knl : LoopKernel.

(** [CSEToAssignmentMapper]: on a tagged common subexpression,
    [map_common_subexpression] of the source; on every other node kind the
    identity mapper of the expression library (not under src/), which
    rebuilds the node from its mapped children, left to right. *)
Fixpoint cseam (e : expr) (st : cse_state) : expr * cse_state :=
  match e with
  | Var _ | Constant _ => (e, st)
  | Sum es =>
      let '(es', st1) := map_state cseam es st in (Sum es', st1)
  | Product es =>
      let '(es', st1) := map_state cseam es st in (Product es', st1)
  | Subscript a idx =>
      let '(a', st1) := cseam a st in
      let '(idx', st2) := map_state cseam idx st1 in
      (Subscript a' idx', st2)
  | Call f ps =>
      let '(f', st1) := cseam f st in
      let '(ps', st2) := map_state cseam ps st1 in
      (Call f' ps', st2)
  | Reduction op ins b =>
      let '(b', st1) := cseam b st in (Reduction op ins b', st1)
  | CommonSubexpression child prefix dtype =>
      match memo_lookup child (expr_to_var st) with
      | Some var => (var, st)
      | None =>
          let '(child', st1) := cseam child st in
          if is_Variable child' then (child', st1)
          else
            let '(var_name, st2) :=
              add_assignment knl prefix child' dtype st1 in
            (Var var_name, memoize child (Var var_name) st2)
      end
  end.
End CSEToAssignmentMapper.

Definition with_expression (insn : Instruction) (e : expr) : Instruction :=
  {| insn_id := insn_id insn;
     insn_deps := insn_deps insn;
     forced_iname_deps := forced_iname_deps insn;
     assignee := assignee insn;
     expression := e;
     temp_var_type := temp_var_type insn;
     priority := priority insn |}.

(** The body of [for insn in knl.instructions]: the mapper runs first (and
    may append assignments), then the rewritten instruction is appended. *)
Definition expand_cses_step (knl : LoopKernel) (insn : Instruction)
    (st : cse_state) : cse_state :=
  let '(e', st1) := cseam knl (expression insn) st in
  {| expr_to_var := expr_to_var st1;
     existing_names := existing_names st1;
     new_insns := new_insns st1 ++ [with_expression insn e'];
     newly_created_insn_ids := newly_created_insn_ids st1;
     new_temp_vars := new_temp_vars st1 |}.

Definition expand_cses_init (knl : LoopKernel) : cse_state :=
  {| expr_to_var := [];
     existing_names := all_variable_names knl;
     new_insns := [];
     newly_created_insn_ids := ∅;
     new_temp_vars := temporary_variables knl |}.

Definition expand_cses_run (knl : LoopKernel) : cse_state :=
  fold_left (fun st insn => expand_cses_step knl insn st)
    (instructions knl) (expand_cses_init knl).

Definition expand_cses (knl : LoopKernel) : LoopKernel :=
  let st := expand_cses_run knl in
  {| domains := domains knl;
     iname_to_tag := iname_to_tag knl;
     instructions := new_insns st;
     args := args knl;
     temporary_variables := new_temp_vars st;
     substitutions := substitutions knl |}.

(* ===================================================================== *)
(** ** create_temporaries *)
(* ===================================================================== *)

Definition plain_inames_message (assignee_name : string) : string :=
  "only plain inames are allowed in the lvalue index when declaring the "
    +:+ "variable '" +:+ assignee_name +:+ "' in an instruction".

Definition already_exists_message (assignee_name : string) : string :=
  "cannot create temporary variable '" +:+ assignee_name
    +:+ "'--already exists".

Definition already_exists_as_argument_message (assignee_name : string)
  : string :=
  "cannot create temporary variable '" +:+ assignee_name
    +:+ "'--already exists as argument".

(** The body of [for index_expr in insn.get_assignee_indices()]. *)
Definition assignee_index_step (knl : LoopKernel) (assignee_name : string)
    (index_expr : expr) (assignee_indices : list string)
  : result (list string) :=
  match index_expr with
  | Var name =>
      if decide (name ∈ all_inames knl)
      then Ok (assignee_indices ++ [name])%list
      else Raise (RuntimeError (plain_inames_message assignee_name))
  | _ => Raise (RuntimeError (plain_inames_message assignee_name))
  end.

Definition with_temp_var_type (insn : Instruction)
    (t : option temp_var_dtype) : Instruction :=
  {| insn_id := insn_id insn;
     insn_deps := insn_deps insn;
     forced_iname_deps := forced_iname_deps insn;
     assignee := assignee insn;
     expression := expression insn;
     temp_var_type := t;
     priority := priority insn |}.

Section create_temporaries.
(** [LoopKernel.find_var_base_indices_and_shape_from_inames] is not under
    src/ and rests on the polyhedral library; it is a parameter. *)
Variable find_var_base_indices_and_shape_from_inames :
  LoopKernel -> list string -> list expr * list expr.

(** The body of [for insn in knl.instructions], on the pair
    ([new_insns], [new_temp_vars]). *)
Definition create_temporaries_step (knl : LoopKernel) (insn : Instruction)
    (st : list Instruction * gmap string TemporaryVariable)
  : result (list Instruction * gmap string TemporaryVariable) :=
  let '(new_insns, new_temp_vars) := st in
  match temp_var_type insn with
  | Some declared =>
      let assignee_name := get_assignee_var_name insn in
      assignee_indices ←
        fold_result (assignee_index_step knl assignee_name)
          (get_assignee_indices insn) [];
      let '(base_indices, shape) :=
        find_var_base_indices_and_shape_from_inames knl assignee_indices in
      if decide (is_Some (new_temp_vars !! assignee_name))
      then Raise (RuntimeError (already_exists_message assignee_name))
      else if decide (is_Some (arg_dict knl !! assignee_name))
      then Raise (RuntimeError
                    (already_exists_as_argument_message assignee_name))
      else
        let tv :=
          {| tv_name := assignee_name; tv_dtype := declared;
             tv_is_local := None; tv_base_indices := base_indices;
             tv_shape := shape |} in
        Ok ((new_insns ++ [with_temp_var_type insn None])%list,
            <[assignee_name := tv]> new_temp_vars)
  | None => Ok ((new_insns ++ [insn])%list, new_temp_vars)
  end.

Definition create_temporaries (knl : LoopKernel) : result LoopKernel :=
  st ← fold_result (create_temporaries_step knl) (instructions knl)
         ([], temporary_variables knl);
  Ok {| domains := domains knl;
        iname_to_tag := iname_to_tag knl;
        instructions := fst st;
        args := args knl;
        temporary_variables := snd st;
        substitutions := substitutions knl |}.

(** The part of [make_kernel] that follows the construction of the
    [LoopKernel] object, in the source's order. *)
Definition make_kernel_passes (knl : LoopKernel) : result LoopKernel :=
  _ ← check_for_nonexistent_iname_deps knl;
  _ ← check_for_reduction_inames_duplication_requests knl;
  knl ← tag_reduction_inames_as_sequential knl;
  knl ← create_temporaries knl;
  let knl := expand_cses knl in
  _ ← check_for_multiple_writes_to_loop_bounds knl;
  _ ← check_for_duplicate_names knl;
  _ ← check_written_variable_names knl;
  Ok knl.
End create_temporaries.

(* ===================================================================== *)
(** ** expand_defines: macro expansion over raw text *)
(* ===================================================================== *)

(** The character class [[a-zA-Z0-9_]]. *)
Definition is_word_char (c : ascii) : bool :=
  let n := nat_of_ascii c in
  (((48 <=? n) && (n <=? 57)) || ((65 <=? n) && (n <=? 90))
   || ((97 <=? n) && (n <=? 122)) || (n =? 95))%nat.

Definition is_digit (c : ascii) : bool :=
  let n := nat_of_ascii c in ((48 <=? n) && (n <=? 57))%nat.

Definition flush_word (cur : string) : list string :=
  match cur with "" => [] | _ => [cur] end.

(** [WORD_RE.finditer(s)], group 1 of every match of
    [\b([a-zA-Z0-9_]+)\b]: the maximal runs of word characters, left to
    right.  [cur] is the run being read. *)
Fixpoint word_runs (s cur : string) : list string :=
  match s with
  | "" => flush_word cur
  | String c s' =>
      if is_word_char c then word_runs s' (cur +:+ String c "")
      else (flush_word cur ++ word_runs s' "")%list
  end.

Definition WORD_RE_finditer (s : string) : list string := word_runs s "".

(** [BRACE_RE.finditer(s)], group 1 of every match of
    [\$\{([a-zA-Z0-9_]+)\}], as the scanner the regular expression
    denotes: a match is [${], a maximal non-empty run of word characters
    and [}]; a failed attempt resumes at the character that broke it. *)
Inductive brace_scan : Type :=
| Idle
| SawDollar
| InBrace (word : string).

Definition brace_scan_step (st : brace_scan) (c : ascii)
  : brace_scan * list string :=
  let restart :=
    if Ascii.eqb c "$" then SawDollar else Idle in
  match st with
  | Idle => (restart, [])
  | SawDollar => if Ascii.eqb c "{" then (InBrace "", []) else (restart, [])
  | InBrace w =>
      if is_word_char c then (InBrace (w +:+ String c ""), [])
      else if Ascii.eqb c "}" then
        match w with "" => (Idle, []) | _ => (Idle, [w]) end
      else (restart, [])
  end.

Fixpoint brace_matches (s : string) (st : brace_scan) : list string :=
  match s with
  | "" => []
  | String c s' =>
      let '(st', out) := brace_scan_step st c in
      (out ++ brace_matches s' st')%list
  end.

Definition BRACE_RE_finditer (s : string) : list string :=
  brace_matches s Idle.

(** The two replacement patterns [r"\$\{%s\}" % word] and
    [r"\b%s\b" % word]. *)
Inductive pattern : Type :=
| BracePattern (word : string)
| WordPattern (word : string).

(** [re.sub] of a literal [pat]: every occurrence, left to right, without
    overlap.  [skip] counts the characters of the occurrence just replaced
    that are still to be passed over. *)
Fixpoint replace_literal (pat val s : string) (skip : nat) : string :=
  match s with
  | "" => ""
  | String c s' =>
      match skip with
      | S k => replace_literal pat val s' k
      | 0 =>
          if String.prefix pat s
          then val +:+ replace_literal pat val s' (String.length pat - 1)
          else String c (replace_literal pat val s' 0)
      end
  end.

Definition flush_sub (word val cur : string) : string :=
  if decide (cur = word) then val else cur.

(** [re.sub] of [\bword\b]: every maximal run of word characters equal to
    [word] is replaced. *)
Fixpoint replace_word (word val s cur : string) : string :=
  match s with
  | "" => flush_sub word val cur
  | String c s' =>
      if is_word_char c then replace_word word val s' (cur +:+ String c "")
      else flush_sub word val cur +:+ String c (replace_word word val s' "")
  end.

(** [re.sub(pattern, str(val), rep_value)] for a value that holds no
    backslash: the replacement is then inserted as it stands.  Python reads
    a backslash in the replacement as the start of an escape, rewrites the
    escapes it knows and raises on the others; such values are outside this
    definition, and the statements on what an expansion yields are made
    for tables without them. *)
Definition re_sub (p : pattern) (val rep_value : string) : string :=
  match p with
  | BracePattern word =>
      replace_literal ("${" +:+ word +:+ "}") val rep_value 0
  | WordPattern word => replace_word word val rep_value ""
  end.

(** A macro value: a single value or a list of values (already as the text
    [str] gives). *)
Inductive define_value : Type :=
| Single (value : string)
| Multi (values : list string).

Definition multi_valued_message (word : string) : string :=
  "multi-valued macro expansion not allowed in this context "
    +:+ "(when expanding '" +:+ word +:+ "')".

(** The body of [for match in find_regexp.finditer(insn)]. *)
Definition expand_match (defines : gmap string define_value)
    (single_valued : bool) (replace_pattern : string -> pattern)
    (word : string) (replacements : list (list (pattern * string)))
  : result (list (list (pattern * string))) :=
  match defines !! word with
  | None => Ok replacements
  | Some (Multi value) =>
      if single_valued
      then Raise (ValueError (multi_valued_message word))
      else Ok (flat_map
                 (fun rep =>
                    map (fun subval =>
                           (rep ++ [(replace_pattern word, subval)])%list)
                        value)
                 replacements)
  | Some (Single value) =>
      Ok (map (fun rep => (rep ++ [(replace_pattern word, value)])%list)
              replacements)
  end.

(** The first loop nest of [expand_defines]: the bracketed matches, then the
    bare ones. *)
Definition expand_replacements (insn : string)
    (defines : gmap string define_value) (single_valued : bool)
  : result (list (list (pattern * string))) :=
  replacements ←
    fold_result (expand_match defines single_valued BracePattern)
      (BRACE_RE_finditer insn) [[]];
  fold_result (expand_match defines single_valued WordPattern)
    (WORD_RE_finditer insn) replacements.

(** The inner loop [for pattern, val in rep]. *)
Definition apply_replacements (rep : list (pattern * string))
    (insn : string) : string :=
  fold_left (fun rep_value pv => re_sub (fst pv) (snd pv) rep_value)
    rep insn.

(** [expand_defines]: the strings the generator yields, in order. *)
Definition expand_defines (insn : string)
    (defines : gmap string define_value) (single_valued : bool)
  : result (list string) :=
  replacements ← expand_replacements insn defines single_valued;
  Ok (map (fun rep => apply_replacements rep insn) replacements).

(* ===================================================================== *)
(** ** parse_domains *)
(* ===================================================================== *)

(** [_gather_identifiers]: the matches of [_IDENTIFIER_RE] (a letter or
    underscore followed by word characters, between word boundaries), that
    is the maximal runs of word characters that do not start with a
    digit. *)
Definition is_identifier (w : string) : bool :=
  match w with
  | "" => false
  | String c _ => negb (is_digit c)
  end.

Definition _gather_identifiers (s : string) : gset string :=
  list_to_set (filter (fun w => is_identifier w = true) (WORD_RE_finditer s)).

Definition is_space (c : ascii) : bool :=
  let n := nat_of_ascii c in ((n =? 32) || ((9 <=? n) && (n <=? 13)))%nat.

Fixpoint lstrip (s : string) : string :=
  match s with
  | "" => ""
  | String c s' => if is_space c then lstrip s' else s
  end.

(** An element of the [domains] list: raw text or a set already built. *)
Inductive domain_input : Type :=
| DomainStr (text : string)
| DomainSet (dom : BasicSet).

Definition no_iname_message (dom : BasicSet) (i_iname : nat) : string :=
  "domain '" +:+ bs_str dom +:+ "' provided no iname at index "
    +:+ pretty i_iname +:+ " (redefined iname?)".

Definition redefines_message (dom : BasicSet) (iname : string) : string :=
  "domain '" +:+ bs_str dom +:+ "' redefines iname '" +:+ iname
    +:+ "' that is part of a previous domain".

(** The state of the dimension loop: the index [i_iname], [used_inames]
    and [available_parameters]. *)
Definition dim_step (dom : BasicSet) (iname : option string)
    (st : nat * gset string * gset string)
  : result (nat * gset string * gset string) :=
  let '(i_iname, used_inames, available_parameters) := st in
  match iname with
  | None => Raise (RuntimeError (no_iname_message dom i_iname))
  | Some iname =>
      if decide (iname ∈ used_inames)
      then Raise (RuntimeError (redefines_message dom iname))
      else Ok (S i_iname, {[iname]} ∪ used_inames,
               {[iname]} ∪ available_parameters)
  end.

(** The text handed to the polyhedral parser for a text domain. *)
Definition domain_text (dom : string) (available_parameters : gset string)
  : string :=
  if String.prefix "[" (lstrip dom) then dom
  else
    let ids := _gather_identifiers dom in
    let parameters := ids ∩ available_parameters in
    "[" +:+ join "," (elements parameters) +:+ "] -> " +:+ dom.

Section parse_domains.
(** [isl.BasicSet.read_from_str] of the external polyhedral library:
    [None] when it raises. *)
Variable read_from_str : string -> option BasicSet.
Variable defines : gmap string define_value.

(** The first half of the loop body: the element as a set. *)
Definition resolve_domain (dom : domain_input)
    (available_parameters : gset string) : result BasicSet :=
  match dom with
  | DomainStr dom =>
      expanded ← expand_defines dom defines true;
      match expanded with
      | [dom] =>
          match read_from_str (domain_text dom available_parameters) with
          | Some d => Ok d
          | None => Raise (IslError (domain_text dom available_parameters))
          end
      | _ => Raise (ValueError "need exactly one value to unpack")
      end
  | DomainSet d => Ok d
  end.

(** The loop body, on ([result], [available_parameters],
    [used_inames]). *)
Definition parse_domain_step (dom : domain_input)
    (st : list BasicSet * gset string * gset string)
  : result (list BasicSet * gset string * gset string) :=
  let '(result_, available_parameters, used_inames) := st in
  d ← resolve_domain dom available_parameters;
  st' ← fold_result (dim_step d) (bs_set_dims d)
          (0, used_inames, available_parameters);
  let '(_, used_inames', available_parameters') := st' in
  Ok ((result_ ++ [d])%list, available_parameters', used_inames').

Definition parse_domains_loop (domains : list domain_input)
    (st : list BasicSet * gset string * gset string)
  : result (list BasicSet * gset string * gset string) :=
  fold_result parse_domain_step domains st.

Definition parse_domains (args_and_vars : gset string)
    (domains : list domain_input) : result (list BasicSet) :=
  st ← parse_domains_loop domains ([], args_and_vars, ∅);
  Ok (fst (fst st)).
End parse_domains.

(* ===================================================================== *)
(** ** loopy/library/function.py *)
(* ===================================================================== *)

(** A key of [arg_id_to_dtype]: an integer position (arguments from 0,
    results from -1 downwards) or a keyword. *)
Definition arg_id : Type := Z + string.

(** A callable as [with_types] sees it: its name, its name in the target
    and its position-to-type mapping (a value [None] is an unknown
    type). *)
Record ScalarCallable : Type := mkScalarCallable {
  sc_name : string;
  sc_name_in_target : option string;
  sc_arg_id_to_dtype : option (gmap arg_id (option string))
}.

(** The body of [for i in range(len(arg_id_to_dtype))]. *)
Definition with_types_step (arg_id_to_dtype : gmap arg_id (option string))
    (i : nat) (new_arg_id_to_dtype : gmap arg_id (option string))
  : result (gmap arg_id (option string)) :=
  match arg_id_to_dtype !! (inl (Z.of_nat i) : arg_id) with
  | Some (Some _) =>
      match new_arg_id_to_dtype !! (inl (Z.of_nat i) : arg_id) with
      | Some v =>
          Ok (<[(inl (- Z.of_nat i - 1)%Z : arg_id) := v]>
                new_arg_id_to_dtype)
      | None => Raise (KeyError (pretty i))
      end
  | _ => Ok new_arg_id_to_dtype
  end.

Definition MakeTupleCallable_types
    (arg_id_to_dtype : gmap arg_id (option string))
  : result (gmap arg_id (option string)) :=
  fold_result (with_types_step arg_id_to_dtype)
    (seq 0 (size arg_id_to_dtype)) arg_id_to_dtype.

(** [MakeTupleCallable.with_types]; [kernel] is unused and
    [program_callables_info] is passed through. *)
Definition MakeTupleCallable_with_types {Info : Type} (self : ScalarCallable)
    (arg_id_to_dtype : gmap arg_id (option string))
    (program_callables_info : Info) : result (ScalarCallable * Info) :=
  new_arg_id_to_dtype ← MakeTupleCallable_types arg_id_to_dtype;
  Ok ({| sc_name := sc_name self;
         sc_name_in_target := Some "loopy_make_tuple";
         sc_arg_id_to_dtype := Some new_arg_id_to_dtype |},
      program_callables_info).

(* ===================================================================== *)
(** ** Sample kernels *)
(* ===================================================================== *)

Definition plain_insn (id_ : string) (lhs : lvalue) (rhs : expr)
  : Instruction :=
  {| insn_id := Some id_; insn_deps := ∅; forced_iname_deps := ∅;
     assignee := lhs; expression := rhs; temp_var_type := None;
     priority := 0 |}.

Definition declaring_insn (id_ : string) (t : temp_var_dtype)
    (lhs : lvalue) (rhs : expr) : Instruction :=
  {| insn_id := Some id_; insn_deps := ∅; forced_iname_deps := ∅;
     assignee := lhs; expression := rhs; temp_var_type := Some t;
     priority := 0 |}.

(** The domain [[n] -> { [i, j] : 0 <= i, j < n }]. *)
Definition dom_ij : BasicSet :=
  {| bs_str := "[n] -> { [i, j] : 0 <= i < n and 0 <= j < n }";
     bs_params := ["n"];
     bs_set_dims := [Some "i"; Some "j"] |}.

Definition sample_args : list Argument :=
  [ {| arg_name := "a"; arg_is_value := false |};
    {| arg_name := "out"; arg_is_value := false |};
    {| arg_name := "n"; arg_is_value := true |} ].

(** No shape inference: every synthesized temporary is a scalar. *)
Definition no_shape (knl : LoopKernel) (inames : list string)
  : list expr * list expr := ([], []).

(** [out[i] = sum(j, a[j])]. *)
Definition knl_reduction : LoopKernel :=
  {| domains := [dom_ij];
     iname_to_tag := ∅;
     instructions :=
       [plain_insn "w" (LSubscript "out" [Var "i"])
          (Reduction "sum" ["j"] (Subscript (Var "a") [Var "j"]))];
     args := sample_args;
     temporary_variables := ∅;
     substitutions := ∅ |}.

(** The same with [j] tagged parallel. *)
Definition knl_reduction_parallel : LoopKernel :=
  {| domains := [dom_ij];
     iname_to_tag := {["j" := ParallelTag "l.0"]};
     instructions := instructions knl_reduction;
     args := sample_args;
     temporary_variables := ∅;
     substitutions := ∅ |}.

(** [out[i] = sum(@j, a[j])]: the legacy duplication syntax. *)
Definition knl_duplication : LoopKernel :=
  {| domains := [dom_ij];
     iname_to_tag := ∅;
     instructions :=
       [plain_insn "w" (LSubscript "out" [Var "i"])
          (Reduction "sum" ["@j"] (Subscript (Var "a") [Var "j"]))];
     args := sample_args;
     temporary_variables := ∅;
     substitutions := ∅ |}.

(** [f(x) := sum(j, a[j]) * x] and [out[i] = f(i)], with [j] tagged
    parallel: the only reduction is in the substitution rule. *)
Definition knl_rule_reduction : LoopKernel :=
  {| domains := [dom_ij];
     iname_to_tag := {["j" := ParallelTag "l.0"]};
     instructions :=
       [plain_insn "w" (LSubscript "out" [Var "i"])
          (Call (Var "f") [Var "i"])];
     args := sample_args;
     temporary_variables := ∅;
     substitutions :=
       {["f" :=
           {| sr_name := "f"; sr_arguments := ["x"];
              sr_expression :=
                Product
                  [Reduction "sum" ["j"] (Subscript (Var "a") [Var "j"]);
                   Var "x"] |}]} |}.

(** The same kernel with no tag on [j]. *)
Definition knl_rule_reduction_untagged : LoopKernel :=
  {| domains := domains knl_rule_reduction;
     iname_to_tag := ∅;
     instructions := instructions knl_rule_reduction;
     args := args knl_rule_reduction;
     temporary_variables := temporary_variables knl_rule_reduction;
     substitutions := substitutions knl_rule_reduction |}.

(** A temporary [m] bounds the loop of [i]. *)
Definition dom_bounded_by_m : BasicSet :=
  {| bs_str := "[m] -> { [i] : 0 <= i < m }";
     bs_params := ["m"];
     bs_set_dims := [Some "i"] |}.

Definition knl_bound (insns : list Instruction) : LoopKernel :=
  {| domains := [dom_bounded_by_m];
     iname_to_tag := ∅;
     instructions := insns;
     args := sample_args;
     temporary_variables :=
       {["m" := {| tv_name := "m"; tv_dtype := np_dtype "int32";
                   tv_is_local := None; tv_base_indices := [];
                   tv_shape := [] |}]};
     substitutions := ∅ |}.

(** [<float64> tmp[i] = a[i] + 1] and [out[i] = tmp[i] * 2]. *)
Definition knl_declare (lhs : lvalue) : LoopKernel :=
  {| domains := [dom_ij];
     iname_to_tag := ∅;
     instructions :=
       [declaring_insn "d" (np_dtype "float64") lhs
          (Sum [Subscript (Var "a") [Var "i"]; Constant 1]);
        plain_insn "w" (LSubscript "out" [Var "i"])
          (Product [Subscript (Var "tmp") [Var "i"]; Constant 2])];
     args := sample_args;
     temporary_variables := ∅;
     substitutions := ∅ |}.

(** [<float64> tmp[i] = a[i] + 1] twice: the second instruction declares
    the temporary the first has created. *)
Definition knl_declare_twice : LoopKernel :=
  {| domains := [dom_ij];
     iname_to_tag := ∅;
     instructions :=
       [declaring_insn "d" (np_dtype "float64") (LSubscript "tmp" [Var "i"])
          (Sum [Subscript (Var "a") [Var "i"]; Constant 1]);
        declaring_insn "e" (np_dtype "float64") (LSubscript "tmp" [Var "i"])
          (Sum [Subscript (Var "a") [Var "i"]; Constant 1])];
     args := sample_args;
     temporary_variables := ∅;
     substitutions := ∅ |}.

(** Macro tables: two list-valued macros, and a macro whose value holds
    bracket syntax. *)
Definition defines_2_3 : gmap string define_value :=
  <["a" := Multi ["1"; "2"]]> (<["b" := Multi ["x"; "y"; "z"]]> ∅).

Definition defines_nested : gmap string define_value :=
  <["a" := Single "${b}"]> (<["b" := Single "X"]> ∅).

(** Two sets built by the caller: the first takes [j] as a parameter, the
    second binds [j] as its loop index. *)
Definition dom_i_upto_j : BasicSet :=
  {| bs_str := "[j] -> { [i] : 0 <= i < j }";
     bs_params := ["j"];
     bs_set_dims := [Some "i"] |}.

Definition dom_j : BasicSet :=
  {| bs_str := "[n] -> { [j] : 0 <= j < n }";
     bs_params := ["n"];
     bs_set_dims := [Some "j"] |}.

(** A parser that accepts no text. *)
Definition no_parser (text : string) : option BasicSet := None.

(** [out[i] = cse(a[i] + 1) * cse(a[i] + 1, "t")]: the same inner
    expression under two tags. *)
Definition knl_cse_shared : LoopKernel :=
  {| domains := [dom_ij];
     iname_to_tag := ∅;
     instructions :=
       [plain_insn "w" (LSubscript "out" [Var "i"])
          (Product
             [CommonSubexpression
                (Sum [Subscript (Var "a") [Var "i"]; Constant 1]) None None;
              CommonSubexpression
                (Sum [Subscript (Var "a") [Var "i"]; Constant 1])
                (Some "t") (Some "float64")])];
     args := sample_args;
     temporary_variables := ∅;
     substitutions := ∅ |}.

(** [out[i] = cse(n) + cse(n)]: the inner expression is a bare variable. *)
Definition knl_cse_variable : LoopKernel :=
  {| domains := [dom_ij];
     iname_to_tag := ∅;
     instructions :=
       [plain_insn "w" (LSubscript "out" [Var "i"])
          (Sum [CommonSubexpression (Var "n") None None;
                CommonSubexpression (Var "n") None None])];
     args := sample_args;
     temporary_variables := ∅;
     substitutions := ∅ |}.

(* ===================================================================== *)
(** ** Further parts of the two files *)
(* ===================================================================== *)

(** [UniqueNameGenerator.is_name_conflicting]. *)
Definition is_name_conflicting (existing_names : gset string)
    (name : string) : bool :=
  bool_decide (name ∈ existing_names).

(** [UniqueNameGenerator.add_name]; the message is the source's, whose
    format is never applied to the name. *)
Definition UniqueNameGenerator_add_name (name : string)
    (existing_names : gset string) : result (gset string) :=
  if is_name_conflicting existing_names name
  then Raise (ValueError "name '%s' conflicts with existing names")
  else Ok ({[name]} ∪ existing_names).

(** [UniqueNameGenerator.add_names]: the names are added one by one; the
    result is the set after the last one, or the first error. *)
Definition UniqueNameGenerator_add_names (names : list string)
    (existing_names : gset string) : result (gset string) :=
  fold_result UniqueNameGenerator_add_name names existing_names.

(** [IndexOfCallable.with_types], the new mapping: the entries whose type
    is known, then the index type of the kernel at result position [-1].
    Of [kernel] only [index_dtype] is read; it is an argument here. *)
Definition IndexOfCallable_types
    (arg_id_to_dtype : gmap arg_id (option string))
    (index_dtype : option string) : gmap arg_id (option string) :=
  <[(inl (-1)%Z : arg_id) := index_dtype]>
    (filter (fun kv => kv.2 <> None) arg_id_to_dtype).

Definition IndexOfCallable_with_types {Info : Type} (self : ScalarCallable)
    (arg_id_to_dtype : gmap arg_id (option string))
    (index_dtype : option string) (program_callables_info : Info)
  : ScalarCallable * Info :=
  ({| sc_name := sc_name self;
      sc_name_in_target := sc_name_in_target self;
      sc_arg_id_to_dtype :=
        Some (IndexOfCallable_types arg_id_to_dtype index_dtype) |},
   program_callables_info).

(* ===================================================================== *)
(** ** parse_if_necessary and the parsing loop of make_kernel *)
(* ===================================================================== *)

(** [s.split(newline)]; [cur] is the line being read. *)
Fixpoint split_lines (s cur : string) : list string :=
  match s with
  | "" => [cur]
  | String c s' =>
      if Ascii.eqb c "010" then cur :: split_lines s' ""
      else split_lines s' (cur +:+ String c "")
  end.

(** [insn[:insn.find(hash)]] when the line holds a hash sign, the line
    itself otherwise. *)
Fixpoint cut_comment (insn : string) : string :=
  match insn with
  | "" => ""
  | String c s' =>
      if Ascii.eqb c "#" then "" else String c (cut_comment s')
  end.

Fixpoint rstrip (s : string) : string :=
  match s with
  | "" => ""
  | String c s' =>
      match rstrip s' with
      | "" => if is_space c then "" else String c ""
      | r => String c r
      end
  end.

(** [s.strip()]. *)
Definition strip (s : string) : string := lstrip (rstrip s).

(** What [parse_insn] returns. *)
Inductive parsed_item : Type :=
| ParsedInstruction (insn : Instruction)
| ParsedSubstitutionRule (rule : SubstitutionRule).

(** An element of the [instructions] list: an [Instruction] object or
    text.  (Any other object makes [parse_if_necessary] raise a
    TypeError; such elements are outside this type.) *)
Inductive insn_input : Type :=
| InsnObject (insn : Instruction)
| InsnText (text : string).

Section parse_if_necessary.
Context {A B : Type}.
Variable f : A -> result (list B).

(** A loop that yields, for each element in order, what [f] yields for
    it: all that is yielded, or the first error. *)
Definition yield_all (l : list A) : result (list B) :=
  fold_result (fun x acc => ys ← f x; Ok (acc ++ ys)%list) l [].
End parse_if_necessary.

Section make_kernel_parse.
(** [parse_insn] rests on two regular expressions with lazy quantifiers
    and on the expression parser of pymbolic; the loops around it are
    modelled for any such function. *)
Variable parse_insn : string -> result parsed_item.
Variable defines : gmap string define_value.

(** The body of [for insn in insn.split(newline)]: the comment is cut, the
    line stripped, an empty line skipped, every expansion parsed. *)
Definition parse_line (insn : string) : result (list parsed_item) :=
  let insn := strip (cut_comment insn) in
  if String.eqb insn "" then Ok []
  else
    sub_insns ← expand_defines insn defines false;
    yield_all (fun sub_insn => new ← parse_insn sub_insn; Ok [new])
      sub_insns.

(** [parse_if_necessary]: the items the generator yields when it is run
    to its end, or the first error. *)
Definition parse_if_necessary (insn : insn_input)
  : result (list parsed_item) :=
  match insn with
  | InsnObject insn => Ok [ParsedInstruction insn]
  | InsnText insn => yield_all parse_line (split_lines insn "")
  end.

(** The body of [for new_insn in parse_if_necessary(insn, defines)], on
    ([parsed_instructions], [substitutions]). *)
Definition collect_item
    (st : list Instruction * gmap string SubstitutionRule)
    (new_insn : parsed_item)
  : list Instruction * gmap string SubstitutionRule :=
  match new_insn with
  | ParsedInstruction insn => ((fst st ++ [insn])%list, snd st)
  | ParsedSubstitutionRule rule =>
      (fst st, <[sr_name rule := rule]> (snd st))
  end.

(** The parsing loop of [make_kernel]. *)
Definition make_kernel_parse (instructions : list insn_input)
  : result (list Instruction * gmap string SubstitutionRule) :=
  fold_result
    (fun insn st =>
       items ← parse_if_necessary insn;
       Ok (fold_left collect_item items st))
    instructions ([], ∅).
End make_kernel_parse.

(* ===================================================================== *)
(** * Specification vocabulary *)
(* ===================================================================== *)

(** The reduction loop indices the pass sees: those of the reduction nodes
    of the instructions' expressions. *)
Definition insn_reduction_iname (knl : LoopKernel) (i : string) : Prop :=
  exists insn, insn ∈ instructions knl /\ red_iname_in i (expression insn).

(** The same for the substitution rules' expressions. *)
Definition subst_reduction_iname (knl : LoopKernel) (i : string) : Prop :=
  exists n rule, substitutions knl !! n = Some rule /\
                 red_iname_in i (sr_expression rule).

Definition collects (e : expr) : Prop :=
  forall s, exists s',
    ReductionCallbackMapper map_reduction e s = Ok s' /\
    forall i, i ∈ s' <-> i ∈ s \/ red_iname_in i e.

(** [duplication_request e]: some reduction node of [e] names a loop index
    that begins with the character [@]. *)
Definition duplication_request (e : expr) : Prop :=
  exists i, red_iname_in i e /\ String.prefix "@" i = true.

Definition rejects_or_passes (e : expr) : Prop :=
  (ReductionCallbackMapper check_reduction_inames e tt = Ok tt /\
   ~ duplication_request e) \/
  (ReductionCallbackMapper check_reduction_inames e tt
     = Raise (RuntimeError duplication_message) /\
   duplication_request e).

(** An index expression the pass accepts: a bare variable reference that
    names a loop index of the kernel. *)
Definition is_plain_iname (knl : LoopKernel) (e : expr) : bool :=
  match e with
  | Var name => bool_decide (name ∈ all_inames knl)
  | _ => false
  end.

Definition index_name (e : expr) : string :=
  match e with Var name => name | _ => "" end.

(** The state in which the loop body accepts a declaring instruction. *)
Definition acceptable (knl : LoopKernel) (insn : Instruction)
    (new_temp_vars : gmap string TemporaryVariable) : Prop :=
  forallb (is_plain_iname knl) (get_assignee_indices insn) = true /\
  new_temp_vars !! get_assignee_var_name insn = None /\
  arg_dict knl !! get_assignee_var_name insn = None.

Definition clear_declared (insn : Instruction) : Instruction :=
  match temp_var_type insn with
  | Some _ => with_temp_var_type insn None
  | None => insn
  end.



(** The keys the loop never writes: keywords and non-negative positions. *)
Definition argument_key (k : arg_id) : Prop :=
  match k with inl z => (0 <= z)%Z | inr _ => True end.

(** The mirroring as the spec states it, for one input mapping: every
    argument position of the mapping whose type is known is mirrored onto
    the result position [-i-1]. *)
Definition mirrors_every_known_position
    (arg_id_to_dtype : gmap arg_id (option string)) : Prop :=
  forall (i : nat) t,
    arg_id_to_dtype !! (inl (Z.of_nat i) : arg_id) = Some (Some t) ->
    exists new,
      MakeTupleCallable_types arg_id_to_dtype = Ok new /\
      new !! (inl (- Z.of_nat i - 1)%Z : arg_id) = Some (Some t).

(** The mapping [{1: float64}]: position 1 is known, position 0 absent. *)
Definition types_with_gap : gmap arg_id (option string) :=
  {[ (inl 1%Z : arg_id) := Some "float64" ]}.

(** The matches that name a macro of the table, in order of occurrence. *)
Definition defined_words (defines : gmap string define_value)
    (ws : list string) : list string :=
  filter (fun w => is_Some (defines !! w)) ws.

(** [extends reps ws mk rep']: [rep'] is a tuple of [reps] followed by one
    replacement per word of [ws], each with the pattern [mk] gives. *)
Definition extends (reps : list (list (pattern * string)))
    (ws : list string) (mk : string -> pattern)
    (rep' : list (pattern * string)) : Prop :=
  exists rep ext, rep ∈ reps /\ rep' = (rep ++ ext)%list /\
                  map fst ext = map mk ws.

(** No reinterpretation as the spec states it, for one text and table: the
    value of every bracketed placeholder stands in the expansion as it is
    in the table. *)
Definition bracket_values_not_reinterpreted (insn : string)
    (defines : gmap string define_value) : Prop :=
  forall w v out,
    w ∈ BRACE_RE_finditer insn ->
    defines !! w = Some (Single v) ->
    expand_defines insn defines true = Ok [out] ->
    exists pre post, out = pre +:+ v +:+ post.




Fixpoint expr_size (e : expr) : nat :=
  match e with
  | Var _ | Constant _ => 1
  | Sum es | Product es => S (list_sum (map expr_size es))
  | Subscript a idx => S (expr_size a + list_sum (map expr_size idx))
  | Call f ps => S (expr_size f + list_sum (map expr_size ps))
  | Reduction _ _ b => S (expr_size b)
  | CommonSubexpression c _ _ => S (expr_size c)
  end.

(** [cse_image M e]: the tree [e] with every tagged node replaced by what
    the memo [M] holds for its inner expression, or, when the memo holds
    nothing for it, by the image of the inner expression. *)
Fixpoint cse_image (M : list (expr * expr)) (e : expr) : expr :=
  match e with
  | Var _ | Constant _ => e
  | Sum es => Sum (map (cse_image M) es)
  | Product es => Product (map (cse_image M) es)
  | Subscript a idx => Subscript (cse_image M a) (map (cse_image M) idx)
  | Call f ps => Call (cse_image M f) (map (cse_image M) ps)
  | Reduction op ins b => Reduction op ins (cse_image M b)
  | CommonSubexpression c _ _ =>
      match memo_lookup c M with
      | Some v => v
      | None => cse_image M c
      end
  end.

(** [settled M e]: every tagged node of [e] that [cse_image M] reaches is
    in the memo, or its inner expression is settled and has a bare variable
    for image. *)
Fixpoint settled (M : list (expr * expr)) (e : expr) : bool :=
  match e with
  | Var _ | Constant _ => true
  | Sum es | Product es => forallb (settled M) es
  | Subscript a idx => settled M a && forallb (settled M) idx
  | Call f ps => settled M f && forallb (settled M) ps
  | Reduction _ _ b => settled M b
  | CommonSubexpression c _ _ =>
      match memo_lookup c M with
      | Some _ => true
      | None => settled M c && is_Variable (cse_image M c)
      end
  end.

(** The name a memo entry refers to. *)
Definition var_of (kv : expr * expr) : string := index_name (snd kv).

(** [grows st st' D H]: from [st] to [st'] the run memoised the entries [D]
    (latest first) and appended the assignments [H] (in order), one per
    entry; the names are fresh, the images of settled trees are unchanged
    and no entry stands for an inner expression whose image is a bare
    variable. *)
Record grows (st st' : cse_state) (D : list (expr * expr))
    (H : list Instruction) : Prop := {
  grows_memo : expr_to_var st' = (D ++ expr_to_var st)%list;
  grows_insns : new_insns st' = (new_insns st ++ H)%list;
  grows_hoisted :
    Forall2
      (fun h kv =>
         settled (expr_to_var st') (fst kv) = true /\
         exists id_,
           h = assignment_insn id_ (var_of kv)
                 (cse_image (expr_to_var st') (fst kv)))
      H (rev D);
  grows_vars : Forall (fun kv => snd kv = Var (var_of kv)) D;
  grows_nodup : NoDup (map var_of D);
  grows_fresh : forall kv, kv ∈ D -> var_of kv ∉ existing_names st;
  grows_names :
    existing_names st' = list_to_set (map var_of D) ∪ existing_names st;
  grows_temps_old :
    forall n, n ∉ map var_of D ->
              new_temp_vars st' !! n = new_temp_vars st !! n;
  grows_temps_new :
    forall kv, kv ∈ D ->
      exists tv, new_temp_vars st' !! var_of kv = Some tv /\
                 tv_name tv = var_of kv;
  grows_keys :
    forall kv, kv ∈ D -> memo_lookup (fst kv) (expr_to_var st) = None;
  grows_keys_nodup : NoDup (map fst D);
  grows_stable :
    forall x, settled (expr_to_var st) x = true ->
      settled (expr_to_var st') x = true /\
      cse_image (expr_to_var st') x = cse_image (expr_to_var st) x;
  grows_nonvar :
    forall kv, kv ∈ D ->
      settled (expr_to_var st') (fst kv) = true /\
      is_Variable (cse_image (expr_to_var st') (fst kv)) = false
}.

Definition base_name_of (p : option string) : string :=
  match p with Some b => b | None => "var" end.

Definition dtype_of (d : option string) : temp_var_dtype :=
  match d with None => infer_type | Some d => np_dtype d end.

(** What one call of the mapper on [e] establishes. *)
Definition cseam_spec (knl : LoopKernel) (e : expr) : Prop :=
  forall st e' st',
    cseam knl e st = (e', st') ->
    exists D H,
      grows st st' D H /\
      settled (expr_to_var st') e = true /\
      e' = cse_image (expr_to_var st') e /\
      Forall (fun kv => expr_size (fst kv) < expr_size e) D.

(** The state with [new_insns] replaced: the mapper reads nothing of
    [new_insns], it only appends. *)
Definition shadow (st : cse_state) (insns : list Instruction) : cse_state :=
  {| expr_to_var := expr_to_var st;
     existing_names := existing_names st;
     new_insns := insns;
     newly_created_insn_ids := newly_created_insn_ids st;
     new_temp_vars := new_temp_vars st |}.

Definition rewritten (M : list (expr * expr)) (insn : Instruction)
  : Instruction :=
  with_expression insn (cse_image M (expression insn)).

(** The invariant of the loop of [expand_cses] after the instructions
    [seen]. *)
Definition run_inv (knl : LoopKernel) (seen : list Instruction)
    (st : cse_state) : Prop :=
  exists D H,
    grows (expand_cses_init knl) (shadow st H) D H /\
    Permutation (new_insns st)
      (H ++ map (rewritten (expr_to_var st)) seen) /\
    Forall (fun insn => settled (expr_to_var st) (expression insn) = true)
      seen.




(** How many ways a match forks the expansion. *)
Definition arity (defines : gmap string define_value) (w : string) : nat :=
  match defines !! w with
  | Some (Multi values) => length values
  | _ => 1
  end.

Definition list_valued (defines : gmap string define_value) (w : string)
  : Prop :=
  exists values, defines !! w = Some (Multi values).

Definition product (l : list nat) : nat := fold_right Nat.mul 1 l.

(** The text holds no backslash. *)
Fixpoint no_backslash (s : string) : bool :=
  match s with
  | "" => true
  | String c s' => negb (Ascii.eqb c "092") && no_backslash s'
  end.

Definition plain_value (v : define_value) : bool :=
  match v with
  | Single value => no_backslash value
  | Multi values => forallb no_backslash values
  end.

(** No value of the table holds a backslash.  [re.sub] reads its
    replacement as a template in which a backslash starts an escape (and
    raises on an escape it does not know); a value without one is inserted
    as it stands, which is what [re_sub] does. *)
Definition backslash_free (defines : gmap string define_value) : Prop :=
  map_Forall (fun _ v => plain_value v = true) defines.

(** The four namespaces of a kernel are pairwise disjoint and no two
    arguments share a name. *)
Definition namespaces_disjoint (knl : LoopKernel) : Prop :=
  NoDup (map arg_name (args knl)) /\
  (forall a, a ∈ args knl -> arg_name a ∉ all_inames knl) /\
  (forall n, n ∈ dom (temporary_variables knl) ->
     (n ∉ all_inames knl) /\ (n ∉ map arg_name (args knl))) /\
  (forall n, n ∈ dom (substitutions knl) ->
     (n ∉ all_inames knl) /\ (n ∉ map arg_name (args knl)) /\
     (n ∉ dom (temporary_variables knl))).

(** [cse_free e]: the tree holds no tagged common-subexpression node. *)
Fixpoint cse_free (e : expr) : bool :=
  match e with
  | Var _ | Constant _ => true
  | Sum es | Product es => forallb cse_free es
  | Subscript a idx => cse_free a && forallb cse_free idx
  | Call f ps => cse_free f && forallb cse_free ps
  | Reduction _ _ b => cse_free b
  | CommonSubexpression _ _ _ => false
  end.

(** The identifiers of the kernel's instructions. *)
Definition kernel_ids (knl : LoopKernel) : gset string :=
  list_to_set (omap insn_id (instructions knl)).

(** [ids_grow knl st st' ids]: from [st] to [st'] the run appended
    assignments whose identifiers are [ids], in order: pairwise distinct,
    not created before and not identifiers of the kernel. *)
Record ids_grow (knl : LoopKernel) (st st' : cse_state)
    (ids : list string) : Prop := {
  ids_insns :
    exists Hs, new_insns st' = (new_insns st ++ Hs)%list /\
               map insn_id Hs = map Some ids;
  ids_created :
    newly_created_insn_ids st'
    = list_to_set ids ∪ newly_created_insn_ids st;
  ids_nodup : NoDup ids;
  ids_fresh :
    forall i, i ∈ ids ->
      (i ∉ newly_created_insn_ids st) /\ (i ∉ kernel_ids knl)
}.

Definition cseam_ids (knl : LoopKernel) (e : expr) : Prop :=
  forall st e' st',
    cseam knl e st = (e', st') -> exists ids, ids_grow knl st st' ids.

(** The invariant of the loop of [expand_cses] on identifiers. *)
Definition ids_inv (knl : LoopKernel) (seen : list Instruction)
    (st : cse_state) : Prop :=
  exists ids,
    newly_created_insn_ids st = list_to_set ids /\
    NoDup ids /\
    (forall i, i ∈ ids -> i ∉ kernel_ids knl) /\
    Permutation (map insn_id (new_insns st))
      (map Some ids ++ map insn_id seen).

(** The dimensions of the sets are all named, by pairwise distinct names
    that are not in [used]. *)
Definition fresh_dims (ds : list BasicSet) (used : gset string) : Prop :=
  exists names,
    concat (map bs_set_dims ds) = map Some names /\ NoDup names /\
    (forall n, n ∈ names -> n ∉ used).

(** Every dimension of the sets is named and no name occurs twice, within
    one set or across sets. *)
Definition distinctly_named (ds : list BasicSet) : Prop :=
  exists names,
    concat (map bs_set_dims ds) = map Some names /\ NoDup names.





Definition instructions_of (items : list parsed_item) : list Instruction :=
  omap (fun it => match it with
                  | ParsedInstruction i => Some i
                  | ParsedSubstitutionRule _ => None
                  end) items.

Definition rules_of (items : list parsed_item) : list SubstitutionRule :=
  omap (fun it => match it with
                  | ParsedInstruction _ => None
                  | ParsedSubstitutionRule r => Some r
                  end) items.

(* ===================================================================== *)
(** * Properties *)
(* ===================================================================== *)

Lemma bind_Ok {A B : Type} (a : A) (k : A -> result B) : Ok a ≫= k = k a.
Proof. reflexivity. Qed.

Lemma bind_Raise {A B : Type} (e : exn) (k : A -> result B) :
  Raise e ≫= k = Raise e.
Proof. reflexivity. Qed.

Lemma bind_ok_inv {A B : Type} (m : result A) (k : A -> result B) (b : B) :
  m ≫= k = Ok b -> exists a, m = Ok a /\ k a = Ok b.
Proof. destruct m as [a|e]; simpl; [eauto | discriminate]. Qed.

Lemma bind_raise_inv {A B : Type} (m : result A) (k : A -> result B) (e : exn) :
  m ≫= k = Raise e -> m = Raise e \/ exists a, m = Ok a /\ k a = Raise e.
Proof. destruct m as [a|e']; simpl; [eauto | intros [= ->]; auto]. Qed.

Lemma fold_result_app {A S : Type} (f : A -> S -> result S) l1 l2 s :
  fold_result f (l1 ++ l2) s = (s' ← fold_result f l1 s; fold_result f l2 s').
Proof.
  revert s; induction l1 as [|x l1 IH]; intros s; simpl; [reflexivity|].
  destruct (f x s); simpl; auto.
Qed.

Lemma red_iname_in_Var i n : red_iname_in i (Var n) <-> False.
Proof. split; [|tauto]. intros (op & ins & b & H & _); inversion H. Qed.

Lemma red_iname_in_Constant i z : red_iname_in i (Constant z) <-> False.
Proof. split; [|tauto]. intros (op & ins & b & H & _); inversion H. Qed.

Lemma red_iname_in_Sum i es :
  red_iname_in i (Sum es) <-> exists e, e ∈ es /\ red_iname_in i e.
Proof.
  split.
  - intros (op & ins & b & H & Hi); inversion H; subst.
    eexists; split; [eassumption|]. exists op, ins, b; auto.
  - intros (e & He & op & ins & b & H & Hi).
    exists op, ins, b; split; [econstructor; eauto | auto].
Qed.

Lemma red_iname_in_Product i es :
  red_iname_in i (Product es) <-> exists e, e ∈ es /\ red_iname_in i e.
Proof.
  split.
  - intros (op & ins & b & H & Hi); inversion H; subst.
    eexists; split; [eassumption|]. exists op, ins, b; auto.
  - intros (e & He & op & ins & b & H & Hi).
    exists op, ins, b; split; [eapply subexpr_Product; eauto | auto].
Qed.

Lemma red_iname_in_Subscript i a idx :
  red_iname_in i (Subscript a idx) <->
  red_iname_in i a \/ exists e, e ∈ idx /\ red_iname_in i e.
Proof.
  split.
  - intros (op & ins & b & H & Hi); inversion H; subst.
    + left; exists op, ins, b; auto.
    + right; eexists; split; [eassumption|]. exists op, ins, b; auto.
  - intros [(op & ins & b & H & Hi)|(e & He & op & ins & b & H & Hi)];
      exists op, ins, b; split; auto.
    + by apply subexpr_Subscript_aggregate.
    + eapply subexpr_Subscript_index; eauto.
Qed.

Lemma red_iname_in_Call i f ps :
  red_iname_in i (Call f ps) <->
  red_iname_in i f \/ exists e, e ∈ ps /\ red_iname_in i e.
Proof.
  split.
  - intros (op & ins & b & H & Hi); inversion H; subst.
    + left; exists op, ins, b; auto.
    + right; eexists; split; [eassumption|]. exists op, ins, b; auto.
  - intros [(op & ins & b & H & Hi)|(e & He & op & ins & b & H & Hi)];
      exists op, ins, b; split; auto.
    + by apply subexpr_Call_function.
    + eapply subexpr_Call_parameters; eauto.
Qed.

Lemma red_iname_in_Reduction i op ins b :
  red_iname_in i (Reduction op ins b) <-> i ∈ ins \/ red_iname_in i b.
Proof.
  split.
  - intros (op' & ins' & b' & H & Hi); inversion H; subst; auto.
    right; exists op', ins', b'; auto.
  - intros [Hi|(op' & ins' & b' & H & Hi)].
    + exists op, ins, b; split; [constructor | auto].
    + exists op', ins', b'; split; [by apply subexpr_Reduction | auto].
Qed.

Lemma red_iname_in_CSE i c p d :
  red_iname_in i (CommonSubexpression c p d) <-> red_iname_in i c.
Proof.
  split.
  - intros (op & ins & b & H & Hi); inversion H; subst.
    exists op, ins, b; auto.
  - intros (op & ins & b & H & Hi).
    exists op, ins, b; split; [by apply subexpr_CSE | auto].
Qed.

(* ===================================================================== *)
(** ** Reduction sequencing *)
(* ===================================================================== *)

Lemma fold_collects es :
  Forall collects es ->
  forall s, exists s',
    fold_result (ReductionCallbackMapper map_reduction) es s = Ok s' /\
    forall i, i ∈ s' <-> i ∈ s \/ exists e, e ∈ es /\ red_iname_in i e.
Proof.
  induction 1 as [|e es He Hes IH]; intros s; simpl.
  - exists s; split; [reflexivity|]. intros i; split; [auto|].
    intros [?|(e & He & _)]; [done | by apply elem_of_nil in He].
  - destruct (He s) as (s1 & -> & H1); simpl.
    destruct (IH s1) as (s2 & -> & H2).
    exists s2; split; [reflexivity|]. intros i.
    rewrite H2, H1. split.
    + intros [[?|?]|(e' & ? & ?)]; eauto.
      * right; exists e; split; [left | done].
      * right; exists e'; split; [by right | done].
    + intros [?|(e' & [->|?]%elem_of_cons & ?)]; eauto.
Qed.

Lemma ReductionCallbackMapper_collects e : collects e.
Proof.
  induction e as [n|z|es IH|es IH|a idx IHa IH|f ps IHf IH|op ins b IH|c p d IH]
    using expr_ind'; intros s; simpl.
  - exists s; split; [done|]. intros i; rewrite red_iname_in_Var; tauto.
  - exists s; split; [done|]. intros i; rewrite red_iname_in_Constant; tauto.
  - destruct (fold_collects es IH s) as (s' & -> & H).
    exists s'; split; [done|]. intros i; by rewrite red_iname_in_Sum.
  - destruct (fold_collects es IH s) as (s' & -> & H).
    exists s'; split; [done|]. intros i; by rewrite red_iname_in_Product.
  - destruct (IHa s) as (s1 & -> & H1); simpl.
    destruct (fold_collects idx IH s1) as (s' & -> & H).
    exists s'; split; [done|]. intros i.
    rewrite red_iname_in_Subscript, H, H1; tauto.
  - destruct (IHf s) as (s1 & -> & H1); simpl.
    destruct (fold_collects ps IH s1) as (s' & -> & H).
    exists s'; split; [done|]. intros i.
    rewrite red_iname_in_Call, H, H1; tauto.
  - unfold collects in IH; unfold map_reduction in *.
    destruct (IH s) as (s1 & -> & H1); simpl.
    destruct (IH (s1 ∪ list_to_set ins)) as (s2 & -> & H2).
    exists s2; split; [done|]. intros i.
    rewrite red_iname_in_Reduction, H2, elem_of_union, H1,
      elem_of_list_to_set; tauto.
  - destruct (IH s) as (s' & -> & H).
    exists s'; split; [done|]. intros i; by rewrite red_iname_in_CSE.
Qed.

Lemma fold_collects_insns (l : list Instruction) s :
  exists s',
    fold_result
      (fun insn => ReductionCallbackMapper map_reduction (expression insn))
      l s = Ok s' /\
    forall i, i ∈ s' <->
      i ∈ s \/ exists insn, insn ∈ l /\ red_iname_in i (expression insn).
Proof.
  revert s; induction l as [|x l IH]; intros s; simpl.
  - exists s; split; [done|]. intros i; split; [auto|].
    intros [?|(e & He & _)]; [done | by apply elem_of_nil in He].
  - destruct (ReductionCallbackMapper_collects (expression x) s)
      as (s1 & -> & H1); simpl.
    destruct (IH s1) as (s2 & -> & H2).
    exists s2; split; [done|]. intros i. rewrite H2, H1. split.
    + intros [[?|?]|(e' & ? & ?)]; eauto.
      * right; exists x; split; [left | done].
      * right; exists e'; split; [by right | done].
    + intros [?|(e' & [->|?]%elem_of_cons & ?)]; eauto.
Qed.

Lemma collect_reduction_inames_spec knl :
  exists s, collect_reduction_inames knl = Ok s /\
            forall i, i ∈ s <-> insn_reduction_iname knl i.
Proof.
  destruct (fold_collects_insns (instructions knl) ∅) as (s & Hs & H).
  exists s; split; [exact Hs|]. intros i; rewrite H.
  unfold insn_reduction_iname; split; [|by right].
  intros [Hi|?]; [|done]. by apply not_elem_of_empty in Hi.
Qed.

Lemma tag_loop_spec knl l m :
  match fold_result (tag_step knl) l m with
  | Raise e =>
      exists i t, i ∈ l /\ iname_to_tag knl !! i = Some t /\
                  is_ParallelTag t = true /\
                  e = RuntimeError (parallel_tag_message i)
  | Ok m' =>
      (forall i t, i ∈ l -> iname_to_tag knl !! i = Some t ->
                   is_ParallelTag t = false) /\
      (forall i, m' !! i =
         if decide (i ∈ l /\ iname_to_tag knl !! i = None)
         then Some ForceSequentialTag else m !! i)
  end.
Proof.
  revert m; induction l as [|x l IH]; intros m; cbn [fold_result].
  - split; [intros i t Hi; by apply elem_of_nil in Hi|].
    intros i; case_decide as H; [|done].
    destruct H as [H _]; by apply elem_of_nil in H.
  - destruct (tag_step knl x m) as [m1|e1] eqn:E; unfold tag_step in E;
      destruct (iname_to_tag knl !! x) as [t|] eqn:Hx;
      [destruct (is_ParallelTag t) eqn:Ht| |destruct (is_ParallelTag t) eqn:Ht|];
      inversion E; subst; clear E.
    + rewrite bind_Ok. specialize (IH m1).
      destruct (fold_result (tag_step knl) l m1) as [m'|e].
      * destruct IH as [IH1 IH2]; split.
        -- intros i t' [->|Hi]%elem_of_cons Hi'; [congruence | eauto].
        -- intros i; rewrite IH2.
           destruct (decide (i ∈ l /\ iname_to_tag knl !! i = None))
             as [[Hi Hn]|Hno];
           destruct (decide (i ∈ x :: l /\ iname_to_tag knl !! i = None))
             as [[Hi' Hn']|Hno']; try done.
           ++ exfalso; apply Hno'; split; [by right | done].
           ++ apply elem_of_cons in Hi' as [->|Hi']; [congruence|].
              exfalso; by apply Hno.
      * destruct IH as (i & t' & Hi & ? & ? & ?).
        exists i, t'; repeat split; auto. by right.
    + rewrite bind_Ok. specialize (IH (<[x:=ForceSequentialTag]> m)).
      destruct (fold_result (tag_step knl) l _) as [m'|e].
      * destruct IH as [IH1 IH2]; split.
        -- intros i t' [->|Hi]%elem_of_cons Hi'; [congruence | eauto].
        -- intros i; rewrite IH2.
           destruct (decide (i ∈ l /\ iname_to_tag knl !! i = None))
             as [[Hi Hn]|Hno];
           destruct (decide (i ∈ x :: l /\ iname_to_tag knl !! i = None))
             as [[Hi' Hn']|Hno']; try done.
           ++ exfalso; apply Hno'; split; [by right | done].
           ++ apply elem_of_cons in Hi' as [->|Hi'].
              ** by rewrite lookup_insert_eq.
              ** exfalso; by apply Hno.
           ++ rewrite lookup_insert_ne; [done|].
              intros ->; apply Hno'; split; [by left | done].
      * destruct IH as (i & t' & Hi & ? & ? & ?).
        exists i, t'; repeat split; auto. by right.
    + rewrite bind_Raise.
      exists x, t; repeat split; auto. by left.
Qed.

(** The reduction-sequencing pass, on the reduction nodes it scans
    (those of the instructions' expressions): it raises a RuntimeError
    naming a reduction loop index that carries a parallel tag whenever one
    exists; otherwise its result is the single update [tag_inames knl
    new_tags] of the kernel it was given, where [new_tags] maps exactly the
    reduction loop indices that carry no tag to the forced-sequential tag.
    In that result every untagged reduction loop index is tagged forced
    sequential and every tag already present is unchanged.  The tags are
    read from the kernel the pass was given throughout the scan. *)
Lemma tag_reduction_inames_as_sequential_spec (knl : LoopKernel) :
  match tag_reduction_inames_as_sequential knl with
  | Raise e =>
      exists i t, insn_reduction_iname knl i /\
                  iname_to_tag knl !! i = Some t /\
                  is_ParallelTag t = true /\
                  e = RuntimeError (parallel_tag_message i)
  | Ok knl' =>
      (forall i t, insn_reduction_iname knl i ->
                   iname_to_tag knl !! i = Some t ->
                   is_ParallelTag t = false) /\
      (exists new_tags,
          knl' = tag_inames knl new_tags /\
          forall i t, new_tags !! i = Some t <->
                      t = ForceSequentialTag /\
                      insn_reduction_iname knl i /\
                      iname_to_tag knl !! i = None) /\
      (forall i, insn_reduction_iname knl i ->
                 iname_to_tag knl !! i = None ->
                 iname_to_tag knl' !! i = Some ForceSequentialTag) /\
      (forall i t, iname_to_tag knl !! i = Some t ->
                   iname_to_tag knl' !! i = Some t)
  end.
Proof.
  unfold tag_reduction_inames_as_sequential.
  destruct (collect_reduction_inames_spec knl) as (s & -> & Hs); simpl.
  pose proof (tag_loop_spec knl (elements s) ∅) as H.
  destruct (fold_result (tag_step knl) (elements s) ∅) as [m|e]; simpl.
  - destruct H as [H1 H2].
    assert (Hm : forall i t, m !! i = Some t <->
              t = ForceSequentialTag /\ insn_reduction_iname knl i /\
              iname_to_tag knl !! i = None).
    { intros i t; rewrite H2, <- Hs, <- elem_of_elements.
      case_decide as Hd; [|rewrite lookup_empty].
      - split; [intros [= <-]; tauto | intros (-> & _); done].
      - split; [done | intros (_ & ? & ?); tauto]. }
    split; [|split; [|split]].
    + intros i t Hi; apply H1. by rewrite elem_of_elements, Hs.
    + exists m; split; [done | exact Hm].
    + intros i Hi Hn; simpl.
      apply lookup_union_Some_raw; left. by apply Hm.
    + intros i t Hi; simpl.
      apply lookup_union_Some_raw; right; split; [|done].
      destruct (m !! i) as [t'|] eqn:Hmi; [|done].
      apply Hm in Hmi; destruct Hmi as (_ & _ & ?); congruence.
  - destruct H as (i & t & Hi & ? & ? & ?).
    exists i, t; repeat split; auto. by rewrite <- Hs, <- elem_of_elements.
Qed.

(* ===================================================================== *)
(** ** Checks that thread no state *)
(* ===================================================================== *)

(** A loop whose body either passes or raises [err] on the elements that
    satisfy [bad]: it passes when no element is bad, and raises [err]
    otherwise. *)
Lemma fold_check {A : Type} (f : A -> unit -> result unit)
    (bad : A -> Prop) (err : exn) (l : list A) :
  (forall x, x ∈ l ->
     (f x tt = Ok tt /\ ~ bad x) \/ (f x tt = Raise err /\ bad x)) ->
  (fold_result f l tt = Ok tt /\ forall x, x ∈ l -> ~ bad x) \/
  (fold_result f l tt = Raise err /\ exists x, x ∈ l /\ bad x).
Proof.
  induction l as [|x l IH]; intros H; cbn [fold_result].
  - left; split; [done|]. intros x Hx; by apply elem_of_nil in Hx.
  - destruct (H x) as [[-> Hx]|[-> Hx]]; [by left| |].
    + rewrite bind_Ok.
      destruct IH as [[-> Hl]|[-> (y & Hy & Hb)]].
      * intros y Hy; apply H; by right.
      * left; split; [done|].
        intros y [->|Hy]%elem_of_cons; [done | by apply Hl].
      * right; split; [done|]. exists y; split; [by right | done].
    + right; split; [done|]. exists x; split; [by left | done].
Qed.

(* ===================================================================== *)
(** ** Rejection of the legacy iname-duplication syntax *)
(* ===================================================================== *)

Lemma check_reduction_inames_spec op ins b rec :
  (check_reduction_inames op ins b rec tt = Ok tt /\
   forall i, i ∈ ins -> String.prefix "@" i <> true) \/
  (check_reduction_inames op ins b rec tt
     = Raise (RuntimeError duplication_message) /\
   exists i, i ∈ ins /\ String.prefix "@" i = true).
Proof.
  unfold check_reduction_inames.
  apply (fold_check _ (fun i => String.prefix "@" i = true)).
  intros i _. destruct (String.prefix "@" i); [right | left]; done.
Qed.

Lemma fold_rejects_or_passes es :
  Forall rejects_or_passes es ->
  (fold_result (ReductionCallbackMapper check_reduction_inames) es tt = Ok tt
   /\ forall e, e ∈ es -> ~ duplication_request e) \/
  (fold_result (ReductionCallbackMapper check_reduction_inames) es tt
     = Raise (RuntimeError duplication_message)
   /\ exists e, e ∈ es /\ duplication_request e).
Proof.
  intros H. apply fold_check. intros e He.
  rewrite Forall_forall in H. exact (H e He).
Qed.

Lemma duplication_request_list (es : list expr) e0 :
  (forall i, red_iname_in i e0 <-> exists e, e ∈ es /\ red_iname_in i e) ->
  duplication_request e0 <-> exists e, e ∈ es /\ duplication_request e.
Proof.
  intros H; unfold duplication_request; split.
  - intros (i & Hi & Hp). apply H in Hi as (e & He & Hi). eauto.
  - intros (e & He & i & Hi & Hp). exists i; split; [|done].
    apply H; eauto.
Qed.

Lemma ReductionCallbackMapper_rejects_or_passes e : rejects_or_passes e.
Proof.
  induction e as [n|z|es IH|es IH|a idx IHa IH|f ps IHf IH|op ins b IH|c p d IH]
    using expr_ind'; unfold rejects_or_passes;
    cbn [ReductionCallbackMapper].
  - left; split; [done|]. intros (i & Hi & _).
    by apply red_iname_in_Var in Hi.
  - left; split; [done|]. intros (i & Hi & _).
    by apply red_iname_in_Constant in Hi.
  - rewrite (duplication_request_list es);
      [| intros i; apply red_iname_in_Sum].
    destruct (fold_rejects_or_passes es IH) as [[-> H]|[-> H]];
      [left | right]; split; try done.
    intros (e & He & Hd); by apply (H e).
  - rewrite (duplication_request_list es);
      [| intros i; apply red_iname_in_Product].
    destruct (fold_rejects_or_passes es IH) as [[-> H]|[-> H]];
      [left | right]; split; try done.
    intros (e & He & Hd); by apply (H e).
  - destruct IHa as [[-> Ha]|[-> (i & Hi & Hp)]].
    + rewrite bind_Ok.
      destruct (fold_rejects_or_passes idx IH) as [[-> H]|[-> H]];
        [left | right]; split; try done.
      * intros (i & [Hi|(e & He & Hi)]%red_iname_in_Subscript & Hp).
        -- apply Ha; by exists i.
        -- apply (H e He); by exists i.
      * destruct H as (e & He & i & Hi & Hp). exists i; split; [|done].
        apply red_iname_in_Subscript; eauto.
    + right; split; [done|]. exists i; split; [|done].
      apply red_iname_in_Subscript; auto.
  - destruct IHf as [[-> Ha]|[-> (i & Hi & Hp)]].
    + rewrite bind_Ok.
      destruct (fold_rejects_or_passes ps IH) as [[-> H]|[-> H]];
        [left | right]; split; try done.
      * intros (i & [Hi|(e & He & Hi)]%red_iname_in_Call & Hp).
        -- apply Ha; by exists i.
        -- apply (H e He); by exists i.
      * destruct H as (e & He & i & Hi & Hp). exists i; split; [|done].
        apply red_iname_in_Call; eauto.
    + right; split; [done|]. exists i; split; [|done].
      apply red_iname_in_Call; auto.
  - destruct (check_reduction_inames_spec op ins b
                (ReductionCallbackMapper check_reduction_inames b))
      as [[-> Hins]|[-> (i & Hi & Hp)]].
    + rewrite bind_Ok.
      destruct IH as [[-> Hb]|[-> (i & Hi & Hp)]]; [left | right];
        split; try done.
      * intros (i & [Hi|Hi]%red_iname_in_Reduction & Hp).
        -- by apply (Hins i).
        -- apply Hb; by exists i.
      * exists i; split; [|done]. apply red_iname_in_Reduction; auto.
    + right; split; [done|]. exists i; split; [|done].
      apply red_iname_in_Reduction; auto.
  - destruct IH as [[-> Hc]|[-> (i & Hi & Hp)]]; [left | right];
      split; try done.
    + intros (i & Hi%red_iname_in_CSE & Hp). apply Hc; by exists i.
    + exists i; split; [|done]. by apply red_iname_in_CSE.
Qed.

(** The check, characterised: it raises exactly when some instruction's or
    some substitution rule's expression holds a duplication request. *)
Lemma check_for_reduction_inames_duplication_requests_spec knl :
  (check_for_reduction_inames_duplication_requests knl = Ok tt /\
   (forall insn, insn ∈ instructions knl ->
                 ~ duplication_request (expression insn)) /\
   (forall n rule, substitutions knl !! n = Some rule ->
                   ~ duplication_request (sr_expression rule))) \/
  (check_for_reduction_inames_duplication_requests knl
     = Raise (RuntimeError duplication_message) /\
   ((exists insn, insn ∈ instructions knl /\
                  duplication_request (expression insn)) \/
    (exists n rule, substitutions knl !! n = Some rule /\
                    duplication_request (sr_expression rule)))).
Proof.
  unfold check_for_reduction_inames_duplication_requests.
  destruct (fold_check
    (fun insn =>
       ReductionCallbackMapper check_reduction_inames (expression insn))
    (fun insn => duplication_request (expression insn))
    (RuntimeError duplication_message) (instructions knl))
    as [[-> Hi]|[-> Hi]].
  { intros x _; apply ReductionCallbackMapper_rejects_or_passes. }
  - rewrite bind_Ok.
    destruct (fold_check
      (fun sub : string * SubstitutionRule =>
         ReductionCallbackMapper check_reduction_inames
           (sr_expression (snd sub)))
      (fun sub => duplication_request (sr_expression (snd sub)))
      (RuntimeError duplication_message)
      (map_to_list (substitutions knl)))
      as [[-> Hs]|[-> Hs]].
    { intros x _; apply ReductionCallbackMapper_rejects_or_passes. }
    + left; repeat split; [done|].
      intros n rule Hn. apply (Hs (n, rule)).
      by apply elem_of_map_to_list.
    + right; split; [done|]. right.
      destruct Hs as ([n rule] & Hn & Hd). exists n, rule; split; [|done].
      by apply elem_of_map_to_list.
  - right; split; [done|]. by left.
Qed.

(** C10.  If a reduction node of some instruction's expression or of some
    substitution rule's expression names a loop index that begins with the
    character [@], the check raises its RuntimeError, and so the passes
    [make_kernel] runs on the constructed kernel end in an error. *)
Theorem duplication_request_fails_construction
    (find : LoopKernel -> list string -> list expr * list expr)
    (knl : LoopKernel) (i : string) :
  insn_reduction_iname knl i \/ subst_reduction_iname knl i ->
  String.prefix "@" i = true ->
  check_for_reduction_inames_duplication_requests knl
    = Raise (RuntimeError duplication_message) /\
  is_raise (make_kernel_passes find knl).
Proof.
  intros Hi Hp.
  assert (Hc : check_for_reduction_inames_duplication_requests knl
                 = Raise (RuntimeError duplication_message)).
  { destruct (check_for_reduction_inames_duplication_requests_spec knl)
      as [(_ & Hins & Hsub)|[H _]]; [exfalso | exact H].
    destruct Hi as [(insn & Hin & Hr)|(n & rule & Hn & Hr)].
    - apply (Hins insn Hin). by exists i.
    - apply (Hsub n rule Hn). by exists i. }
  split; [exact Hc|]. unfold make_kernel_passes.
  destruct (check_for_nonexistent_iname_deps knl) as [[]|e]; [|exact I].
  rewrite bind_Ok, Hc. exact I.
Qed.

Lemma duplication_request_fails_construction_witness :
  check_for_reduction_inames_duplication_requests knl_duplication
    = Raise (RuntimeError duplication_message) /\
  is_raise (make_kernel_passes no_shape knl_duplication).
Proof.
  apply (duplication_request_fails_construction no_shape knl_duplication "@j").
  - left. eexists; split; [apply list_elem_of_here|].
    exists "sum", ["@j"], (Subscript (Var "a") [Var "j"]).
    split; [apply subexpr_refl | apply list_elem_of_here].
  - reflexivity.
Defined.

(** The reduction-sequencing pass on sample kernels. *)
Example tag_reduction_untagged :
  exists knl', tag_reduction_inames_as_sequential knl_reduction = Ok knl' /\
               iname_to_tag knl' !! "j" = Some ForceSequentialTag /\
               iname_to_tag knl' !! "i" = None.
Proof. eexists; split; [vm_compute; reflexivity|]. split; reflexivity. Qed.

Example tag_reduction_parallel :
  tag_reduction_inames_as_sequential knl_reduction_parallel
  = Raise (RuntimeError (parallel_tag_message "j")).
Proof. vm_compute. reflexivity. Qed.

(** C2.  What the pass does on a kernel whose only reduction stands in a
    substitution rule, over a loop index tagged parallel: the rule's
    reduction index [j] is not collected, the pass does not raise, and the
    kernel comes back with its tags as they were.  (The sibling check
    [check_for_reduction_inames_duplication_requests] does walk the
    substitution rules.) *)
Theorem tag_reduction_skips_substitution_rules :
  subst_reduction_iname knl_rule_reduction "j" /\
  iname_to_tag knl_rule_reduction !! "j" = Some (ParallelTag "l.0") /\
  collect_reduction_inames knl_rule_reduction = Ok ∅ /\
  tag_reduction_inames_as_sequential knl_rule_reduction
    = Ok (tag_inames knl_rule_reduction ∅) /\
  iname_to_tag (tag_inames knl_rule_reduction ∅) !! "j"
    = Some (ParallelTag "l.0").
Proof.
  split; [|split; [|split; [|split]]].
  - exists "f", {| sr_name := "f"; sr_arguments := ["x"];
                   sr_expression :=
                     Product
                       [Reduction "sum" ["j"] (Subscript (Var "a") [Var "j"]);
                        Var "x"] |}.
    split; [reflexivity|].
    exists "sum", ["j"], (Subscript (Var "a") [Var "j"]).
    split; [|apply list_elem_of_here].
    eapply subexpr_Product; [apply list_elem_of_here | apply subexpr_refl].
  - reflexivity.
  - reflexivity.
  - reflexivity.
  - reflexivity.
Qed.

(** C1.  The two promises of the reduction-sequencing pass, on kernels
    whose only reduction stands in a substitution rule.  With the
    reduction loop index [j] untagged, the pass succeeds and [j] is still
    untagged in its result: it was not tagged forced sequential.  With [j]
    tagged parallel, the pass succeeds, where a reduction over a parallel
    loop index must be fatal.  (For the reduction nodes of the
    instructions' expressions both promises are kept, see the lemma on
    the pass above.) *)
Theorem tag_reduction_misses_rule_reduction_indices :
  (subst_reduction_iname knl_rule_reduction_untagged "j" /\
   iname_to_tag knl_rule_reduction_untagged !! "j" = None /\
   exists knl',
     tag_reduction_inames_as_sequential knl_rule_reduction_untagged
       = Ok knl' /\
     iname_to_tag knl' !! "j" = None /\
     iname_to_tag knl' = iname_to_tag knl_rule_reduction_untagged) /\
  (subst_reduction_iname knl_rule_reduction "j" /\
   (exists t, iname_to_tag knl_rule_reduction !! "j" = Some t /\
              is_ParallelTag t = true) /\
   exists knl', tag_reduction_inames_as_sequential knl_rule_reduction
                = Ok knl').
Proof.
  assert (Hrule : forall tags,
            subst_reduction_iname
              {| domains := domains knl_rule_reduction;
                 iname_to_tag := tags;
                 instructions := instructions knl_rule_reduction;
                 args := args knl_rule_reduction;
                 temporary_variables :=
                   temporary_variables knl_rule_reduction;
                 substitutions := substitutions knl_rule_reduction |} "j").
  { intros tags.
    exists "f", {| sr_name := "f"; sr_arguments := ["x"];
                   sr_expression :=
                     Product
                       [Reduction "sum" ["j"] (Subscript (Var "a") [Var "j"]);
                        Var "x"] |}.
    split; [reflexivity|].
    exists "sum", ["j"], (Subscript (Var "a") [Var "j"]).
    split; [|apply list_elem_of_here].
    eapply subexpr_Product; [apply list_elem_of_here | apply subexpr_refl]. }
  split.
  - split; [apply (Hrule ∅)|]. split; [reflexivity|].
    eexists. split; [vm_compute; reflexivity|]. split; reflexivity.
  - split; [apply (Hrule {["j" := ParallelTag "l.0"]})|]. split.
    + exists (ParallelTag "l.0"). split; reflexivity.
    + eexists. vm_compute. reflexivity.
Qed.

(* ===================================================================== *)
(** ** Single writer of a data-dependent loop bound *)
(* ===================================================================== *)

Lemma fold_check_dep {A : Type} (f : A -> unit -> result unit)
    (bad : A -> Prop) (err : A -> exn) (l : list A) :
  (forall x, x ∈ l ->
     (f x tt = Ok tt /\ ~ bad x) \/ (f x tt = Raise (err x) /\ bad x)) ->
  (fold_result f l tt = Ok tt /\ forall x, x ∈ l -> ~ bad x) \/
  (exists x, x ∈ l /\ bad x /\ fold_result f l tt = Raise (err x)).
Proof.
  induction l as [|x l IH]; intros H; cbn [fold_result].
  - left; split; [done|]. intros x Hx; by apply elem_of_nil in Hx.
  - destruct (H x) as [[-> Hx]|[-> Hx]]; [by left| |].
    + rewrite bind_Ok.
      destruct IH as [[-> Hl]|(y & Hy & Hb & ->)].
      * intros y Hy; apply H; by right.
      * left; split; [done|].
        intros y [->|Hy]%elem_of_cons; [done | by apply Hl].
      * right. exists y; split; [by right | done].
    + right. exists x; split; [by left | done].
Qed.

(** C4.  The single-writer check over the temporaries that are also
    parameters of some domain: it succeeds exactly when each of them is
    written by one instruction, and otherwise raises the RuntimeError that
    names such a temporary whose number of writers, zero or at least two,
    is not one. *)
Theorem check_for_multiple_writes_to_loop_bounds_spec (knl : LoopKernel) :
  match check_for_multiple_writes_to_loop_bounds knl with
  | Ok _ =>
      forall tvpar, tvpar ∈ temp_var_domain_parameters knl ->
                    length (writer_map knl tvpar) = 1
  | Raise e =>
      exists tvpar,
        tvpar ∈ temp_var_domain_parameters knl /\
        (length (writer_map knl tvpar) = 0 \/
         2 <= length (writer_map knl tvpar)) /\
        e = RuntimeError
              (multiple_writes_message tvpar (length (writer_map knl tvpar)))
  end.
Proof.
  unfold check_for_multiple_writes_to_loop_bounds.
  destruct (fold_check_dep
    (fun tvpar (_ : unit) =>
       if decide (length (writer_map knl tvpar) ≠ 1)
       then Raise (RuntimeError
              (multiple_writes_message tvpar (length (writer_map knl tvpar))))
       else Ok tt)
    (fun tvpar => length (writer_map knl tvpar) ≠ 1)
    (fun tvpar => RuntimeError
       (multiple_writes_message tvpar (length (writer_map knl tvpar))))
    (elements (temp_var_domain_parameters knl)))
    as [[-> H]|(x & Hx & Hb & ->)].
  - intros x _. case_decide; [right | left]; split; auto.
  - intros tvpar Hin.
    destruct (decide (length (writer_map knl tvpar) = 1)) as [|Hne];
      [done|]. exfalso. apply (H tvpar); [|done].
    by apply elem_of_elements.
  - exists x; split; [by apply elem_of_elements|]. split; [lia | done].
Qed.

(** The temporary [m] of [knl_bound] is written once, never, or twice. *)
Example single_writer_one :
  check_for_multiple_writes_to_loop_bounds
    (knl_bound [plain_insn "w0" (LVariable "m") (Var "n")]) = Ok tt.
Proof. vm_compute. reflexivity. Qed.

Example single_writer_zero :
  check_for_multiple_writes_to_loop_bounds (knl_bound [])
  = Raise (RuntimeError (multiple_writes_message "m" 0)).
Proof. vm_compute. reflexivity. Qed.

Example single_writer_two :
  check_for_multiple_writes_to_loop_bounds
    (knl_bound [plain_insn "w0" (LVariable "m") (Var "n");
                plain_insn "w1" (LVariable "m") (Constant 3)])
  = Raise (RuntimeError (multiple_writes_message "m" 2)).
Proof. vm_compute. reflexivity. Qed.

(* ===================================================================== *)
(** ** Temporary-variable synthesis *)
(* ===================================================================== *)

Lemma assignee_index_loop knl name idx acc :
  fold_result (assignee_index_step knl name) idx acc =
  if forallb (is_plain_iname knl) idx
  then Ok (acc ++ map index_name idx)%list
  else Raise (RuntimeError (plain_inames_message name)).
Proof.
  revert acc; induction idx as [|e idx IH]; intros acc; cbn [fold_result].
  - simpl. by rewrite app_nil_r.
  - cbn [forallb map].
    destruct e as [n| | | | | | |]; cbn [assignee_index_step is_plain_iname];
      try (rewrite bind_Raise; reflexivity).
    destruct (decide (n ∈ all_inames knl)) as [Hn|Hn].
    + rewrite bool_decide_eq_true_2 by done. rewrite bind_Ok, IH.
      cbn [andb index_name]. by rewrite <- app_assoc.
    + rewrite bool_decide_eq_false_2 by done. by rewrite bind_Raise.
Qed.

Lemma create_temporaries_step_declared find knl insn declared ni tvs :
  temp_var_type insn = Some declared ->
  (acceptable knl insn tvs /\
   exists tv,
     create_temporaries_step find knl insn (ni, tvs)
       = Ok ((ni ++ [with_temp_var_type insn None])%list,
             <[get_assignee_var_name insn := tv]> tvs) /\
     tv_name tv = get_assignee_var_name insn /\
     tv_dtype tv = declared) \/
  (~ acceptable knl insn tvs /\
   exists msg,
     create_temporaries_step find knl insn (ni, tvs)
       = Raise (RuntimeError msg)).
Proof.
  intros Hd. unfold create_temporaries_step, acceptable. rewrite Hd.
  rewrite assignee_index_loop.
  destruct (forallb _ _) eqn:Hidx.
  - rewrite bind_Ok.
    destruct (find knl _) as [base_indices shape].
    destruct (decide (is_Some (tvs !! get_assignee_var_name insn)))
      as [Ht|Ht].
    { right; split; [|eauto]. intros (_ & Hn & _).
      rewrite Hn in Ht. by destruct Ht. }
    destruct (decide (is_Some (arg_dict knl !! get_assignee_var_name insn)))
      as [Ha|Ha].
    { right; split; [|eauto]. intros (_ & _ & Hn).
      rewrite Hn in Ha. by destruct Ha. }
    left. split.
    + repeat split; [by apply eq_None_not_Some..].
    + eexists; split; [reflexivity|]. split; reflexivity.
  - rewrite bind_Raise. right; split; [|eauto]. intros (? & _); congruence.
Qed.

Lemma create_temporaries_step_undeclared find knl insn ni tvs :
  temp_var_type insn = None ->
  create_temporaries_step find knl insn (ni, tvs)
  = Ok ((ni ++ [insn])%list, tvs).
Proof. intros Hd. unfold create_temporaries_step. by rewrite Hd. Qed.

Lemma temp_var_type_clear_declared insn :
  temp_var_type (clear_declared insn) = None.
Proof.
  unfold clear_declared. by destruct (temp_var_type insn) eqn:H.
Qed.

Lemma create_temporaries_loop find knl l ni tvs :
  match fold_result (create_temporaries_step find knl) l (ni, tvs) with
  | Raise e => exists msg, e = RuntimeError msg
  | Ok (ni', tvs') =>
      ni' = (ni ++ map clear_declared l)%list /\
      tvs ⊆ tvs' /\
      forall insn declared,
        insn ∈ l -> temp_var_type insn = Some declared ->
        forallb (is_plain_iname knl) (get_assignee_indices insn) = true /\
        tvs !! get_assignee_var_name insn = None /\
        arg_dict knl !! get_assignee_var_name insn = None /\
        exists tv, tvs' !! get_assignee_var_name insn = Some tv /\
                   tv_name tv = get_assignee_var_name insn /\
                   tv_dtype tv = declared
  end.
Proof.
  revert ni tvs; induction l as [|insn l IH]; intros ni tvs;
    cbn [fold_result].
  - rewrite bind_Ok || idtac. split; [by rewrite app_nil_r|].
    split; [done|]. intros insn d Hin; by apply elem_of_nil in Hin.
  - destruct (temp_var_type insn) as [declared|] eqn:Hd.
    + destruct (create_temporaries_step_declared find knl insn declared
                  ni tvs Hd) as [[Hacc (tv & -> & Hname & Hty)]|[_ (msg & ->)]].
      * rewrite bind_Ok.
        specialize (IH (ni ++ [with_temp_var_type insn None])%list
                       (<[get_assignee_var_name insn := tv]> tvs)).
        destruct (fold_result _ l _) as [[ni' tvs']|e]; [|exact IH].
        destruct IH as (-> & Hsub & Hall).
        destruct Hacc as (Hidx & Hnone & Harg).
        assert (Hsub' : tvs ⊆ tvs').
        { etrans; [|exact Hsub]. by apply insert_subseteq. }
        split; [|split; [exact Hsub'|]].
        -- cbn [map]. unfold clear_declared at 2. rewrite Hd.
           by rewrite <- app_assoc.
        -- intros insn' d' [->|Hin]%elem_of_cons Hd'.
           ++ rewrite Hd in Hd'; injection Hd' as <-.
              repeat split; try done.
              exists tv; split; [|done].
              eapply lookup_weaken; [|exact Hsub].
              apply lookup_insert_eq.
           ++ destruct (Hall insn' d' Hin Hd') as (? & Hn & ? & ?).
              repeat split; try done.
              destruct (tvs !! get_assignee_var_name insn') as [x|] eqn:Hx;
                [|done].
              eapply lookup_weaken in Hx; [|by apply insert_subseteq].
              rewrite Hx in Hn. discriminate.
      * rewrite bind_Raise. eauto.
    + rewrite (create_temporaries_step_undeclared find knl insn ni tvs Hd),
        bind_Ok.
      specialize (IH (ni ++ [insn])%list tvs).
      destruct (fold_result _ l _) as [[ni' tvs']|e]; [|exact IH].
      destruct IH as (-> & Hsub & Hall).
      split; [|split; [exact Hsub|]].
      * cbn [map]. unfold clear_declared at 2. rewrite Hd.
        by rewrite <- app_assoc.
      * intros insn' d' [->|Hin]%elem_of_cons Hd'; [congruence|].
        by apply Hall.
Qed.




Example create_temporaries_accepts :
  exists knl',
    create_temporaries no_shape (knl_declare (LSubscript "tmp" [Var "i"]))
      = Ok knl' /\
    map temp_var_type (instructions knl') = [None; None] /\
    tv_dtype <$> temporary_variables knl' !! "tmp"
      = Some (np_dtype "float64").
Proof. eexists; split; [vm_compute; reflexivity|]. split; reflexivity. Qed.

Example create_temporaries_rejects_arithmetic_index :
  create_temporaries no_shape
    (knl_declare (LSubscript "tmp" [Sum [Var "i"; Constant 1]]))
  = Raise (RuntimeError (plain_inames_message "tmp")).
Proof. vm_compute. reflexivity. Qed.

Example create_temporaries_rejects_argument_index :
  create_temporaries no_shape (knl_declare (LSubscript "tmp" [Var "n"]))
  = Raise (RuntimeError (plain_inames_message "tmp")).
Proof. vm_compute. reflexivity. Qed.

Example create_temporaries_rejects_argument :
  create_temporaries no_shape (knl_declare (LVariable "a"))
  = Raise (RuntimeError (already_exists_as_argument_message "a")).
Proof. vm_compute. reflexivity. Qed.

Example create_temporaries_rejects_second_declaration :
  create_temporaries no_shape knl_declare_twice
  = Raise (RuntimeError (already_exists_message "tmp")).
Proof. vm_compute. reflexivity. Qed.

(* ===================================================================== *)
(** ** Type inference of the tuple-packing callable *)
(* ===================================================================== *)

Lemma with_types_loop (m : gmap arg_id (option string)) (n : nat) :
  exists new,
    fold_result (with_types_step m) (seq 0 n) m = Ok new /\
    (forall k, argument_key k -> new !! k = m !! k) /\
    (forall (i : nat) t,
        i < n -> m !! (inl (Z.of_nat i) : arg_id) = Some (Some t) ->
        new !! (inl (- Z.of_nat i - 1)%Z : arg_id) = Some (Some t)).
Proof.
  induction n as [|n (new & Hf & Hkeep & Hres)].
  - exists m; split; [done|]. split; [done | lia].
  - rewrite seq_S, fold_result_app, Hf, bind_Ok. cbn [fold_result plus].
    unfold with_types_step.
    destruct (m !! (inl (Z.of_nat n) : arg_id)) as [[t|]|] eqn:Hn.
    + rewrite (Hkeep (inl (Z.of_nat n))) by (simpl; lia).
      rewrite Hn, !bind_Ok.
      eexists; split; [reflexivity|]. split.
      * intros k Hk. rewrite lookup_insert_ne; [by apply Hkeep|].
        intros <-; simpl in Hk; lia.
      * intros i t' Hi Hm. destruct (decide (i = n)) as [->|Hne].
        -- rewrite lookup_insert_eq. congruence.
        -- rewrite lookup_insert_ne; [apply Hres; [lia | done]|].
           intros [=]; lia.
    + rewrite bind_Ok. exists new; split; [done|]. split; [done|].
      intros i t' Hi Hm. destruct (decide (i = n)) as [->|Hne];
        [congruence | apply Hres; [lia | done]].
    + rewrite bind_Ok. exists new; split; [done|]. split; [done|].
      intros i t' Hi Hm. destruct (decide (i = n)) as [->|Hne];
        [congruence | apply Hres; [lia | done]].
Qed.

(** C9, as the code has it.  The type-inference operation of the
    tuple-packing callable returns a mapping; for every argument position
    [i] below the number of entries of the input mapping whose type is
    known, the returned mapping gives that type to the result position
    [-i-1]; every entry under a keyword or a non-negative position is as in
    the input. *)
Theorem MakeTupleCallable_with_types_spec {Info : Type}
    (self : ScalarCallable) (arg_id_to_dtype : gmap arg_id (option string))
    (program_callables_info : Info) :
  exists new,
    MakeTupleCallable_with_types self arg_id_to_dtype program_callables_info
      = Ok ({| sc_name := sc_name self;
               sc_name_in_target := Some "loopy_make_tuple";
               sc_arg_id_to_dtype := Some new |},
            program_callables_info) /\
    (forall (i : nat) t,
        i < size arg_id_to_dtype ->
        arg_id_to_dtype !! (inl (Z.of_nat i) : arg_id) = Some (Some t) ->
        new !! (inl (- Z.of_nat i - 1)%Z : arg_id) = Some (Some t)) /\
    (forall k, argument_key k -> new !! k = arg_id_to_dtype !! k).
Proof.
  destruct (with_types_loop arg_id_to_dtype (size arg_id_to_dtype))
    as (new & Hf & Hkeep & Hres).
  exists new. unfold MakeTupleCallable_with_types, MakeTupleCallable_types.
  rewrite Hf, bind_Ok. repeat split; done.
Qed.

Lemma with_types_misses_position_after_gap :
  ~ mirrors_every_known_position types_with_gap.
Proof.
  intros H. destruct (H 1 "float64") as (new & Hnew & Hl); [reflexivity|].
  vm_compute in Hnew. injection Hnew as <-. vm_compute in Hl. discriminate.
Qed.

Example with_types_contiguous :
  exists new,
    MakeTupleCallable_types
      (<[(inl 0%Z : arg_id) := Some "int32"]>
         (<[(inl 1%Z : arg_id) := None]>
            {[ (inl 2%Z : arg_id) := Some "float64" ]})) = Ok new /\
    new !! (inl (-1)%Z : arg_id) = Some (Some "int32") /\
    new !! (inl (-2)%Z : arg_id) = None /\
    new !! (inl (-3)%Z : arg_id) = Some (Some "float64").
Proof. eexists; split; [vm_compute; reflexivity|]. repeat split. Qed.

(* ===================================================================== *)
(** ** Macro expansion over raw text *)
(* ===================================================================== *)

Lemma expand_match_extends defines sv mk w reps reps' :
  expand_match defines sv mk w reps = Ok reps' ->
  Forall (extends reps (defined_words defines [w]) mk) reps'.
Proof.
  unfold expand_match, defined_words. rewrite Forall_forall.
  destruct (defines !! w) as [[v|vs]|] eqn:Hw.
  - intros [= <-] rep' (rep & -> & Hin)%list_elem_of_fmap.
    exists rep, [(mk w, v)]. split; [done|]. split; [done|].
    rewrite filter_cons_True by (by rewrite Hw). done.
  - destruct sv; [discriminate|].
    intros [= <-] rep' Hin. apply list_elem_of_In, in_flat_map in Hin.
    destruct Hin as (rep & Hrep & Hin). apply in_map_iff in Hin.
    destruct Hin as (subval & <- & _).
    exists rep, [(mk w, subval)]. split; [by apply list_elem_of_In|].
    split; [done|].
    rewrite filter_cons_True by (by rewrite Hw). done.
  - intros [= <-] rep' Hin. exists rep', []. split; [done|].
    split; [by rewrite app_nil_r|].
    rewrite filter_cons_False by (rewrite Hw; by intros [? ?]). done.
Qed.

Lemma defined_words_cons defines w ws :
  defined_words defines (w :: ws)
  = (defined_words defines [w] ++ defined_words defines ws)%list.
Proof. unfold defined_words. by rewrite <- filter_app. Qed.

Lemma expand_match_fold_extends defines sv mk ws reps reps' :
  fold_result (expand_match defines sv mk) ws reps = Ok reps' ->
  Forall (extends reps (defined_words defines ws) mk) reps'.
Proof.
  revert reps; induction ws as [|w ws IH]; intros reps; cbn [fold_result].
  - intros [= <-]. rewrite Forall_forall. intros rep Hin.
    exists rep, []. split; [done|]. split; [by rewrite app_nil_r | done].
  - intros (reps1 & H1 & H2)%bind_ok_inv.
    apply expand_match_extends in H1. apply IH in H2.
    rewrite Forall_forall in *. intros rep' Hin.
    destruct (H2 rep' Hin) as (rep1 & ext2 & Hin1 & -> & Hext2).
    destruct (H1 rep1 Hin1) as (rep & ext1 & Hin0 & -> & Hext1).
    exists rep, (ext1 ++ ext2)%list. split; [done|].
    split; [by rewrite app_assoc|].
    by rewrite defined_words_cons, !map_app, Hext1, Hext2.
Qed.

Lemma apply_replacements_app r1 r2 s :
  apply_replacements (r1 ++ r2) s
  = apply_replacements r2 (apply_replacements r1 s).
Proof. unfold apply_replacements. apply fold_left_app. Qed.

(** C7, as the code has it.  Every replacement tuple of an expansion is the
    bracketed-form replacements, one per bracketed match that names a
    macro and in order of occurrence, followed by the bare-identifier
    replacements, likewise; each yielded string is the text after the
    bracketed substitutions and then the bare ones, each applied to the
    whole running text.  A value put in by a bare-identifier substitution
    is therefore never read by a bracketed-form one. *)
Theorem expand_defines_brackets_first (insn : string)
    (defines : gmap string define_value) (single_valued : bool) :
  match expand_defines insn defines single_valued with
  | Raise _ => True
  | Ok expansions =>
      exists replacements,
        expand_replacements insn defines single_valued = Ok replacements /\
        expansions = map (fun rep => apply_replacements rep insn)
                         replacements /\
        Forall
          (fun rep =>
             exists braces words,
               rep = (braces ++ words)%list /\
               map fst braces
                 = map BracePattern
                     (defined_words defines (BRACE_RE_finditer insn)) /\
               map fst words
                 = map WordPattern
                     (defined_words defines (WORD_RE_finditer insn)) /\
               apply_replacements rep insn
                 = apply_replacements words
                     (apply_replacements braces insn))
          replacements
  end.
Proof.
  unfold expand_defines.
  destruct (expand_replacements insn defines single_valued)
    as [reps|e] eqn:Hr; [rewrite bind_Ok | by rewrite bind_Raise].
  exists reps. split; [done|]. split; [done|].
  unfold expand_replacements in Hr.
  apply bind_ok_inv in Hr as (reps1 & H1 & H2).
  apply expand_match_fold_extends in H1, H2.
  rewrite Forall_forall in *. intros rep Hin.
  destruct (H2 rep Hin) as (rep1 & words & Hin1 & -> & Hwords).
  destruct (H1 rep1 Hin1) as (rep0 & braces & Hin0 & -> & Hbraces).
  apply list_elem_of_singleton in Hin0 as ->.
  exists braces, words. repeat split; try done.
  apply apply_replacements_app.
Qed.

Lemma string_length_app (s1 s2 : string) :
  String.length (s1 +:+ s2) = String.length s1 + String.length s2.
Proof. induction s1 as [|c s1 IH]; simpl; [done | by rewrite IH]. Qed.

(** With [a = ${b}] and [b = X], the text [${a}${b}] expands to [XX]: the
    value of [a] was read again as a placeholder. *)
Lemma bracket_value_reinterpreted :
  ~ bracket_values_not_reinterpreted "${a}${b}" defines_nested.
Proof.
  intros H.
  destruct (H "a" "${b}" "XX") as (pre & post & Heq).
  - vm_compute. apply list_elem_of_here.
  - reflexivity.
  - vm_compute. reflexivity.
  - apply (f_equal String.length) in Heq.
    rewrite !string_length_app in Heq. simpl in Heq. lia.
Qed.

(** C8.  The text [${a} ${b}] with [a] a list of 2 values and [b] a list of
    3, in multi-valued mode: each bracketed name is matched a second time
    by the bare-identifier expression, so the expansion forks four times
    and yields 36 strings, each of the 6 combinations 6 times.  The same
    placeholders written bare, [a b], yield the 6 combinations once
    each. *)
Theorem expand_defines_bracketed_cardinality :
  BRACE_RE_finditer "${a} ${b}" = ["a"; "b"] /\
  WORD_RE_finditer "${a} ${b}" = ["a"; "b"] /\
  (exists expansions,
      expand_defines "${a} ${b}" defines_2_3 false = Ok expansions /\
      length expansions = 36 /\
      expansions
      = flat_map (replicate 6) ["1 x"; "1 y"; "1 z"; "2 x"; "2 y"; "2 z"]) /\
  expand_defines "a b" defines_2_3 false
  = Ok ["1 x"; "1 y"; "1 z"; "2 x"; "2 y"; "2 z"].
Proof.
  split; [reflexivity|]. split; [reflexivity|]. split.
  - eexists; split; [vm_compute; reflexivity|]. split; reflexivity.
  - vm_compute. reflexivity.
Qed.

(* ===================================================================== *)
(** ** Domain parsing *)
(* ===================================================================== *)

Lemma union_swap (A B U : gset string) : A ∪ (B ∪ U) = B ∪ A ∪ U.
Proof. by rewrite (assoc_L (∪)), (comm_L (∪) A B). Qed.





Lemma dim_loop d dims i used avail :
  match fold_result (dim_step d) dims (i, used, avail) with
  | Ok (i', used', avail') =>
      exists names,
        dims = map Some names /\ NoDup names /\
        (forall n, n ∈ names -> n ∉ used) /\
        used' = list_to_set names ∪ used /\
        avail' = list_to_set names ∪ avail
  | Raise e =>
      (exists k, e = RuntimeError (no_iname_message d k) /\ None ∈ dims) \/
      (exists n, e = RuntimeError (redefines_message d n) /\ Some n ∈ dims)
  end.
Proof.
  revert i used avail; induction dims as [|x dims IH]; intros i used avail;
    cbn [fold_result].
  - exists []. repeat split; try done.
    + constructor.
    + intros n Hn; by apply elem_of_nil in Hn.
    + simpl. by rewrite (left_id_L ∅ (∪)).
    + simpl. by rewrite (left_id_L ∅ (∪)).
  - destruct x as [n|]; cbn [dim_step].
    + destruct (decide (n ∈ used)) as [Hn|Hn].
      * rewrite bind_Raise. right. exists n; split; [done | by left].
      * rewrite bind_Ok.
        specialize (IH (S i) ({[n]} ∪ used) ({[n]} ∪ avail)).
        destruct (fold_result _ dims _) as [[[i' used'] avail']|e].
        -- destruct IH as (names & -> & Hnd & Hfresh & -> & ->).
           exists (n :: names). split; [done|]. split.
           { constructor; [|done]. intros Hin.
             apply (Hfresh n Hin), elem_of_union_l.
             by apply elem_of_singleton. }
           split.
           { intros m [->|Hm]%elem_of_cons; [done|].
             intros Hu. apply (Hfresh m Hm). by apply elem_of_union_r. }
           cbn [list_to_set foldr]. split.
           ++ rewrite (assoc_L (∪)).
              by rewrite (comm_L (∪) (list_to_set names) {[n]}).
           ++ rewrite (assoc_L (∪)).
              by rewrite (comm_L (∪) (list_to_set names) {[n]}).
        -- destruct IH as [(k & -> & Hk)|(m & -> & Hm)].
           ++ left. exists k; split; [done | by right].
           ++ right. exists m; split; [done | by right].
    + rewrite bind_Raise. left. exists i; split; [done | by left].
Qed.

(** The loop body, once the element is resolved to the set [d]. *)
Lemma parse_domain_step_resolved read defines dom res avail used d :
  resolve_domain read defines dom avail = Ok d ->
  match parse_domain_step read defines dom (res, avail, used) with
  | Ok (res', avail', used') =>
      exists names,
        bs_set_dims d = map Some names /\ NoDup names /\
        (forall n, n ∈ names -> n ∉ used) /\
        res' = (res ++ [d])%list /\
        used' = list_to_set names ∪ used /\
        avail' = list_to_set names ∪ avail
  | Raise e =>
      (exists k, e = RuntimeError (no_iname_message d k) /\
                 None ∈ bs_set_dims d) \/
      (exists n, e = RuntimeError (redefines_message d n) /\
                 Some n ∈ bs_set_dims d)
  end.
Proof.
  intros Hr. unfold parse_domain_step. rewrite Hr, bind_Ok.
  pose proof (dim_loop d (bs_set_dims d) 0 used avail) as H.
  destruct (fold_result _ _ _) as [[[i' used'] avail']|e];
    [rewrite bind_Ok | by rewrite bind_Raise].
  destruct H as (names & ? & ? & ? & ? & ?). exists names. by repeat split.
Qed.






Example parse_domains_accepts_forward_reference :
  parse_domains no_parser ∅ {["n"]}
    [DomainSet dom_i_upto_j; DomainSet dom_j]
  = Ok [dom_i_upto_j; dom_j].
Proof. vm_compute. reflexivity. Qed.

Example parse_domains_redefinition :
  parse_domains no_parser ∅ {["n"]} [DomainSet dom_j; DomainSet dom_j]
  = Raise (RuntimeError (redefines_message dom_j "j")).
Proof. vm_compute. reflexivity. Qed.

(* ===================================================================== *)
(** ** Unique name generation *)
(* ===================================================================== *)

Lemma generate_unique_possibilities_inj prefix i j :
  generate_unique_possibilities prefix i
  = generate_unique_possibilities prefix j -> i = j.
Proof.
  assert (Hne : forall n : nat, prefix <> prefix +:+ "_" +:+ pretty n).
  { intros n H. apply (f_equal String.length) in H.
    rewrite !string_length_app in H. simpl in H. lia. }
  destruct i as [|i], j as [|j]; cbn [generate_unique_possibilities];
    intros H.
  - done.
  - by apply Hne in H.
  - symmetry in H. by apply Hne in H.
  - apply (inj (String.app prefix)) in H.
    apply (inj (String.app "_")) in H.
    apply (inj (pretty : nat -> string)) in H. by subst.
Qed.

Lemma conflicting_candidates_bound (X : gset string) prefix n :
  (forall j, j < n -> generate_unique_possibilities prefix j ∈ X) ->
  n <= size X.
Proof.
  intros H.
  set (l := map (generate_unique_possibilities prefix) (seq 0 n)).
  assert (Hnd : NoDup l).
  { apply NoDup_fmap_2; [|apply NoDup_seq].
    intros i j. apply generate_unique_possibilities_inj. }
  assert (Hsub : (list_to_set l : gset string) ⊆ X).
  { intros x Hx. apply elem_of_list_to_set in Hx.
    apply list_elem_of_fmap in Hx as (j & -> & Hj).
    apply H. apply elem_of_seq in Hj. lia. }
  apply subseteq_size in Hsub.
  rewrite size_list_to_set in Hsub by done.
  unfold l in Hsub. by rewrite length_map, length_seq in Hsub.
Qed.

(** The search returns the first candidate that does not conflict: the
    result of the source's unbounded loop. *)
Lemma first_nonconflicting_spec (X : gset string) prefix fuel k :
  (forall j, j < k -> generate_unique_possibilities prefix j ∈ X) ->
  size X <= k + fuel ->
  exists j,
    first_nonconflicting (fun n => bool_decide (n ∈ X)) prefix k fuel
      = generate_unique_possibilities prefix j /\
    (generate_unique_possibilities prefix j ∉ X) /\
    forall i, i < j -> generate_unique_possibilities prefix i ∈ X.
Proof.
  revert k; induction fuel as [|fuel IH]; intros k Hbelow Hsize;
    cbn [first_nonconflicting].
  - exists k. split; [done|]. split; [|done]. intros Hk.
    assert (S k <= size X); [|lia].
    apply (conflicting_candidates_bound X prefix).
    intros j Hj. destruct (decide (j = k)) as [->|]; [done|].
    apply Hbelow; lia.
  - destruct (decide (generate_unique_possibilities prefix k ∈ X))
      as [Hk|Hk].
    + rewrite bool_decide_eq_true_2 by done.
      apply IH; [|lia].
      intros j Hj. destruct (decide (j = k)) as [->|]; [done|].
      apply Hbelow; lia.
    + rewrite bool_decide_eq_false_2 by done. exists k. by repeat split.
Qed.

Lemma unique_name_spec (X : gset string) based_on :
  exists j,
    unique_name X based_on = generate_unique_possibilities based_on j /\
    (unique_name X based_on ∉ X) /\
    forall i, i < j -> generate_unique_possibilities based_on i ∈ X.
Proof.
  destruct (first_nonconflicting_spec X based_on (size X) 0)
    as (j & Hj & Hfresh & Hfirst); [lia | lia |].
  exists j. unfold unique_name. rewrite Hj. by repeat split.
Qed.

Lemma unique_name_fresh (X : gset string) based_on :
  unique_name X based_on ∉ X.
Proof. by destruct (unique_name_spec X based_on) as (j & _ & H & _). Qed.

(* ===================================================================== *)
(** ** Common-subexpression flattening *)
(* ===================================================================== *)

Lemma memo_lookup_app k D M :
  memo_lookup k (D ++ M) =
  match memo_lookup k D with Some v => Some v | None => memo_lookup k M end.
Proof.
  induction D as [|[k' v] D IH]; cbn [memo_lookup app]; [done|].
  by destruct (decide (k = k')).
Qed.

Lemma memo_lookup_None_keys k D :
  memo_lookup k D = None <-> k ∉ map fst D.
Proof.
  induction D as [|[k' v] D IH]; cbn [memo_lookup map fst].
  - split; [intros _ H; by apply elem_of_nil in H | done].
  - destruct (decide (k = k')) as [->|Hne].
    + split; [done|]. intros H; exfalso; apply H; by left.
    + rewrite IH. split.
      * intros H [->|Hin]%elem_of_cons; [done | by apply H].
      * intros H Hin; apply H; by right.
Qed.

Lemma memo_lookup_Some_elem k v D :
  memo_lookup k D = Some v -> (k, v) ∈ D.
Proof.
  induction D as [|[k' v'] D IH]; cbn [memo_lookup]; [done|].
  destruct (decide (k = k')) as [->|Hne].
  - intros [= ->]. by left.
  - intros H. right. by apply IH.
Qed.

(** One more memo entry, for an inner expression whose image is not a bare
    variable, changes neither the image nor the settledness of a settled
    tree. *)
Lemma memoize_stable M c v x :
  memo_lookup c M = None ->
  is_Variable (cse_image M c) = false ->
  settled M x = true ->
  settled ((c, v) :: M) x = true /\
  cse_image ((c, v) :: M) x = cse_image M x.
Proof.
  intros Hc Hnv.
  assert (Hlist : forall es,
    Forall (fun x => settled M x = true ->
              settled ((c, v) :: M) x = true /\
              cse_image ((c, v) :: M) x = cse_image M x) es ->
    forallb (settled M) es = true ->
    forallb (settled ((c, v) :: M)) es = true /\
    map (cse_image ((c, v) :: M)) es = map (cse_image M) es).
  { induction 1 as [|e es He _ IH]; cbn [forallb map]; [done|].
    intros [H1 H2]%andb_prop. destruct (He H1) as [-> ->].
    destruct (IH H2) as [-> ->]. done. }
  induction x as [n|z|es IH|es IH|a idx IHa IH|f ps IHf IH|op ins b IH|c0 p d IH]
    using expr_ind'; cbn [settled cse_image]; intros Hs.
  - done.
  - done.
  - destruct (Hlist es IH Hs) as [-> ->]. done.
  - destruct (Hlist es IH Hs) as [-> ->]. done.
  - apply andb_prop in Hs as [H1 H2]. destruct (IHa H1) as [-> ->].
    destruct (Hlist idx IH H2) as [-> ->]. done.
  - apply andb_prop in Hs as [H1 H2]. destruct (IHf H1) as [-> ->].
    destruct (Hlist ps IH H2) as [-> ->]. done.
  - destruct (IH Hs) as [-> ->]. done.
  - cbn [memo_lookup].
    destruct (memo_lookup c0 M) as [w|] eqn:Hc0.
    + destruct (decide (c0 = c)) as [->|Hne]; [congruence | done].
    + apply andb_prop in Hs as [H1 H2].
      destruct (decide (c0 = c)) as [->|Hne]; [congruence|].
      destruct (IH H1) as [-> ->]. by rewrite H2.
Qed.

Lemma grows_refl st : grows st st [] [].
Proof.
  split.
  - done.
  - by rewrite app_nil_r.
  - constructor.
  - constructor.
  - constructor.
  - intros kv H; by apply elem_of_nil in H.
  - simpl. by rewrite (left_id_L ∅ (∪)).
  - done.
  - intros kv H; by apply elem_of_nil in H.
  - intros kv H; by apply elem_of_nil in H.
  - constructor.
  - done.
  - intros kv H; by apply elem_of_nil in H.
Qed.

Lemma grows_trans st st1 st2 D1 H1 D2 H2 :
  grows st st1 D1 H1 -> grows st1 st2 D2 H2 ->
  grows st st2 (D2 ++ D1) (H1 ++ H2).
Proof.
  intros G1 G2.
  assert (Hdisj : forall kv, kv ∈ D2 -> var_of kv ∉ map var_of D1).
  { intros kv Hkv Hin. apply (grows_fresh _ _ _ _ G2 kv Hkv).
    rewrite (grows_names _ _ _ _ G1). apply elem_of_union_l.
    by apply elem_of_list_to_set. }
  split.
  - rewrite (grows_memo _ _ _ _ G2), (grows_memo _ _ _ _ G1).
    by rewrite app_assoc.
  - rewrite (grows_insns _ _ _ _ G2), (grows_insns _ _ _ _ G1).
    by rewrite app_assoc.
  - rewrite rev_app_distr. apply Forall2_app.
    + eapply Forall2_impl; [apply (grows_hoisted _ _ _ _ G1)|].
      intros h kv (Hs & id_ & ->).
      destruct (grows_stable _ _ _ _ G2 (fst kv) Hs) as [Hs' ->]. eauto.
    + apply (grows_hoisted _ _ _ _ G2).
  - apply Forall_app. split;
      [apply (grows_vars _ _ _ _ G2) | apply (grows_vars _ _ _ _ G1)].
  - rewrite map_app. apply NoDup_app. split; [apply (grows_nodup _ _ _ _ G2)|].
    split; [|apply (grows_nodup _ _ _ _ G1)].
    intros v (kv & -> & Hkv)%list_elem_of_fmap. by apply Hdisj.
  - intros kv [Hkv|Hkv]%elem_of_app.
    + intros Hin. apply (grows_fresh _ _ _ _ G2 kv Hkv).
      rewrite (grows_names _ _ _ _ G1). by apply elem_of_union_r.
    + by apply (grows_fresh _ _ _ _ G1).
  - rewrite (grows_names _ _ _ _ G2), (grows_names _ _ _ _ G1).
    rewrite map_app, list_to_set_app_L. by rewrite (assoc_L (∪)).
  - intros n Hn. rewrite map_app in Hn.
    rewrite (grows_temps_old _ _ _ _ G2), (grows_temps_old _ _ _ _ G1);
      [done | |]; intros Hin; apply Hn; apply elem_of_app; auto.
  - intros kv [Hkv|Hkv]%elem_of_app.
    + apply (grows_temps_new _ _ _ _ G2 kv Hkv).
    + destruct (grows_temps_new _ _ _ _ G1 kv Hkv) as (tv & Htv & Hn).
      exists tv; split; [|done].
      rewrite (grows_temps_old _ _ _ _ G2); [done|].
      intros (kv2 & Heq & Hkv2)%list_elem_of_fmap.
      apply (Hdisj kv2 Hkv2). rewrite <- Heq.
      apply list_elem_of_fmap. eauto.
  - intros kv [Hkv|Hkv]%elem_of_app.
    + pose proof (grows_keys _ _ _ _ G2 kv Hkv) as Hk.
      rewrite (grows_memo _ _ _ _ G1), memo_lookup_app in Hk.
      by destruct (memo_lookup (fst kv) D1).
    + apply (grows_keys _ _ _ _ G1 kv Hkv).
  - rewrite map_app. apply NoDup_app.
    split; [apply (grows_keys_nodup _ _ _ _ G2)|].
    split; [|apply (grows_keys_nodup _ _ _ _ G1)].
    intros k (kv & -> & Hkv)%list_elem_of_fmap.
    pose proof (grows_keys _ _ _ _ G2 kv Hkv) as Hk.
    rewrite (grows_memo _ _ _ _ G1), memo_lookup_app in Hk.
    apply memo_lookup_None_keys.
    by destruct (memo_lookup (fst kv) D1).
  - intros x Hx.
    destruct (grows_stable _ _ _ _ G1 x Hx) as [Hx1 E1].
    destruct (grows_stable _ _ _ _ G2 x Hx1) as [Hx2 E2].
    split; [done | congruence].
  - intros kv [Hkv|Hkv]%elem_of_app.
    + apply (grows_nonvar _ _ _ _ G2 kv Hkv).
    + destruct (grows_nonvar _ _ _ _ G1 kv Hkv) as [Hs Hnv].
      destruct (grows_stable _ _ _ _ G2 (fst kv) Hs) as [Hs' E].
      split; [done | by rewrite E].
Qed.

Lemma list_to_set_singleton_var (v : string) :
  (list_to_set [v] : gset string) = {[v]}.
Proof. simpl. by rewrite (right_id_L ∅ (∪)). Qed.

(** [add_assignment], field by field. *)
Lemma add_assignment_eq knl p e d st :
  add_assignment knl p e d st =
  let v := unique_name (existing_names st) (base_name_of p) in
  let id_ := make_unique_instruction_id knl (newly_created_insn_ids st) in
  (v,
   {| expr_to_var := expr_to_var st;
      existing_names := {[v]} ∪ existing_names st;
      new_insns := (new_insns st ++ [assignment_insn id_ v e])%list;
      newly_created_insn_ids := {[id_]} ∪ newly_created_insn_ids st;
      new_temp_vars :=
        <[v := {| tv_name := v; tv_dtype := dtype_of d;
                  tv_is_local := None; tv_base_indices := [];
                  tv_shape := [] |}]> (new_temp_vars st) |}).
Proof. reflexivity. Qed.

(** Hoisting a settled inner expression whose image is not a bare
    variable: one memo entry, one assignment, one temporary. *)
Lemma grows_hoist knl st c p d :
  memo_lookup c (expr_to_var st) = None ->
  settled (expr_to_var st) c = true ->
  is_Variable (cse_image (expr_to_var st) c) = false ->
  let r := add_assignment knl p (cse_image (expr_to_var st) c) d st in
  grows st (memoize c (Var (fst r)) (snd r)) [(c, Var (fst r))]
    [assignment_insn
       (make_unique_instruction_id knl (newly_created_insn_ids st))
       (fst r) (cse_image (expr_to_var st) c)].
Proof.
  intros Hc Hs Hnv r. subst r. rewrite add_assignment_eq.
  set (v := unique_name (existing_names st) (base_name_of p)).
  cbv zeta. cbn [fst snd].
  destruct (memoize_stable (expr_to_var st) c (Var v) c Hc Hnv Hs)
    as [Hs' Himg].
  split; unfold memoize;
    cbn [expr_to_var existing_names new_insns newly_created_insn_ids
         new_temp_vars].
  - done.
  - done.
  - cbn [rev app]. constructor; [|constructor]. cbn [fst].
    split; [exact Hs'|]. eexists. by rewrite Himg.
  - by constructor.
  - apply NoDup_singleton.
  - intros kv ->%list_elem_of_singleton. apply unique_name_fresh.
  - cbn [map]. change (var_of (c, Var v)) with v.
    by rewrite list_to_set_singleton_var.
  - intros n Hn. apply lookup_insert_ne. intros <-. apply Hn.
    by apply list_elem_of_singleton.
  - intros kv ->%list_elem_of_singleton. change (var_of (c, Var v)) with v.
    eexists; split; [apply lookup_insert_eq | done].
  - by intros kv ->%list_elem_of_singleton.
  - apply NoDup_singleton.
  - intros x Hx. by apply memoize_stable.
  - intros kv ->%list_elem_of_singleton. cbn [fst].
    split; [exact Hs' | by rewrite Himg].
Qed.

Lemma list_sum_cons x l : list_sum (x :: l) = x + list_sum l.
Proof. reflexivity. Qed.

Lemma map_state_cseam_spec knl es :
  Forall (cseam_spec knl) es ->
  forall st es' st',
    map_state (cseam knl) es st = (es', st') ->
    exists D H,
      grows st st' D H /\
      forallb (settled (expr_to_var st')) es = true /\
      es' = map (cse_image (expr_to_var st')) es /\
      Forall (fun kv => expr_size (fst kv) <= list_sum (map expr_size es)) D.
Proof.
  induction 1 as [|e es He _ IH]; intros st es' st'; cbn [map_state].
  - intros [= <- <-]. exists [], []. split; [apply grows_refl|].
    split; [done|]. split; [done | constructor].
  - destruct (cseam knl e st) as [e1 st1] eqn:E1.
    destruct (map_state (cseam knl) es st1) as [es1 st2] eqn:E2.
    intros [= <- <-].
    destruct (He _ _ _ E1) as (D1 & H1 & G1 & Hs1 & -> & Hsz1).
    destruct (IH _ _ _ E2) as (D2 & H2 & G2 & Hs2 & -> & Hsz2).
    exists (D2 ++ D1)%list, (H1 ++ H2)%list.
    split; [by eapply grows_trans|].
    destruct (grows_stable _ _ _ _ G2 e Hs1) as [Hs1' Himg].
    split; [cbn [forallb]; by rewrite Hs1', Hs2|].
    split; [cbn [map]; by rewrite Himg|].
    cbn [map]. rewrite list_sum_cons. apply Forall_app. split.
    + eapply Forall_impl; [exact Hsz2|]. intros kv Hkv; cbn [expr_size] in Hkv |- *; lia.
    + eapply Forall_impl; [exact Hsz1|]. intros kv Hkv; cbn [expr_size] in Hkv |- *; lia.
Qed.

Lemma cseam_meets_spec knl e : cseam_spec knl e.
Proof.
  induction e as [n|z|es IH|es IH|a idx IHa IH|f ps IHf IH|op ins b IH|c p d IH]
    using expr_ind'; intros st e' st'; cbn [cseam].
  - intros [= <- <-]. exists [], []. split; [apply grows_refl|].
    split; [done|]. split; [done | constructor].
  - intros [= <- <-]. exists [], []. split; [apply grows_refl|].
    split; [done|]. split; [done | constructor].
  - destruct (map_state (cseam knl) es st) as [es1 st1] eqn:E.
    intros [= <- <-].
    destruct (map_state_cseam_spec knl es IH _ _ _ E)
      as (D & H & G & Hs & -> & Hsz).
    exists D, H. split; [done|]. split; [done|]. split; [done|].
    eapply Forall_impl; [exact Hsz|]. intros kv Hkv; cbn [expr_size] in Hkv |- *; lia.
  - destruct (map_state (cseam knl) es st) as [es1 st1] eqn:E.
    intros [= <- <-].
    destruct (map_state_cseam_spec knl es IH _ _ _ E)
      as (D & H & G & Hs & -> & Hsz).
    exists D, H. split; [done|]. split; [done|]. split; [done|].
    eapply Forall_impl; [exact Hsz|]. intros kv Hkv; cbn [expr_size] in Hkv |- *; lia.
  - destruct (cseam knl a st) as [a1 st1] eqn:E1.
    destruct (map_state (cseam knl) idx st1) as [idx1 st2] eqn:E2.
    intros [= <- <-].
    destruct (IHa _ _ _ E1) as (D1 & H1 & G1 & Hs1 & -> & Hsz1).
    destruct (map_state_cseam_spec knl idx IH _ _ _ E2)
      as (D2 & H2 & G2 & Hs2 & -> & Hsz2).
    destruct (grows_stable _ _ _ _ G2 a Hs1) as [Hs1' Himg].
    exists (D2 ++ D1)%list, (H1 ++ H2)%list.
    split; [by eapply grows_trans|].
    split; [cbn [settled]; by rewrite Hs1', Hs2|].
    split; [cbn [cse_image]; by rewrite Himg|].
    cbn [expr_size]. apply Forall_app. split.
    + eapply Forall_impl; [exact Hsz2|]. intros kv Hkv; cbn [expr_size] in Hkv |- *; lia.
    + eapply Forall_impl; [exact Hsz1|]. intros kv Hkv; cbn [expr_size] in Hkv |- *; lia.
  - destruct (cseam knl f st) as [f1 st1] eqn:E1.
    destruct (map_state (cseam knl) ps st1) as [ps1 st2] eqn:E2.
    intros [= <- <-].
    destruct (IHf _ _ _ E1) as (D1 & H1 & G1 & Hs1 & -> & Hsz1).
    destruct (map_state_cseam_spec knl ps IH _ _ _ E2)
      as (D2 & H2 & G2 & Hs2 & -> & Hsz2).
    destruct (grows_stable _ _ _ _ G2 f Hs1) as [Hs1' Himg].
    exists (D2 ++ D1)%list, (H1 ++ H2)%list.
    split; [by eapply grows_trans|].
    split; [cbn [settled]; by rewrite Hs1', Hs2|].
    split; [cbn [cse_image]; by rewrite Himg|].
    cbn [expr_size]. apply Forall_app. split.
    + eapply Forall_impl; [exact Hsz2|]. intros kv Hkv; cbn [expr_size] in Hkv |- *; lia.
    + eapply Forall_impl; [exact Hsz1|]. intros kv Hkv; cbn [expr_size] in Hkv |- *; lia.
  - destruct (cseam knl b st) as [b1 st1] eqn:E1.
    intros [= <- <-].
    destruct (IH _ _ _ E1) as (D1 & H1 & G1 & Hs1 & -> & Hsz1).
    exists D1, H1. split; [done|]. split; [done|]. split; [done|].
    eapply Forall_impl; [exact Hsz1|]. intros kv Hkv; cbn [expr_size] in Hkv |- *; lia.
  - destruct (memo_lookup c (expr_to_var st)) as [var|] eqn:Hhit.
    + intros [= <- <-]. exists [], []. split; [apply grows_refl|].
      cbn [settled cse_image]. rewrite Hhit.
      split; [done|]. split; [done | constructor].
    + destruct (cseam knl c st) as [c1 st1] eqn:E1.
      destruct (IH _ _ _ E1) as (D1 & H1 & G1 & Hs1 & -> & Hsz1).
      assert (Hmiss : memo_lookup c (expr_to_var st1) = None).
      { rewrite (grows_memo _ _ _ _ G1), memo_lookup_app, Hhit.
        destruct (memo_lookup c D1) as [w|] eqn:Hw; [|done].
        apply memo_lookup_Some_elem in Hw.
        rewrite Forall_forall in Hsz1. specialize (Hsz1 _ Hw).
        cbn in Hsz1. lia. }
      destruct (is_Variable (cse_image (expr_to_var st1) c)) eqn:Hv.
      * intros [= <- <-]. exists D1, H1. split; [done|].
        cbn [settled cse_image]. rewrite Hmiss, Hs1, Hv.
        split; [done|]. split; [done|].
        eapply Forall_impl; [exact Hsz1|]. intros kv Hkv; cbn [expr_size] in Hkv |- *; lia.
      * pose proof (grows_hoist knl st1 c p d Hmiss Hs1 Hv) as G2.
        destruct (add_assignment knl p (cse_image (expr_to_var st1) c) d st1)
          as [var_name st2] eqn:E2.
        cbn [fst snd] in G2. intros [= <- <-].
        eexists _, _. split; [eapply grows_trans; [exact G1 | exact G2]|].
        cbn [settled cse_image memoize expr_to_var memo_lookup].
        rewrite decide_True by done.
        split; [done|]. split; [done|].
        cbn [app expr_size fst]. constructor; [cbn; lia|].
        eapply Forall_impl; [exact Hsz1|]. intros kv Hkv; cbn [expr_size] in Hkv |- *; lia.
Qed.

Lemma grows_shadow st st' D H insns :
  grows st st' D H -> grows (shadow st insns) (shadow st' (insns ++ H)) D H.
Proof.
  intros G. split; cbn [shadow expr_to_var existing_names new_insns
                        newly_created_insn_ids new_temp_vars].
  - apply (grows_memo _ _ _ _ G).
  - done.
  - apply (grows_hoisted _ _ _ _ G).
  - apply (grows_vars _ _ _ _ G).
  - apply (grows_nodup _ _ _ _ G).
  - apply (grows_fresh _ _ _ _ G).
  - apply (grows_names _ _ _ _ G).
  - apply (grows_temps_old _ _ _ _ G).
  - apply (grows_temps_new _ _ _ _ G).
  - apply (grows_keys _ _ _ _ G).
  - apply (grows_keys_nodup _ _ _ _ G).
  - apply (grows_stable _ _ _ _ G).
  - apply (grows_nonvar _ _ _ _ G).
Qed.

Lemma run_inv_step knl seen insn st :
  run_inv knl seen st ->
  run_inv knl (seen ++ [insn]) (expand_cses_step knl insn st).
Proof.
  intros (D & H & G & Hperm & Hset). unfold expand_cses_step.
  destruct (cseam knl (expression insn) st) as [e' st1] eqn:E.
  destruct (cseam_meets_spec knl _ _ _ _ E) as (D1 & H1 & G1 & Hs1 & -> & _).
  exists (D1 ++ D)%list, (H ++ H1)%list.
  cbn [expr_to_var new_insns].
  split; [|split].
  - eapply grows_trans; [exact G|].
    apply (grows_shadow _ _ _ _ H G1).
  - rewrite (grows_insns _ _ _ _ G1), map_app. cbn [map].
    assert (Hmap : map (rewritten (expr_to_var st1)) seen
                   = map (rewritten (expr_to_var st)) seen).
    { apply map_ext_in. intros x Hx%list_elem_of_In. unfold rewritten.
      rewrite Forall_forall in Hset.
      by destruct (grows_stable _ _ _ _ G1 _ (Hset x Hx)) as [_ ->]. }
    rewrite Hmap, Hperm. unfold rewritten at 3.
    rewrite <- !app_assoc. apply Permutation_app_head.
    rewrite !app_assoc. apply Permutation_app_tail.
    apply Permutation_app_comm.
  - apply Forall_app. split; [|by repeat constructor].
    rewrite Forall_forall in *. intros x Hx.
    by destruct (grows_stable _ _ _ _ G1 _ (Hset x Hx)) as [-> _].
Qed.

Lemma run_inv_fold knl rest seen st :
  run_inv knl seen st ->
  run_inv knl (seen ++ rest)
    (fold_left (fun st insn => expand_cses_step knl insn st) rest st).
Proof.
  revert seen st; induction rest as [|insn rest IH]; intros seen st Hinv;
    cbn [fold_left].
  - by rewrite app_nil_r.
  - replace (seen ++ insn :: rest)%list with ((seen ++ [insn]) ++ rest)%list
      by (by rewrite <- app_assoc).
    apply IH. by apply run_inv_step.
Qed.

Lemma run_inv_final knl :
  run_inv knl (instructions knl) (expand_cses_run knl).
Proof.
  unfold expand_cses_run.
  apply (run_inv_fold knl (instructions knl) [] (expand_cses_init knl)).
  exists [], []. split; [apply grows_refl|]. split; [done | constructor].
Qed.


Lemma Forall2_left_elem {A B : Type} (P : A -> B -> Prop) l k x :
  Forall2 P l k -> x ∈ l -> exists y, y ∈ k /\ P x y.
Proof.
  induction 1 as [|x' y l k Hxy _ IH]; intros Hx.
  - by apply elem_of_nil in Hx.
  - apply elem_of_cons in Hx as [->|Hx].
    + exists y. split; [by left | done].
    + destruct (IH Hx) as (y' & ? & ?). exists y'. split; [by right | done].
Qed.







Example expand_cses_variable :
  instructions (expand_cses knl_cse_variable)
  = [plain_insn "w" (LSubscript "out" [Var "i"]) (Sum [Var "n"; Var "n"])]
  /\ temporary_variables (expand_cses knl_cse_variable) = ∅.
Proof. split; vm_compute; reflexivity. Qed.

Example expand_cses_shared :
  instructions (expand_cses knl_cse_shared)
  = [assignment_insn "insn" "var"
       (Sum [Subscript (Var "a") [Var "i"]; Constant 1]);
     plain_insn "w" (LSubscript "out" [Var "i"])
       (Product [Var "var"; Var "var"])]
  /\ dom (temporary_variables (expand_cses knl_cse_shared)) = {["var"]}.
Proof. split; vm_compute; reflexivity. Qed.

(* ===================================================================== *)
(** * Further properties *)
(* ===================================================================== *)

(* ===================================================================== *)
(** ** Macro expansion: texts without macros, arity of the expansion *)
(* ===================================================================== *)

Lemma flush_word_elem w cur : w ∈ flush_word cur -> w = cur /\ cur <> "".
Proof.
  destruct cur as [|c cur]; cbn [flush_word].
  - intros H; by apply elem_of_nil in H.
  - intros ->%list_elem_of_singleton. done.
Qed.

(** A name matched in bracketed form is also matched as a bare word: the
    word inside the braces is a maximal run of word characters. *)
Lemma brace_matches_word_runs s st cur w :
  (forall b, st = InBrace b -> cur = b) ->
  w ∈ brace_matches s st -> w ∈ word_runs s cur.
Proof.
  revert st cur; induction s as [|c s IH]; intros st cur Hst;
    cbn [brace_matches word_runs].
  - intros H; by apply elem_of_nil in H.
  - destruct (brace_scan_step st c) as [st' out] eqn:Hstep.
    intros [Hout|Hrest]%elem_of_app.
    + (* the match ends at [c] *)
      destruct st as [| |b]; cbn [brace_scan_step] in Hstep.
      * injection Hstep as <- <-. by apply elem_of_nil in Hout.
      * destruct (Ascii.eqb c "{"); injection Hstep as <- <-;
          by apply elem_of_nil in Hout.
      * destruct (is_word_char c) eqn:Hc.
        { injection Hstep as <- <-. by apply elem_of_nil in Hout. }
        destruct (Ascii.eqb c "}").
        -- rewrite (Hst b eq_refl).
           destruct b as [|b0 b]; injection Hstep as <- <-;
             [by apply elem_of_nil in Hout|].
           apply list_elem_of_singleton in Hout as ->.
           apply elem_of_app. left. cbn [flush_word]. apply list_elem_of_here.
        -- injection Hstep as <- <-. by apply elem_of_nil in Hout.
    + (* the match lies in the rest *)
      destruct (is_word_char c) eqn:Hc.
      * apply (IH st'); [|done]. intros b ->.
        destruct st as [| |b']; cbn [brace_scan_step] in Hstep.
        -- destruct (Ascii.eqb c "$"); discriminate.
        -- destruct (Ascii.eqb c "{") eqn:Hb.
           ++ apply Ascii.eqb_eq in Hb as ->. discriminate.
           ++ destruct (Ascii.eqb c "$"); discriminate.
        -- rewrite Hc in Hstep. injection Hstep as <-.
           by rewrite (Hst b' eq_refl).
      * apply elem_of_app. right. apply (IH st'); [|done]. intros b ->.
        destruct st as [| |b']; cbn [brace_scan_step] in Hstep.
        -- destruct (Ascii.eqb c "$"); discriminate.
        -- destruct (Ascii.eqb c "{").
           ++ by injection Hstep as <-.
           ++ destruct (Ascii.eqb c "$"); discriminate.
        -- rewrite Hc in Hstep. destruct (Ascii.eqb c "}").
           ++ destruct b'; discriminate.
           ++ destruct (Ascii.eqb c "$"); discriminate.
Qed.

Lemma BRACE_RE_matches_are_words s w :
  w ∈ BRACE_RE_finditer s -> w ∈ WORD_RE_finditer s.
Proof. apply brace_matches_word_runs. intros b H; discriminate. Qed.

Lemma product_cons a l : product (a :: l) = a * product l.
Proof. reflexivity. Qed.

Lemma product_app l1 l2 : product (l1 ++ l2) = product l1 * product l2.
Proof.
  induction l1 as [|a l1 IH].
  - change (product []) with 1. cbn [app]. lia.
  - change ((a :: l1) ++ l2)%list with (a :: (l1 ++ l2))%list.
    rewrite !product_cons, IH. lia.
Qed.

Lemma expand_match_undefined defines sv mk w reps :
  defines !! w = None -> expand_match defines sv mk w reps = Ok reps.
Proof. intros H. unfold expand_match. by rewrite H. Qed.

Lemma expand_match_fold_undefined defines sv mk ws reps :
  (forall w, w ∈ ws -> defines !! w = None) ->
  fold_result (expand_match defines sv mk) ws reps = Ok reps.
Proof.
  revert reps; induction ws as [|w ws IH]; intros reps H; cbn [fold_result];
    [done|].
  rewrite expand_match_undefined by (apply H; by left).
  rewrite bind_Ok. apply IH. intros w' Hw'. apply H. by right.
Qed.

Lemma length_flat_map_const {A B : Type} (f : A -> list B) (n : nat) l :
  (forall x, length (f x) = n) -> length (flat_map f l) = length l * n.
Proof.
  intros H. induction l as [|x l IH]; cbn [flat_map length]; [done|].
  rewrite length_app, H, IH. lia.
Qed.

(** In multi-valued mode a match never raises and multiplies the number of
    replacement tuples by its arity. *)
Lemma expand_match_multi defines mk w reps :
  exists reps',
    expand_match defines false mk w reps = Ok reps' /\
    length reps' = length reps * arity defines w.
Proof.
  unfold expand_match, arity.
  destruct (defines !! w) as [[v|vs]|].
  - eexists; split; [done|]. rewrite length_map. lia.
  - eexists; split; [done|].
    apply length_flat_map_const. intros rep. by rewrite length_map.
  - eexists; split; [done|]. lia.
Qed.

Lemma expand_match_fold_multi defines mk ws reps :
  exists reps',
    fold_result (expand_match defines false mk) ws reps = Ok reps' /\
    length reps' = length reps * product (map (arity defines) ws).
Proof.
  revert reps; induction ws as [|w ws IH]; intros reps; cbn [fold_result].
  - exists reps. split; [done|]. change (product (map _ [])) with 1. lia.
  - destruct (expand_match_multi defines mk w reps) as (reps1 & -> & H1).
    rewrite bind_Ok. destruct (IH reps1) as (reps2 & -> & H2).
    exists reps2. split; [done|]. rewrite H2, H1. cbn [map].
    rewrite product_cons. lia.
Qed.

(** In single-valued mode a match either raises on a list value or keeps
    the number of replacement tuples. *)
Lemma expand_match_fold_single defines mk ws reps :
  match fold_result (expand_match defines true mk) ws reps with
  | Ok reps' =>
      length reps' = length reps /\
      forall w, w ∈ ws -> ~ list_valued defines w
  | Raise e =>
      exists w, w ∈ ws /\ list_valued defines w /\
                e = ValueError (multi_valued_message w)
  end.
Proof.
  revert reps; induction ws as [|w ws IH]; intros reps; cbn [fold_result].
  - split; [done|]. intros w H; by apply elem_of_nil in H.
  - destruct (expand_match defines true mk w reps) as [reps1|e1] eqn:E;
      unfold expand_match in E;
      destruct (defines !! w) as [[v|vs]|] eqn:Hw; try discriminate;
      injection E as <-.
    + rewrite bind_Ok.
      specialize (IH (map (fun rep => rep ++ [(mk w, v)]) reps)%list).
      destruct (fold_result _ ws _) as [reps'|e].
      * destruct IH as [Hlen Hno]. split; [by rewrite Hlen, length_map|].
        intros w' [->|Hin]%elem_of_cons; [|by apply Hno].
        intros [vs Hvs]. congruence.
      * destruct IH as (w' & ? & ? & ?). exists w'. split; [by right | done].
    + rewrite bind_Ok. specialize (IH reps).
      destruct (fold_result _ ws _) as [reps'|e].
      * destruct IH as [Hlen Hno]. split; [done|].
        intros w' [->|Hin]%elem_of_cons; [|by apply Hno].
        intros [vs Hvs]. congruence.
      * destruct IH as (w' & ? & ? & ?). exists w'. split; [by right | done].
    + rewrite bind_Raise. exists w. split; [by left|].
      split; [by exists vs | done].
Qed.

(** X1.  A text in which no word names a macro of the table expands, in
    either mode, to itself and nothing else. *)
Theorem expand_defines_without_macros (insn : string)
    (defines : gmap string define_value) (single_valued : bool) :
  (forall w, w ∈ WORD_RE_finditer insn -> defines !! w = None) ->
  expand_defines insn defines single_valued = Ok [insn].
Proof.
  intros H. unfold expand_defines, expand_replacements.
  rewrite expand_match_fold_undefined
    by (intros w Hw; by apply H, BRACE_RE_matches_are_words).
  rewrite bind_Ok, expand_match_fold_undefined by done.
  by rewrite bind_Ok.
Qed.

Lemma expand_defines_without_macros_witness :
  expand_defines "out[i] = x[i] + 2*c" defines_2_3 false
  = Ok ["out[i] = x[i] + 2*c"].
Proof.
  apply expand_defines_without_macros.
  intros w Hw.
  assert (E : WORD_RE_finditer "out[i] = x[i] + 2*c"
              = ["out"; "i"; "x"; "i"; "2"; "c"]) by reflexivity.
  rewrite E in Hw.
  repeat (apply elem_of_cons in Hw as [->|Hw]; [reflexivity|]).
  by apply elem_of_nil in Hw.
Defined.

(** X2.  With a table whose values hold no backslash, single-valued
    expansion yields exactly one string unless some word of the text names
    a list-valued macro; in that case, and only then, it raises the
    ValueError naming such a word. *)
Theorem expand_defines_single_valued (insn : string)
    (defines : gmap string define_value) :
  backslash_free defines ->
  match expand_defines insn defines true with
  | Ok expansions =>
      length expansions = 1 /\
      forall w, w ∈ WORD_RE_finditer insn -> ~ list_valued defines w
  | Raise e =>
      exists w, w ∈ WORD_RE_finditer insn /\ list_valued defines w /\
                e = ValueError (multi_valued_message w)
  end.
Proof.
  intros _. unfold expand_defines, expand_replacements.
  pose proof (expand_match_fold_single defines BracePattern
                (BRACE_RE_finditer insn) [[]]) as H1.
  destruct (fold_result _ (BRACE_RE_finditer insn) _) as [reps1|e].
  - rewrite bind_Ok. destruct H1 as [Hlen1 _].
    pose proof (expand_match_fold_single defines WordPattern
                  (WORD_RE_finditer insn) reps1) as H2.
    destruct (fold_result _ (WORD_RE_finditer insn) _) as [reps2|e].
    + rewrite bind_Ok. destruct H2 as [Hlen2 Hno].
      split; [|exact Hno]. by rewrite length_map, Hlen2, Hlen1.
    + rewrite bind_Raise. exact H2.
  - rewrite !bind_Raise. destruct H1 as (w & Hw & ? & ?).
    exists w. split; [by apply BRACE_RE_matches_are_words | done].
Qed.

Lemma expand_defines_single_valued_witness :
  match expand_defines "out[i] = n*x[i]" (<["n" := Single "16"]> ∅) true with
  | Ok expansions =>
      length expansions = 1 /\
      forall w, w ∈ WORD_RE_finditer "out[i] = n*x[i]" ->
                ~ list_valued (<["n" := Single "16"]> ∅) w
  | Raise e =>
      exists w, w ∈ WORD_RE_finditer "out[i] = n*x[i]" /\
                list_valued (<["n" := Single "16"]> ∅) w /\
                e = ValueError (multi_valued_message w)
  end.
Proof.
  apply expand_defines_single_valued.
  apply map_Forall_insert_2; [reflexivity | apply map_Forall_empty].
Defined.

(** X3.  With a table whose values hold no backslash, multi-valued
    expansion does not raise, and the number of strings it yields is the
    product of the arities of all matches, the bracketed ones and then the
    bare ones, each match counted where it occurs: a macro bound to the
    empty list makes the text expand to nothing, and a list-valued name
    that occurs twice forks twice. *)
Theorem expand_defines_multi_valued_count (insn : string)
    (defines : gmap string define_value) :
  backslash_free defines ->
  exists expansions,
    expand_defines insn defines false = Ok expansions /\
    length expansions
    = product (map (arity defines)
                 (BRACE_RE_finditer insn ++ WORD_RE_finditer insn)).
Proof.
  intros _. unfold expand_defines, expand_replacements.
  destruct (expand_match_fold_multi defines BracePattern
              (BRACE_RE_finditer insn) [[]]) as (reps1 & -> & H1).
  rewrite bind_Ok.
  destruct (expand_match_fold_multi defines WordPattern
              (WORD_RE_finditer insn) reps1) as (reps2 & -> & H2).
  rewrite bind_Ok. eexists; split; [done|].
  rewrite length_map, H2, H1, map_app, product_app. cbn [length]. lia.
Qed.

Lemma expand_defines_multi_valued_count_witness :
  exists expansions,
    expand_defines "a + b" defines_2_3 false = Ok expansions /\
    length expansions
    = product (map (arity defines_2_3)
                 (BRACE_RE_finditer "a + b" ++ WORD_RE_finditer "a + b")).
Proof.
  apply expand_defines_multi_valued_count.
  apply map_Forall_insert_2; [reflexivity|].
  apply map_Forall_insert_2; [reflexivity | apply map_Forall_empty].
Defined.

Example expand_defines_empty_list :
  expand_defines "x = a" (<["a" := Multi []]> ∅) false = Ok [].
Proof. vm_compute. reflexivity. Qed.

Example expand_defines_repeated_name :
  expand_defines "a + a" defines_2_3 false
  = Ok ["1 + 1"; "1 + 1"; "2 + 2"; "2 + 2"].
Proof. vm_compute. reflexivity. Qed.

(* ===================================================================== *)
(** ** The name registry *)
(* ===================================================================== *)

(** X4.  A generated name is the first of [based_on], [based_on_0],
    [based_on_1], ... that is not in use: it is [based_on] itself when that
    is free, it is never a name in use, it is in use afterwards, and the
    next generated name, whatever its base, differs from it. *)
Theorem UniqueNameGenerator_call_fresh (existing_names : gset string)
    (based_on other : string) :
  let '(name, names) := UniqueNameGenerator_call existing_names based_on in
  (exists j,
      name = generate_unique_possibilities based_on j /\
      forall i, i < j ->
        generate_unique_possibilities based_on i ∈ existing_names) /\
  (name ∉ existing_names) /\
  (based_on ∉ existing_names -> name = based_on) /\
  names = {[name]} ∪ existing_names /\
  is_name_conflicting names name = true /\
  fst (UniqueNameGenerator_call names other) <> name.
Proof.
  unfold UniqueNameGenerator_call. cbv zeta.
  destruct (unique_name_spec existing_names based_on) as (j & Hj & Hfresh & Hfirst).
  split; [by exists j|]. split; [done|]. split.
  - intros Hfree. destruct j as [|j]; [exact Hj|].
    exfalso. apply Hfree. apply (Hfirst 0). lia.
  - split; [done|]. split.
    + apply bool_decide_eq_true_2, elem_of_union_l. by apply elem_of_singleton.
    + cbn [fst]. intros Heq.
      apply (unique_name_fresh
               ({[unique_name existing_names based_on]} ∪ existing_names)
               other).
      rewrite Heq. apply elem_of_union_l. by apply elem_of_singleton.
Qed.

Lemma add_names_loop names existing :
  match fold_result UniqueNameGenerator_add_name names existing with
  | Ok existing' =>
      NoDup names /\ (forall n, n ∈ names -> n ∉ existing) /\
      existing' = list_to_set names ∪ existing
  | Raise e =>
      e = ValueError "name '%s' conflicts with existing names" /\
      ~ (NoDup names /\ forall n, n ∈ names -> n ∉ existing)
  end.
Proof.
  revert existing; induction names as [|n names IH]; intros existing;
    cbn [fold_result].
  - split; [constructor|]. split.
    + intros n H; by apply elem_of_nil in H.
    + cbn. by rewrite (left_id_L ∅ (∪)).
  - destruct (UniqueNameGenerator_add_name n existing) as [e1|err] eqn:E;
      unfold UniqueNameGenerator_add_name, is_name_conflicting in E;
      destruct (decide (n ∈ existing)) as [Hn|Hn].
    + rewrite bool_decide_eq_true_2 in E by done. discriminate.
    + rewrite bool_decide_eq_false_2 in E by done. injection E as <-.
      rewrite bind_Ok. specialize (IH ({[n]} ∪ existing)).
      destruct (fold_result _ names _) as [existing'|e].
      * destruct IH as (Hnd & Hfresh & ->). split.
        { constructor; [|done]. intros Hin.
          apply (Hfresh n Hin), elem_of_union_l. by apply elem_of_singleton. }
        split.
        { intros m [->|Hm]%elem_of_cons; [done|].
          intros Hin. apply (Hfresh m Hm). by apply elem_of_union_r. }
        cbn [list_to_set]. by rewrite union_swap, (comm_L (∪) {[n]}),
          <- (assoc_L (∪)), (comm_L (∪) (list_to_set names)).
      * destruct IH as [-> Hbad]. split; [done|].
        intros [Hnd Hfresh]. apply Hbad.
        apply NoDup_cons in Hnd as [Hnotin Hnd]. split; [done|].
        intros m Hm [->%elem_of_singleton|Hin]%elem_of_union.
        -- done.
        -- apply (Hfresh m); [by right | done].
    + rewrite bool_decide_eq_true_2 in E by done. injection E as <-.
      rewrite bind_Raise. split; [done|]. intros [_ Hfresh].
      apply (Hfresh n); [by left | done].
    + rewrite bool_decide_eq_false_2 in E by done. discriminate.
Qed.

(** X5.  Registering a list of names succeeds exactly when the names are
    pairwise distinct and none is in use; the registry then holds them and
    the names it held.  Otherwise the ValueError is raised. *)
Theorem UniqueNameGenerator_add_names_spec (names : list string)
    (existing_names : gset string) :
  match UniqueNameGenerator_add_names names existing_names with
  | Ok names' =>
      NoDup names /\ (forall n, n ∈ names -> n ∉ existing_names) /\
      names' = list_to_set names ∪ existing_names
  | Raise e =>
      (exists msg, e = ValueError msg) /\
      ~ (NoDup names /\ forall n, n ∈ names -> n ∉ existing_names)
  end.
Proof.
  unfold UniqueNameGenerator_add_names.
  pose proof (add_names_loop names existing_names) as H.
  destruct (fold_result _ names _) as [names'|e]; [exact H|].
  destruct H as [-> H]. split; [eauto | exact H].
Qed.

(* ===================================================================== *)
(** ** The consistency checks *)
(* ===================================================================== *)

Lemma add_name_loop {A : Type} (f : A -> string) (source : string)
    (l : list A) (m : gmap string string) :
  match fold_result (fun x => add_name (f x) source) l m with
  | Ok m' =>
      NoDup (map f l) /\ (forall x, x ∈ l -> m !! f x = None) /\
      forall n, is_Some (m' !! n) <-> n ∈ map f l \/ is_Some (m !! n)
  | Raise e =>
      (exists msg, e = RuntimeError msg) /\
      ~ (NoDup (map f l) /\ forall x, x ∈ l -> m !! f x = None)
  end.
Proof.
  revert m; induction l as [|x l IH]; intros m; cbn [fold_result map].
  - split; [constructor|]. split.
    + intros x H; by apply elem_of_nil in H.
    + intros n. split; [auto|]. intros [H|H]; [by apply elem_of_nil in H|done].
  - destruct (add_name (f x) source m) as [m1|e1] eqn:E;
      unfold add_name in E; destruct (m !! f x) as [used|] eqn:Hx;
      try discriminate.
    + injection E as <-. rewrite bind_Ok.
      specialize (IH (<[f x := source]> m)).
      destruct (fold_result _ l _) as [m'|e].
      * destruct IH as (Hnd & Hfresh & Hdom).
        assert (Hnotin : f x ∉ map f l).
        { intros (y & Hy & Hin)%list_elem_of_fmap.
          specialize (Hfresh y Hin). rewrite <- Hy in Hfresh.
          by rewrite lookup_insert_eq in Hfresh. }
        split; [by constructor|]. split.
        -- intros y [->|Hy]%elem_of_cons; [done|].
           specialize (Hfresh y Hy).
           destruct (decide (f x = f y)) as [Heq|Hne].
           ++ rewrite Heq, lookup_insert_eq in Hfresh. discriminate.
           ++ by rewrite lookup_insert_ne in Hfresh.
        -- intros n. rewrite Hdom, elem_of_cons.
           destruct (decide (f x = n)) as [<-|Hne].
           ++ rewrite lookup_insert_eq. split; [auto|]. intros _. right. eauto.
           ++ rewrite lookup_insert_ne by done. split.
              ** intros [?|?]; auto.
              ** intros [[?|?]|?]; auto. congruence.
      * destruct IH as [Hmsg Hbad]. split; [done|].
        intros [Hnd Hfresh]. apply Hbad.
        apply NoDup_cons in Hnd as [Hnotin Hnd]. split; [done|].
        intros y Hy. destruct (decide (f x = f y)) as [Heq|Hne].
        -- exfalso. apply Hnotin. rewrite Heq.
           apply list_elem_of_fmap. eauto.
        -- rewrite lookup_insert_ne by done. apply Hfresh. by right.
    + injection E as <-. rewrite bind_Raise. split; [eauto|].
      intros [_ Hfresh]. rewrite (Hfresh x) in Hx; [discriminate | by left].
Qed.

Lemma map_to_list_keys {V : Type} (m : gmap string V) n :
  n ∈ map fst (map_to_list m) <-> n ∈ dom m.
Proof.
  rewrite elem_of_dom. split.
  - intros ([k v] & -> & Hin)%list_elem_of_fmap.
    apply elem_of_map_to_list in Hin. cbn. eauto.
  - intros [v Hv]. apply list_elem_of_fmap. exists (n, v).
    split; [done|]. by apply elem_of_map_to_list.
Qed.

Lemma check_for_duplicate_names_characterised knl :
  match check_for_duplicate_names knl with
  | Ok _ => namespaces_disjoint knl
  | Raise e => (exists msg, e = RuntimeError msg) /\ ~ namespaces_disjoint knl
  end.
Proof.
  unfold check_for_duplicate_names, namespaces_disjoint.
  pose proof (add_name_loop (fun n : string => n) "iname"
                (elements (all_inames knl)) ∅) as H1.
  destruct (fold_result _ (elements (all_inames knl)) ∅) as [m1|e].
  2:{ exfalso. destruct H1 as [_ H1]. apply H1. split.
      - rewrite map_id. apply NoDup_elements.
      - intros x _. apply lookup_empty. }
  destruct H1 as (_ & _ & D1). rewrite bind_Ok.
  assert (K1 : forall n, is_Some (m1 !! n) <-> n ∈ all_inames knl).
  { intros n. rewrite D1, map_id, elem_of_elements, lookup_empty.
    split; [intros [?|[? ?]]; done | auto]. }
  pose proof (add_name_loop arg_name "argument" (args knl) m1) as H2.
  destruct (fold_result _ (args knl) m1) as [m2|e].
  2:{ rewrite !bind_Raise. destruct H2 as [Hmsg H2]. split; [done|].
      intros (Hnd & Hargs & _). apply H2. split; [done|].
      intros a Ha. apply eq_None_not_Some. rewrite K1. by apply Hargs. }
  destruct H2 as (Hnd2 & F2 & D2). rewrite bind_Ok.
  assert (Hargs : forall a, a ∈ args knl -> arg_name a ∉ all_inames knl).
  { intros a Ha Hin. apply K1 in Hin. rewrite (F2 a Ha) in Hin.
    by destruct Hin. }
  pose proof (add_name_loop (fun n : string => n) "temporary"
                (map fst (map_to_list (temporary_variables knl))) m2) as H3.
  destruct (fold_result _ (map fst (map_to_list (temporary_variables knl))) m2)
    as [m3|e].
  2:{ rewrite !bind_Raise. destruct H3 as [Hmsg H3]. split; [done|].
      intros (_ & _ & Htemps & _). apply H3. split.
      - rewrite map_id. apply NoDup_fst_map_to_list.
      - intros n Hn%map_to_list_keys. apply eq_None_not_Some.
        rewrite D2, K1. destruct (Htemps n Hn). tauto. }
  destruct H3 as (_ & F3 & D3). rewrite bind_Ok. rewrite map_id in D3.
  assert (Htemps : forall n, n ∈ dom (temporary_variables knl) ->
            (n ∉ all_inames knl) /\ (n ∉ map arg_name (args knl))).
  { intros n Hn%map_to_list_keys. specialize (F3 n Hn).
    apply eq_None_not_Some in F3. rewrite D2, K1 in F3. tauto. }
  pose proof (add_name_loop (fun n : string => n) "substitution"
                (map fst (map_to_list (substitutions knl))) m3) as H4.
  destruct (fold_result _ (map fst (map_to_list (substitutions knl))) m3)
    as [m4|e].
  2:{ rewrite !bind_Raise. destruct H4 as [Hmsg H4]. split; [done|].
      intros (_ & _ & _ & Hsubs). apply H4. split.
      - rewrite map_id. apply NoDup_fst_map_to_list.
      - intros n Hn%map_to_list_keys. apply eq_None_not_Some.
        rewrite D3, D2, K1, map_to_list_keys.
        destruct (Hsubs n Hn) as (? & ? & ?). tauto. }
  destruct H4 as (_ & F4 & _). rewrite bind_Ok.
  split; [done|]. split; [done|]. split; [done|].
  intros n Hn%map_to_list_keys. specialize (F4 n Hn).
  apply eq_None_not_Some in F4.
  rewrite D3, D2, K1, map_to_list_keys in F4. tauto.
Qed.

(** X6.  The duplicate-name check succeeds exactly when no two arguments
    share a name and the loop indices, the argument names, the temporaries
    and the substitution rules are pairwise disjoint; otherwise it raises a
    RuntimeError. *)
Theorem check_for_duplicate_names_spec (knl : LoopKernel) :
  (check_for_duplicate_names knl = Ok tt <-> namespaces_disjoint knl) /\
  (forall e, check_for_duplicate_names knl = Raise e ->
             exists msg, e = RuntimeError msg).
Proof.
  pose proof (check_for_duplicate_names_characterised knl) as H.
  destruct (check_for_duplicate_names knl) as [[]|e].
  - split; [done|]. discriminate.
  - destruct H as [Hmsg Hbad]. split.
    + split; [discriminate | done].
    + by intros e' [= <-].
Qed.

Lemma check_written_variable_names_characterised knl :
  match check_written_variable_names knl with
  | Ok _ =>
      forall insn, insn ∈ instructions knl ->
        get_assignee_var_name insn ∈ map arg_name (args knl) \/
        get_assignee_var_name insn ∈ dom (temporary_variables knl)
  | Raise e =>
      exists insn,
        insn ∈ instructions knl /\
        (get_assignee_var_name insn ∉ map arg_name (args knl)) /\
        (get_assignee_var_name insn ∉ dom (temporary_variables knl)) /\
        e = RuntimeError
              ("variable '" +:+ get_assignee_var_name insn
                 +:+ "' not declared or not allowed for writing")
  end.
Proof.
  unfold check_written_variable_names. cbv zeta.
  destruct (fold_check_dep
    (fun insn (_ : unit) =>
       if decide (get_assignee_var_name insn
                    ∈ (list_to_set (map arg_name (args knl)) : gset string)
                      ∪ dom (temporary_variables knl))
       then Ok tt
       else Raise (RuntimeError
              ("variable '" +:+ get_assignee_var_name insn
                 +:+ "' not declared or not allowed for writing")))
    (fun insn =>
       get_assignee_var_name insn
         ∉ (list_to_set (map arg_name (args knl)) : gset string)
           ∪ dom (temporary_variables knl))
    (fun insn => RuntimeError
       ("variable '" +:+ get_assignee_var_name insn
          +:+ "' not declared or not allowed for writing"))
    (instructions knl)) as [[-> H]|(x & Hx & Hb & ->)].
  - intros x _. case_decide; [left | right]; split; auto.
  - intros insn Hin. specialize (H insn Hin).
    apply dec_stable in H. apply elem_of_union in H as [H|H]; [left|by right].
    by apply elem_of_list_to_set in H.
  - exists x. split; [done|]. rewrite elem_of_union, elem_of_list_to_set in Hb.
    repeat split; tauto.
Qed.

Lemma check_for_nonexistent_iname_deps_characterised knl :
  match check_for_nonexistent_iname_deps knl with
  | Ok _ =>
      forall insn, insn ∈ instructions knl ->
        forced_iname_deps insn ⊆ all_inames knl
  | Raise e =>
      (exists msg, e = ValueError msg) /\
      exists insn, insn ∈ instructions knl /\
                   ~ forced_iname_deps insn ⊆ all_inames knl
  end.
Proof.
  unfold check_for_nonexistent_iname_deps.
  match goal with
  | |- context [fold_result ?f _ _] =>
      destruct (fold_check_dep f
        (fun insn => ~ forced_iname_deps insn ⊆ all_inames knl)
        (fun insn => ValueError
           ("In instruction '" +:+ str_of_id (insn_id insn)
              +:+ "': cannot force dependency on inames '"
              +:+ join ","
                    (elements (forced_iname_deps insn ∖ all_inames knl))
              +:+ "'--they don't exist"))
        (instructions knl)) as [[-> H]|(x & Hx & Hb & ->)]
  end.
  - intros x _. cbv beta. case_decide; [left | right]; split; auto.
  - intros insn Hin. specialize (H insn Hin). by apply dec_stable in H.
  - split; [eauto|]. by exists x.
Qed.

(** X7.  The assignee check succeeds exactly when every instruction writes
    an argument or a temporary of the kernel; otherwise it raises the
    RuntimeError naming a written variable that is neither. *)
Theorem check_written_variable_names_spec (knl : LoopKernel) :
  match check_written_variable_names knl with
  | Ok _ =>
      forall insn, insn ∈ instructions knl ->
        get_assignee_var_name insn ∈ map arg_name (args knl) \/
        get_assignee_var_name insn ∈ dom (temporary_variables knl)
  | Raise e =>
      exists insn,
        insn ∈ instructions knl /\
        (get_assignee_var_name insn ∉ map arg_name (args knl)) /\
        (get_assignee_var_name insn ∉ dom (temporary_variables knl)) /\
        e = RuntimeError
              ("variable '" +:+ get_assignee_var_name insn
                 +:+ "' not declared or not allowed for writing")
  end.
Proof. exact (check_written_variable_names_characterised knl). Qed.

(** X8.  The forced-dependency check succeeds exactly when every
    instruction forces dependencies on loop indices of the kernel only;
    otherwise it raises a ValueError. *)
Theorem check_for_nonexistent_iname_deps_spec (knl : LoopKernel) :
  match check_for_nonexistent_iname_deps knl with
  | Ok _ =>
      forall insn, insn ∈ instructions knl ->
        forced_iname_deps insn ⊆ all_inames knl
  | Raise e =>
      (exists msg, e = ValueError msg) /\
      exists insn, insn ∈ instructions knl /\
                   ~ forced_iname_deps insn ⊆ all_inames knl
  end.
Proof. exact (check_for_nonexistent_iname_deps_characterised knl). Qed.

(* ===================================================================== *)
(** ** Running a pass again *)
(* ===================================================================== *)

Lemma tag_reduction_ok_inv knl knl' :
  tag_reduction_inames_as_sequential knl = Ok knl' ->
  exists s m,
    collect_reduction_inames knl = Ok s /\
    fold_result (tag_step knl) (elements s) ∅ = Ok m /\
    knl' = tag_inames knl m.
Proof.
  unfold tag_reduction_inames_as_sequential.
  intros (s & Hs & H)%bind_ok_inv.
  apply bind_ok_inv in H as (m & Hm & [= <-]). eauto.
Qed.

(** What the pass leaves: every reduction index it collected is tagged,
    and not parallel. *)
Lemma tag_reduction_result_tags knl (s : gset string) m i :
  fold_result (tag_step knl) (elements s) ∅ = Ok m ->
  i ∈ s ->
  exists t, iname_to_tag (tag_inames knl m) !! i = Some t /\
            is_ParallelTag t = false.
Proof.
  intros Hm Hi. pose proof (tag_loop_spec knl (elements s) ∅) as H.
  rewrite Hm in H. destruct H as [Hnp Hlook].
  apply elem_of_elements in Hi. cbn [tag_inames iname_to_tag].
  destruct (iname_to_tag knl !! i) as [t|] eqn:Ht.
  - exists t. split; [|by eapply Hnp].
    apply lookup_union_Some_raw. right. split; [|done].
    rewrite Hlook. rewrite decide_False; [done|]. intros [_ ?]; congruence.
  - exists ForceSequentialTag. split; [|done].
    apply lookup_union_Some_raw. left.
    rewrite Hlook. by rewrite decide_True.
Qed.

(** X9.  The reduction-sequencing pass is idempotent: run on its own
    result it succeeds and returns that result unchanged. *)
Theorem tag_reduction_inames_as_sequential_idempotent
    (knl knl' : LoopKernel) :
  tag_reduction_inames_as_sequential knl = Ok knl' ->
  tag_reduction_inames_as_sequential knl' = Ok knl'.
Proof.
  intros (s & m & Hs & Hm & ->)%tag_reduction_ok_inv.
  unfold tag_reduction_inames_as_sequential.
  change (collect_reduction_inames (tag_inames knl m))
    with (collect_reduction_inames knl).
  rewrite Hs, bind_Ok.
  pose proof (tag_loop_spec (tag_inames knl m) (elements s) ∅) as H.
  destruct (fold_result (tag_step (tag_inames knl m)) (elements s) ∅)
    as [m2|e].
  - destruct H as [_ Hlook]. rewrite bind_Ok.
    assert (m2 = ∅) as ->.
    { apply map_eq. intros i. rewrite Hlook, lookup_empty.
      rewrite decide_False; [done|]. intros [Hi Hnone].
      apply elem_of_elements in Hi.
      destruct (tag_reduction_result_tags knl s m i Hm Hi) as (t & Ht & _).
      congruence. }
    unfold tag_inames. cbn [domains iname_to_tag instructions args
                            temporary_variables substitutions].
    by rewrite (left_id_L ∅ (∪)).
  - exfalso. destruct H as (i & t & Hi & Ht & Hpar & _).
    apply elem_of_elements in Hi.
    destruct (tag_reduction_result_tags knl s m i Hm Hi) as (t' & Ht' & Hnp).
    congruence.
Qed.

Lemma tag_reduction_idempotent_witness :
  tag_reduction_inames_as_sequential
    (tag_inames knl_reduction {["j" := ForceSequentialTag]})
  = Ok (tag_inames knl_reduction {["j" := ForceSequentialTag]}).
Proof.
  apply (tag_reduction_inames_as_sequential_idempotent knl_reduction).
  vm_compute. reflexivity.
Defined.

Lemma create_temporaries_loop_undeclared find knl l ni tvs :
  (forall insn, insn ∈ l -> temp_var_type insn = None) ->
  fold_result (create_temporaries_step find knl) l (ni, tvs)
  = Ok ((ni ++ l)%list, tvs).
Proof.
  revert ni; induction l as [|insn l IH]; intros ni H; cbn [fold_result].
  - by rewrite app_nil_r.
  - rewrite create_temporaries_step_undeclared by (apply H; by left).
    rewrite bind_Ok, IH by (intros x Hx; apply H; by right).
    by rewrite <- app_assoc.
Qed.

Lemma create_temporaries_ok_inv find knl knl' :
  create_temporaries find knl = Ok knl' ->
  exists tvs,
    fold_result (create_temporaries_step find knl) (instructions knl)
      ([], temporary_variables knl)
    = Ok (map clear_declared (instructions knl), tvs) /\
    knl' = {| domains := domains knl;
              iname_to_tag := iname_to_tag knl;
              instructions := map clear_declared (instructions knl);
              args := args knl;
              temporary_variables := tvs;
              substitutions := substitutions knl |}.
Proof.
  unfold create_temporaries.
  pose proof (create_temporaries_loop find knl (instructions knl) []
                (temporary_variables knl)) as H.
  destruct (fold_result _ _ _) as [[ni tvs]|e];
    [rewrite bind_Ok | by rewrite bind_Raise].
  destruct H as (-> & _). cbn [fst snd app]. intros [= <-]. eauto.
Qed.

(** X10.  The temporary-synthesis pass is idempotent: its result carries
    no declared-type marker, and run on its own result the pass succeeds
    and returns it unchanged. *)
Theorem create_temporaries_idempotent
    (find : LoopKernel -> list string -> list expr * list expr)
    (knl knl' : LoopKernel) :
  create_temporaries find knl = Ok knl' ->
  create_temporaries find knl' = Ok knl'.
Proof.
  intros (tvs & _ & ->)%create_temporaries_ok_inv.
  unfold create_temporaries.
  cbn [domains iname_to_tag instructions args temporary_variables
       substitutions].
  rewrite create_temporaries_loop_undeclared.
  - by rewrite bind_Ok.
  - intros insn (x & -> & _)%list_elem_of_fmap.
    apply temp_var_type_clear_declared.
Qed.

Lemma create_temporaries_idempotent_witness :
  exists knl',
    create_temporaries no_shape (knl_declare (LSubscript "tmp" [Var "i"]))
      = Ok knl' /\
    create_temporaries no_shape knl' = Ok knl'.
Proof.
  eexists. split; [vm_compute; reflexivity|].
  apply (create_temporaries_idempotent no_shape
           (knl_declare (LSubscript "tmp" [Var "i"]))).
  vm_compute. reflexivity.
Defined.

Lemma cse_image_free M e :
  (forall kv, kv ∈ M -> cse_free (snd kv) = true) ->
  cse_free (cse_image M e) = true.
Proof.
  intros HM.
  assert (Hlist : forall es,
    Forall (fun e => cse_free (cse_image M e) = true) es ->
    forallb cse_free (map (cse_image M) es) = true).
  { induction 1 as [|x es Hx _ IH]; cbn [map forallb]; [done|].
    by rewrite Hx, IH. }
  induction e as [n|z|es IH|es IH|a idx IHa IH|f ps IHf IH|op ins b IH|c p d IH]
    using expr_ind'; cbn [cse_image cse_free]; auto.
  - by rewrite IHa, Hlist.
  - by rewrite IHf, Hlist.
  - destruct (memo_lookup c M) as [v|] eqn:Hc; [|done].
    apply memo_lookup_Some_elem in Hc. exact (HM _ Hc).
Qed.

Lemma cseam_free knl e :
  cse_free e = true -> forall st, cseam knl e st = (e, st).
Proof.
  assert (Hlist : forall es,
    Forall (fun e => cse_free e = true ->
                     forall st, cseam knl e st = (e, st)) es ->
    forallb cse_free es = true ->
    forall st, map_state (cseam knl) es st = (es, st)).
  { induction 1 as [|x es Hx _ IH]; cbn [forallb map_state]; [done|].
    intros [H1 H2]%andb_prop st. by rewrite (Hx H1), (IH H2). }
  induction e as [n|z|es IH|es IH|a idx IHa IH|f ps IHf IH|op ins b IH|c p d IH]
    using expr_ind'; cbn [cse_free cseam]; intros Hf st.
  - done.
  - done.
  - by rewrite (Hlist es IH Hf).
  - by rewrite (Hlist es IH Hf).
  - apply andb_prop in Hf as [H1 H2].
    by rewrite (IHa H1), (Hlist idx IH H2).
  - apply andb_prop in Hf as [H1 H2].
    by rewrite (IHf H1), (Hlist ps IH H2).
  - by rewrite (IH Hf).
  - discriminate.
Qed.

Lemma with_expression_same insn : with_expression insn (expression insn) = insn.
Proof. by destruct insn. Qed.

Lemma expand_cses_fold_free knl l st :
  (forall insn, insn ∈ l -> cse_free (expression insn) = true) ->
  fold_left (fun st insn => expand_cses_step knl insn st) l st
  = shadow st (new_insns st ++ l).
Proof.
  revert st; induction l as [|insn l IH]; intros st H; cbn [fold_left].
  - rewrite app_nil_r. by destruct st.
  - rewrite IH by (intros x Hx; apply H; by right).
    unfold expand_cses_step. rewrite cseam_free by (apply H; by left).
    rewrite with_expression_same. unfold shadow.
    cbn [expr_to_var existing_names new_insns newly_created_insn_ids
         new_temp_vars]. by rewrite <- app_assoc.
Qed.

(** After the flattening pass no instruction holds a tagged node, and no
    instruction that carried no declared-type marker carries one. *)
Lemma expand_cses_instructions knl insn :
  insn ∈ instructions (expand_cses knl) ->
  cse_free (expression insn) = true /\
  ((forall x, x ∈ instructions knl -> temp_var_type x = None) ->
   temp_var_type insn = None) /\
  (forced_iname_deps insn = ∅ \/
   exists x, x ∈ instructions knl /\
             forced_iname_deps insn = forced_iname_deps x).
Proof.
  destruct (run_inv_final knl) as (D & H & G & Hperm & _).
  intros Hin. change (instructions (expand_cses knl))
    with (new_insns (expand_cses_run knl)) in Hin.
  rewrite Hperm in Hin.
  assert (HM : forall kv, kv ∈ expr_to_var (expand_cses_run knl) ->
                          cse_free (snd kv) = true).
  { pose proof (grows_memo _ _ _ _ G) as Hmemo.
    cbn [shadow expr_to_var expand_cses_init] in Hmemo.
    rewrite app_nil_r in Hmemo. rewrite Hmemo.
    pose proof (grows_vars _ _ _ _ G) as HF. rewrite Forall_forall in HF.
    intros kv Hkv. by rewrite (HF kv Hkv). }
  apply elem_of_app in Hin as [Hin|Hin].
  - destruct (Forall2_left_elem _ _ _ insn (grows_hoisted _ _ _ _ G) Hin)
      as (kv & _ & _ & id_ & ->).
    cbn [assignment_insn expression temp_var_type forced_iname_deps].
    split; [by apply cse_image_free|]. split; [done | by left].
  - apply list_elem_of_fmap in Hin as (x & -> & Hx).
    unfold rewritten, with_expression.
    cbn [expression temp_var_type forced_iname_deps].
    split; [by apply cse_image_free|]. split; [auto|]. right. eauto.
Qed.

(** X11.  The flattening pass leaves no tagged common-subexpression node
    in any instruction, and it is idempotent: run on its own result it
    returns that result unchanged. *)
Theorem expand_cses_idempotent (knl : LoopKernel) :
  (forall insn, insn ∈ instructions (expand_cses knl) ->
                cse_free (expression insn) = true) /\
  expand_cses (expand_cses knl) = expand_cses knl.
Proof.
  assert (Hfree : forall insn, insn ∈ instructions (expand_cses knl) ->
                               cse_free (expression insn) = true).
  { intros insn Hin. by apply expand_cses_instructions in Hin as [? _]. }
  split; [exact Hfree|].
  unfold expand_cses at 1. unfold expand_cses_run.
  rewrite expand_cses_fold_free by exact Hfree.
  reflexivity.
Qed.

(* ===================================================================== *)
(** ** The kernel [make_kernel] returns *)
(* ===================================================================== *)

Lemma check_for_multiple_writes_characterised knl :
  check_for_multiple_writes_to_loop_bounds knl = Ok tt ->
  forall tvpar, tvpar ∈ temp_var_domain_parameters knl ->
                length (writer_map knl tvpar) = 1.
Proof.
  unfold check_for_multiple_writes_to_loop_bounds. intros Hok.
  match type of Hok with
  | fold_result ?f _ _ = _ =>
      destruct (fold_check_dep f
        (fun tvpar => length (writer_map knl tvpar) ≠ 1)
        (fun tvpar => RuntimeError
           (multiple_writes_message tvpar (length (writer_map knl tvpar))))
        (elements (temp_var_domain_parameters knl)))
        as [[_ H]|(x & _ & _ & Hr)]
  end.
  - intros x _. cbv beta zeta. case_decide; [right | left]; split; auto.
  - intros tvpar Hin. apply elem_of_elements in Hin.
    specialize (H tvpar Hin). by apply dec_stable in H.
  - rewrite Hr in Hok. discriminate.
Qed.

Lemma all_inames_domains k1 k2 :
  domains k1 = domains k2 -> all_inames k1 = all_inames k2.
Proof. unfold all_inames. by intros ->. Qed.

Lemma forced_iname_deps_clear_declared insn :
  forced_iname_deps (clear_declared insn) = forced_iname_deps insn.
Proof. unfold clear_declared. by destruct (temp_var_type insn). Qed.

(** X12.  What holds of every kernel the passes of [make_kernel] return.
    Its domains, arguments and substitution rules are those of the kernel
    it was built from; its four namespaces are pairwise disjoint; every
    instruction writes an argument or a temporary, carries no declared-type
    marker, holds no tagged common subexpression and forces dependencies
    on existing loop indices only; every temporary that is a domain
    parameter has one writer; every reduction loop index of the original
    instructions is tagged, and not parallel; and no reduction of the
    original kernel names a loop index that begins with [@]. *)
Theorem make_kernel_passes_postcondition
    (find : LoopKernel -> list string -> list expr * list expr)
    (knl knl' : LoopKernel) :
  make_kernel_passes find knl = Ok knl' ->
  domains knl' = domains knl /\ args knl' = args knl /\
  substitutions knl' = substitutions knl /\
  namespaces_disjoint knl' /\
  (forall insn, insn ∈ instructions knl' ->
     (get_assignee_var_name insn ∈ map arg_name (args knl') \/
      get_assignee_var_name insn ∈ dom (temporary_variables knl')) /\
     temp_var_type insn = None /\
     cse_free (expression insn) = true /\
     forced_iname_deps insn ⊆ all_inames knl') /\
  (forall tvpar, tvpar ∈ temp_var_domain_parameters knl' ->
                 length (writer_map knl' tvpar) = 1) /\
  (forall i, insn_reduction_iname knl i ->
     exists t, iname_to_tag knl' !! i = Some t /\ is_ParallelTag t = false) /\
  (forall insn, insn ∈ instructions knl ->
                ~ duplication_request (expression insn)) /\
  (forall n rule, substitutions knl !! n = Some rule ->
                  ~ duplication_request (sr_expression rule)).
Proof.
  unfold make_kernel_passes.
  intros ([] & Hdeps & H)%bind_ok_inv.
  apply bind_ok_inv in H as ([] & Hdup & H).
  apply bind_ok_inv in H as (knl1 & Htag & H).
  apply bind_ok_inv in H as (knl2 & Htmp & H).
  cbv zeta in H.
  apply bind_ok_inv in H as ([] & Hwrites & H).
  apply bind_ok_inv in H as ([] & Hnames & H).
  apply bind_ok_inv in H as ([] & Hwritten & [= <-]).
  apply tag_reduction_ok_inv in Htag as (s & m & Hs & Hm & ->).
  apply create_temporaries_ok_inv in Htmp as (tvs & _ & ->).
  set (knl2 := {| domains := domains (tag_inames knl m);
                  iname_to_tag := iname_to_tag (tag_inames knl m);
                  instructions :=
                    map clear_declared (instructions (tag_inames knl m));
                  args := args (tag_inames knl m);
                  temporary_variables := tvs;
                  substitutions := substitutions (tag_inames knl m) |}) in *.
  assert (Hinames : all_inames (expand_cses knl2) = all_inames knl)
    by (by apply all_inames_domains).
  split; [done|]. split; [done|]. split; [done|].
  split.
  { pose proof (check_for_duplicate_names_characterised (expand_cses knl2))
      as H. by rewrite Hnames in H. }
  split.
  { intros insn Hin.
    pose proof (check_written_variable_names_characterised (expand_cses knl2))
      as Hw. rewrite Hwritten in Hw.
    destruct (expand_cses_instructions knl2 insn Hin) as (Hfree & Hty & Hforced).
    split; [by apply Hw|]. split.
    { apply Hty. intros x (y & -> & _)%list_elem_of_fmap.
      apply temp_var_type_clear_declared. }
    split; [done|]. rewrite Hinames.
    destruct Hforced as [->|(x & Hx & ->)]; [apply empty_subseteq|].
    apply list_elem_of_fmap in Hx as (y & -> & Hy).
    rewrite forced_iname_deps_clear_declared.
    pose proof (check_for_nonexistent_iname_deps_characterised knl) as Hd.
    rewrite Hdeps in Hd. by apply Hd. }
  split; [by apply check_for_multiple_writes_characterised|].
  split.
  { intros i Hi.
    destruct (collect_reduction_inames_spec knl) as (s' & Hs' & Hspec).
    rewrite Hs in Hs'. injection Hs' as <-. apply Hspec in Hi.
    exact (tag_reduction_result_tags knl s m i Hm Hi). }
  destruct (check_for_reduction_inames_duplication_requests_spec knl)
    as [(_ & Hi & Hsub)|[Hr _]]; [done|].
  rewrite Hr in Hdup. discriminate.
Qed.

Lemma make_kernel_passes_postcondition_witness :
  exists knl',
    make_kernel_passes no_shape (knl_declare (LSubscript "tmp" [Var "i"]))
      = Ok knl' /\
    namespaces_disjoint knl' /\
    map get_assignee_var_name (instructions knl') = ["tmp"; "out"].
Proof.
  eexists. split; [vm_compute; reflexivity|].
  split; [|reflexivity].
  eapply (make_kernel_passes_postcondition no_shape
            (knl_declare (LSubscript "tmp" [Var "i"]))).
  vm_compute. reflexivity.
Defined.

(* ===================================================================== *)
(** ** Identifiers of the hoisted assignments *)
(* ===================================================================== *)

Lemma ids_grow_refl knl st : ids_grow knl st st [].
Proof.
  split.
  - exists []. by rewrite app_nil_r.
  - cbn. by rewrite (left_id_L ∅ (∪)).
  - constructor.
  - intros i H; by apply elem_of_nil in H.
Qed.

Lemma ids_grow_trans knl st st1 st2 ids1 ids2 :
  ids_grow knl st st1 ids1 -> ids_grow knl st1 st2 ids2 ->
  ids_grow knl st st2 (ids1 ++ ids2).
Proof.
  intros G1 G2. split.
  - destruct (ids_insns _ _ _ _ G1) as (H1 & E1 & M1).
    destruct (ids_insns _ _ _ _ G2) as (H2 & E2 & M2).
    exists (H1 ++ H2)%list. rewrite E2, E1, app_assoc, !map_app, M1, M2. done.
  - rewrite (ids_created _ _ _ _ G2), (ids_created _ _ _ _ G1).
    rewrite list_to_set_app_L, (assoc_L (∪)).
    by rewrite (comm_L (∪) (list_to_set ids2)).
  - apply NoDup_app. split; [apply (ids_nodup _ _ _ _ G1)|].
    split; [|apply (ids_nodup _ _ _ _ G2)].
    intros i Hi1 Hi2. destruct (ids_fresh _ _ _ _ G2 i Hi2) as [Hnew _].
    apply Hnew. rewrite (ids_created _ _ _ _ G1).
    apply elem_of_union_l. by apply elem_of_list_to_set.
  - intros i [Hi|Hi]%elem_of_app.
    + apply (ids_fresh _ _ _ _ G1 i Hi).
    + destruct (ids_fresh _ _ _ _ G2 i Hi) as [Hnew Hk]. split; [|done].
      intros Hin. apply Hnew. rewrite (ids_created _ _ _ _ G1).
      by apply elem_of_union_r.
Qed.

Lemma ids_grow_hoist knl st k e p d :
  let r := add_assignment knl p e d st in
  ids_grow knl st (memoize k (Var (fst r)) (snd r))
    [make_unique_instruction_id knl (newly_created_insn_ids st)].
Proof.
  cbv zeta. rewrite add_assignment_eq. cbv zeta. cbn [fst snd].
  pose proof (unique_name_fresh
                (list_to_set (omap insn_id (instructions knl))
                   ∪ newly_created_insn_ids st) "insn") as Hfresh.
  fold (make_unique_instruction_id knl (newly_created_insn_ids st)) in Hfresh.
  split; unfold memoize;
    cbn [new_insns newly_created_insn_ids].
  - eexists. split; [reflexivity|]. reflexivity.
  - by rewrite list_to_set_singleton_var.
  - apply NoDup_singleton.
  - intros i ->%list_elem_of_singleton. split; intros Hin; apply Hfresh.
    + by apply elem_of_union_r.
    + by apply elem_of_union_l.
Qed.

Lemma map_state_cseam_ids knl es :
  Forall (cseam_ids knl) es ->
  forall st es' st',
    map_state (cseam knl) es st = (es', st') ->
    exists ids, ids_grow knl st st' ids.
Proof.
  induction 1 as [|e es He _ IH]; intros st es' st'; cbn [map_state].
  - intros [= <- <-]. exists []. apply ids_grow_refl.
  - destruct (cseam knl e st) as [e1 st1] eqn:E1.
    destruct (map_state (cseam knl) es st1) as [es1 st2] eqn:E2.
    intros [= <- <-].
    destruct (He _ _ _ E1) as [ids1 G1]. destruct (IH _ _ _ E2) as [ids2 G2].
    eexists. by eapply ids_grow_trans.
Qed.

Lemma cseam_meets_ids knl e : cseam_ids knl e.
Proof.
  induction e as [n|z|es IH|es IH|a idx IHa IH|f ps IHf IH|op ins b IH|c p d IH]
    using expr_ind'; intros st e' st'; cbn [cseam].
  - intros [= <- <-]. exists []. apply ids_grow_refl.
  - intros [= <- <-]. exists []. apply ids_grow_refl.
  - destruct (map_state (cseam knl) es st) as [es1 st1] eqn:E.
    intros [= <- <-]. by eapply map_state_cseam_ids.
  - destruct (map_state (cseam knl) es st) as [es1 st1] eqn:E.
    intros [= <- <-]. by eapply map_state_cseam_ids.
  - destruct (cseam knl a st) as [a1 st1] eqn:E1.
    destruct (map_state (cseam knl) idx st1) as [idx1 st2] eqn:E2.
    intros [= <- <-]. destruct (IHa _ _ _ E1) as [ids1 G1].
    destruct (map_state_cseam_ids knl idx IH _ _ _ E2) as [ids2 G2].
    eexists. by eapply ids_grow_trans.
  - destruct (cseam knl f st) as [f1 st1] eqn:E1.
    destruct (map_state (cseam knl) ps st1) as [ps1 st2] eqn:E2.
    intros [= <- <-]. destruct (IHf _ _ _ E1) as [ids1 G1].
    destruct (map_state_cseam_ids knl ps IH _ _ _ E2) as [ids2 G2].
    eexists. by eapply ids_grow_trans.
  - destruct (cseam knl b st) as [b1 st1] eqn:E1.
    intros [= <- <-]. by eapply IH.
  - destruct (memo_lookup c (expr_to_var st)) as [var|].
    + intros [= <- <-]. exists []. apply ids_grow_refl.
    + destruct (cseam knl c st) as [c1 st1] eqn:E1.
      destruct (IH _ _ _ E1) as [ids1 G1].
      destruct (is_Variable c1).
      * intros [= <- <-]. by exists ids1.
      * pose proof (ids_grow_hoist knl st1 c c1 p d) as G2. cbv zeta in G2.
        destruct (add_assignment knl p c1 d st1) as [var_name st2].
        cbn [fst snd] in G2. intros [= <- <-].
        eexists. by eapply ids_grow_trans.
Qed.

Lemma ids_inv_step knl seen insn st :
  ids_inv knl seen st ->
  ids_inv knl (seen ++ [insn]) (expand_cses_step knl insn st).
Proof.
  intros (ids & Hc & Hnd & Hk & Hperm). unfold expand_cses_step.
  destruct (cseam knl (expression insn) st) as [e' st1] eqn:E.
  destruct (cseam_meets_ids knl _ _ _ _ E) as [ids1 G].
  destruct (ids_insns _ _ _ _ G) as (Hs & EH & MH).
  exists (ids ++ ids1)%list. cbn [newly_created_insn_ids new_insns].
  split; [|split; [|split]].
  - rewrite (ids_created _ _ _ _ G), Hc, list_to_set_app_L.
    apply (comm_L (∪)).
  - apply NoDup_app. split; [done|]. split; [|apply (ids_nodup _ _ _ _ G)].
    intros i Hi Hi1. destruct (ids_fresh _ _ _ _ G i Hi1) as [Hnew _].
    apply Hnew. rewrite Hc. by apply elem_of_list_to_set.
  - intros i [Hi|Hi]%elem_of_app; [by apply Hk|].
    by destruct (ids_fresh _ _ _ _ G i Hi).
  - rewrite EH, !map_app, MH, Hperm. cbn [map with_expression insn_id].
    rewrite <- !app_assoc. apply Permutation_app_head.
    rewrite !app_assoc. apply Permutation_app_tail.
    apply Permutation_app_comm.
Qed.

Lemma ids_inv_fold knl rest seen st :
  ids_inv knl seen st ->
  ids_inv knl (seen ++ rest)
    (fold_left (fun st insn => expand_cses_step knl insn st) rest st).
Proof.
  revert seen st; induction rest as [|insn rest IH]; intros seen st Hinv;
    cbn [fold_left].
  - by rewrite app_nil_r.
  - replace (seen ++ insn :: rest)%list with ((seen ++ [insn]) ++ rest)%list
      by (by rewrite <- app_assoc).
    apply IH. by apply ids_inv_step.
Qed.

(** X13.  The identifiers the flattening pass gives to the assignments it
    creates are pairwise distinct and differ from every identifier of the
    kernel's instructions, which keep theirs; so a kernel whose
    instructions have pairwise distinct identifiers still has after the
    pass. *)
Theorem expand_cses_fresh_ids (knl : LoopKernel) :
  exists ids,
    NoDup ids /\
    (forall i, i ∈ ids -> Some i ∉ map insn_id (instructions knl)) /\
    Permutation (map insn_id (instructions (expand_cses knl)))
      (map Some ids ++ map insn_id (instructions knl)) /\
    (NoDup (map insn_id (instructions knl)) ->
     NoDup (map insn_id (instructions (expand_cses knl)))).
Proof.
  destruct (ids_inv_fold knl (instructions knl) [] (expand_cses_init knl))
    as (ids & _ & Hnd & Hk & Hperm).
  { exists []. split; [done|]. split; [constructor|].
    split; [|done]. intros i H; by apply elem_of_nil in H. }
  assert (Hnot : forall i, i ∈ ids ->
                           Some i ∉ map insn_id (instructions knl)).
  { intros i Hi (insn & Hid & Hin)%list_elem_of_fmap.
    apply (Hk i Hi). unfold kernel_ids. apply elem_of_list_to_set.
    apply list_elem_of_omap. exists insn. split; [done | by symmetry]. }
  exists ids. split; [done|]. split; [done|].
  change (instructions (expand_cses knl))
    with (new_insns (expand_cses_run knl)).
  unfold expand_cses_run. cbn [app] in Hperm.
  split; [exact Hperm|].
  intros Hold. rewrite Hperm. apply NoDup_app. split.
  - apply NoDup_fmap_2; [|done]. by intros x y [= ->].
  - split; [|done]. intros o (i & -> & Hi)%list_elem_of_fmap.
    by apply Hnot.
Qed.

(* ===================================================================== *)
(** ** loopy/library/function.py, continued *)
(* ===================================================================== *)

Lemma IndexOfCallable_types_lookup m idt (k : arg_id) :
  IndexOfCallable_types m idt !! k
  = if decide (k = inl (-1)%Z) then Some idt
    else match m !! k with
         | Some (Some t) => Some (Some t)
         | _ => None
         end.
Proof.
  unfold IndexOfCallable_types. destruct (decide (k = inl (-1)%Z)) as [->|Hk].
  - by rewrite lookup_insert_eq.
  - rewrite lookup_insert_ne by done.
    destruct (m !! k) as [[t|]|] eqn:Hm.
    + apply map_lookup_filter_Some. by split.
    + apply map_lookup_filter_None. right. intros x Hx.
      rewrite Hm in Hx. injection Hx as <-. cbn. by intros H.
    + apply map_lookup_filter_None. by left.
Qed.

(** X14.  [IndexOfCallable.with_types] keeps the name of the callable and
    the second component; in the new mapping the result position [-1]
    holds the index type of the kernel, whatever the input held there,
    every other key holds its input type when that is known and is absent
    otherwise; and inferring again from the new mapping changes
    nothing. *)
Theorem IndexOfCallable_with_types_spec {Info : Type}
    (self : ScalarCallable) (m : gmap arg_id (option string))
    (index_dtype : option string) (info : Info) :
  exists new,
    IndexOfCallable_with_types self m index_dtype info
    = ({| sc_name := sc_name self;
          sc_name_in_target := sc_name_in_target self;
          sc_arg_id_to_dtype := Some new |}, info) /\
    new !! (inl (-1)%Z : arg_id) = Some index_dtype /\
    (forall (k : arg_id) t, k <> inl (-1)%Z ->
       new !! k = Some t <-> (t <> None /\ m !! k = Some t)) /\
    IndexOfCallable_types new index_dtype = new.
Proof.
  exists (IndexOfCallable_types m index_dtype).
  split; [reflexivity|]. split.
  { rewrite IndexOfCallable_types_lookup. by destruct (decide _). }
  split.
  - intros k t Hk. rewrite IndexOfCallable_types_lookup.
    destruct (decide _) as [|_]; [done|].
    destruct (m !! k) as [[t'|]|]; split.
    + intros [= <-]. by split.
    + by intros [_ ?].
    + done.
    + intros [Ht [= <-]]. done.
    + done.
    + by intros [_ ?].
  - apply map_eq. intros k. rewrite !IndexOfCallable_types_lookup.
    destruct (decide _) as [|_]; [done|].
    by destruct (m !! k) as [[t'|]|].
Qed.

Lemma with_types_fixed (m new : gmap arg_id (option string)) (n : nat)
    (l : list nat) :
  (forall k, argument_key k -> new !! k = m !! k) ->
  (forall (i : nat) t,
      i < n -> m !! (inl (Z.of_nat i) : arg_id) = Some (Some t) ->
      new !! (inl (- Z.of_nat i - 1)%Z : arg_id) = Some (Some t)) ->
  (forall (i : nat) t,
      m !! (inl (Z.of_nat i) : arg_id) = Some (Some t) -> i < n) ->
  fold_result (with_types_step new) l new = Ok new.
Proof.
  intros Hkeep Hres Hdense. induction l as [|i l IH]; [done|].
  cbn [fold_result].
  assert (E : with_types_step new i new = Ok new);
    [|by rewrite E, bind_Ok].
  unfold with_types_step.
  rewrite (Hkeep (inl (Z.of_nat i))) by (simpl; lia).
  destruct (m !! (inl (Z.of_nat i) : arg_id)) as [[t|]|] eqn:Hm;
    try reflexivity.
  rewrite insert_id; [reflexivity|].
  apply (Hres i t); [by eapply Hdense | done].
Qed.

(** X15.  On a mapping whose known argument positions all lie below its
    number of entries, the type inference of the tuple-packing callable is
    idempotent: a second run on the mapping it returned returns that
    mapping again. *)
Theorem MakeTupleCallable_types_idempotent
    (m : gmap arg_id (option string))
    (Hdense : forall (i : nat) t,
        m !! (inl (Z.of_nat i) : arg_id) = Some (Some t) -> i < size m) :
  exists new,
    MakeTupleCallable_types m = Ok new /\
    MakeTupleCallable_types new = Ok new.
Proof.
  destruct (with_types_loop m (size m)) as (new & Hf & Hkeep & Hres).
  exists new. split; [exact Hf|].
  unfold MakeTupleCallable_types. by eapply with_types_fixed.
Qed.

Lemma MakeTupleCallable_types_idempotent_witness :
  exists new,
    MakeTupleCallable_types
      {[ (inl 0%Z : arg_id) := Some "float64";
         (inl 1%Z : arg_id) := Some "int32" ]} = Ok new /\
    MakeTupleCallable_types new = Ok new.
Proof.
  apply MakeTupleCallable_types_idempotent.
  intros i t Hi.
  destruct i as [|[|i]]; [vm_compute; lia | vm_compute; lia |].
  exfalso. rewrite lookup_insert_ne in Hi by (intros [=]; lia).
  rewrite lookup_singleton_ne in Hi by (intros [=]; lia). discriminate.
Defined.

(* ===================================================================== *)
(** ** parse_domains on sets already built *)
(* ===================================================================== *)

Lemma dim_loop_complete d names i used avail :
  NoDup names -> (forall n, n ∈ names -> n ∉ used) ->
  fold_result (dim_step d) (map Some names) (i, used, avail)
  = Ok (i + length names, list_to_set names ∪ used,
        list_to_set names ∪ avail).
Proof.
  revert i used avail; induction names as [|n names IH];
    intros i used avail Hnd Hfresh; cbn [map fold_result].
  - cbn. by rewrite Nat.add_0_r, !(left_id_L ∅ (∪)).
  - apply NoDup_cons in Hnd as [Hn Hnd]. cbn [dim_step].
    destruct (decide (n ∈ used)) as [Hin|_].
    { exfalso. apply (Hfresh n); [apply list_elem_of_here | done]. }
    rewrite bind_Ok, IH; [|done|].
    + cbn [length list_to_set]. f_equal. f_equal; [f_equal; [lia|]|].
      * apply union_swap.
      * apply union_swap.
    + intros n' Hn' [->%elem_of_singleton|Hu]%elem_of_union; [done|].
      apply (Hfresh n'); [by apply list_elem_of_further | done].
Qed.

Lemma map_Some_app_inv (l1 l2 : list (option string)) names :
  (l1 ++ l2)%list = map Some names ->
  exists n1 n2, names = (n1 ++ n2)%list /\ l1 = map Some n1 /\
                l2 = map Some n2.
Proof.
  revert names; induction l1 as [|x l1 IH]; intros names; cbn [app].
  - intros ->. by exists [], names.
  - destruct names as [|n names]; [done|]. cbn [map]. intros [= -> H].
    destruct (IH _ H) as (n1 & n2 & -> & -> & ->).
    by exists (n :: n1), n2.
Qed.

Lemma map_Some_inj (n1 n2 : list string) :
  map Some n1 = map Some n2 -> n1 = n2.
Proof.
  revert n2; induction n1 as [|x n1 IH]; intros [|y n2]; try done.
  cbn [map]. intros [= -> H]. f_equal. by apply IH.
Qed.

Lemma parse_domains_loop_prebuilt read defines ds res avail used :
  match parse_domains_loop read defines (map DomainSet ds)
          (res, avail, used) with
  | Ok (res', _, _) => res' = (res ++ ds)%list /\ fresh_dims ds used
  | Raise e => (exists msg, e = RuntimeError msg) /\ ~ fresh_dims ds used
  end.
Proof.
  unfold parse_domains_loop.
  revert res avail used; induction ds as [|d ds IH]; intros res avail used;
    cbn [map fold_result].
  - rewrite app_nil_r. split; [done|]. exists []. split; [done|].
    split; [constructor|]. intros n H; by apply elem_of_nil in H.
  - pose proof (parse_domain_step_resolved read defines (DomainSet d)
                  res avail used d eq_refl) as Hstep.
    destruct (parse_domain_step read defines (DomainSet d)
                (res, avail, used)) as [[[res1 avail1] used1]|e] eqn:Estep.
    + destruct Hstep as (names1 & Hd & Hnd1 & Hfresh1 & -> & -> & ->).
      rewrite bind_Ok.
      specialize (IH (res ++ [d])%list (list_to_set names1 ∪ avail)
                    (list_to_set names1 ∪ used)).
      destruct (fold_result _ _ _) as [[[res2 avail2] used2]|e].
      * destruct IH as [-> (names2 & Hds & Hnd2 & Hfresh2)].
        split; [by rewrite <- app_assoc|].
        exists (names1 ++ names2)%list. cbn [map concat].
        rewrite Hd, Hds, map_app. split; [done|]. split.
        -- apply NoDup_app. split; [done|]. split; [|done].
           intros n Hn1 Hn2. apply (Hfresh2 n Hn2).
           apply elem_of_union_l. by apply elem_of_list_to_set.
        -- intros n [Hn|Hn]%elem_of_app; [by apply Hfresh1|].
           intros Hu. apply (Hfresh2 n Hn). by apply elem_of_union_r.
      * destruct IH as [He Hno]. split; [done|].
        intros (names & Hall & Hnd & Hfresh). apply Hno.
        cbn [map concat] in Hall.
        apply map_Some_app_inv in Hall as (n1 & n2 & -> & Hd1 & Hds).
        rewrite Hd in Hd1. apply map_Some_inj in Hd1 as ->.
        apply NoDup_app in Hnd as (_ & Hdisj & Hnd2).
        exists n2. split; [done|]. split; [done|].
        intros n Hn [Hin|Hin]%elem_of_union.
        -- apply elem_of_list_to_set in Hin. by apply (Hdisj n).
        -- apply (Hfresh n); [|done]. apply elem_of_app. by right.
    + rewrite bind_Raise. split.
      { destruct Hstep as [(k & -> & _)|(n & -> & _)]; eauto. }
      intros (names & Hall & Hnd & Hfresh).
      cbn [map concat] in Hall.
      apply map_Some_app_inv in Hall as (n1 & n2 & -> & Hd1 & _).
      apply NoDup_app in Hnd as (Hnd1 & _ & _).
      assert (E : parse_domain_step read defines (DomainSet d)
                    (res, avail, used)
                  = Ok ((res ++ [d])%list, list_to_set n1 ∪ avail,
                        list_to_set n1 ∪ used)).
      { unfold parse_domain_step. cbn [resolve_domain]. rewrite bind_Ok.
        rewrite Hd1, (dim_loop_complete d n1 0 used avail), bind_Ok; [done..|].
        intros n Hn. apply Hfresh. apply elem_of_app. by left. }
      rewrite E in Estep. discriminate.
Qed.

(** X16.  On a list of sets already built, [parse_domains] returns the list
    itself exactly when every dimension of every set is named and no name
    occurs twice; in every other case it raises a RuntimeError.  Neither
    the parser of the polyhedral library, nor the macros, nor the names
    of arguments and variables play a part: a loop index may bear the name
    of a scalar argument. *)
Theorem parse_domains_prebuilt
    (read : string -> option BasicSet)
    (defines : gmap string define_value)
    (args_and_vars : gset string) (ds : list BasicSet) :
  match parse_domains read defines args_and_vars (map DomainSet ds) with
  | Ok result => result = ds /\ distinctly_named ds
  | Raise e => (exists msg, e = RuntimeError msg) /\ ~ distinctly_named ds
  end.
Proof.
  unfold parse_domains.
  pose proof (parse_domains_loop_prebuilt read defines ds [] args_and_vars ∅)
    as H.
  destruct (parse_domains_loop _ _ _ _) as [[[res avail] used]|e].
  - rewrite bind_Ok. cbn [fst]. destruct H as [-> (names & ? & ? & _)].
    split; [done|]. by exists names.
  - rewrite bind_Raise. destruct H as [He Hno]. split; [done|].
    intros (names & ? & ?). apply Hno. exists names.
    split; [done|]. split; [done|]. intros n _. apply not_elem_of_empty.
Qed.

(* ===================================================================== *)
(** ** parse_if_necessary and the parsing loop of make_kernel *)
(* ===================================================================== *)











Lemma yield_all_fold {A B} (f : A -> result (list B)) l acc :
  fold_result (fun x acc => ys ← f x; Ok (acc ++ ys)%list) l acc
  = (ys ← yield_all f l; Ok (acc ++ ys)%list).
Proof.
  unfold yield_all. revert acc; induction l as [|x l IH]; intros acc;
    cbn [fold_result].
  - by rewrite bind_Ok, app_nil_r.
  - destruct (f x) as [ys|e]; [|by rewrite !bind_Raise].
    rewrite !bind_Ok, app_nil_l, (IH (acc ++ ys)%list), (IH ys).
    destruct (fold_result _ l []) as [zs|e]; [|by rewrite !bind_Raise].
    by rewrite !bind_Ok, app_assoc.
Qed.

Lemma yield_all_cons {A B} (f : A -> result (list B)) x l :
  yield_all f (x :: l)
  = (ys ← f x; zs ← yield_all f l; Ok (ys ++ zs)%list).
Proof.
  unfold yield_all at 1. cbn [fold_result].
  destruct (f x) as [ys|e]; [|by rewrite !bind_Raise].
  by rewrite !bind_Ok, app_nil_l, yield_all_fold.
Qed.




Lemma collect_items_spec items insns subs :
  let st := fold_left collect_item items (insns, subs) in
  fst st = (insns ++ instructions_of items)%list /\
  (forall n,
     snd st !! n
     = match last (filter (fun r => sr_name r = n) (rules_of items)) with
       | Some r => Some r
       | None => subs !! n
       end).
Proof.
  cbv zeta. revert insns subs; induction items as [|it items IH];
    intros insns subs; cbn [fold_left].
  - cbn. split; [by rewrite app_nil_r | done].
  - destruct it as [i|r]; cbn [collect_item fst snd].
    + destruct (IH (insns ++ [i])%list subs) as [Hi Hs].
      split; [by rewrite Hi, <- app_assoc|]. exact Hs.
    + destruct (IH insns (<[sr_name r := r]> subs)) as [Hi Hs].
      split; [exact Hi|]. intros n. rewrite Hs.
      change (rules_of (ParsedSubstitutionRule r :: items))
        with (r :: rules_of items).
      destruct (decide (sr_name r = n)) as [Hn|Hn].
      * rewrite filter_cons_True by done.
        destruct (filter _ (rules_of items)) as [|r' rs] eqn:E.
        -- cbn [last]. rewrite <- Hn. by rewrite lookup_insert_eq.
        -- change (last (r :: r' :: rs)) with (last (r' :: rs)).
           destruct (last (r' :: rs)) eqn:El; [done|].
           by apply last_None in El.
      * rewrite filter_cons_False by done.
        destruct (last _); [done|]. by rewrite lookup_insert_ne.
Qed.

Lemma make_kernel_parse_fold parse_insn defines instructions st :
  fold_result
    (fun insn st =>
       items ← parse_if_necessary parse_insn defines insn;
       Ok (fold_left collect_item items st))
    instructions st
  = (items ← yield_all (parse_if_necessary parse_insn defines) instructions;
     Ok (fold_left collect_item items st)).
Proof.
  revert st; induction instructions as [|insn instructions IH]; intros st;
    [done|].
  cbn [fold_result]. rewrite yield_all_cons.
  destruct (parse_if_necessary parse_insn defines insn) as [ys|e];
    [|reflexivity].
  rewrite !bind_Ok, IH.
  destruct (yield_all _ instructions) as [zs|e]; [|reflexivity].
  by rewrite !bind_Ok, fold_left_app.
Qed.

(** X18.  The parsing loop of [make_kernel] fails with the first error of
    [parse_if_necessary]; otherwise, of all the items yielded for the
    elements in order, the instructions are kept in that order, objects
    given as such included, and under each name the substitution rule
    yielded last is kept: an earlier rule of the same name is replaced
    without an error. *)
Theorem make_kernel_parse_spec
    (parse_insn : string -> result parsed_item)
    (defines : gmap string define_value)
    (instructions : list insn_input) :
  match make_kernel_parse parse_insn defines instructions with
  | Ok (parsed_instructions, substitutions) =>
      exists items,
        yield_all (parse_if_necessary parse_insn defines) instructions
        = Ok items /\
        parsed_instructions = instructions_of items /\
        (forall n,
           substitutions !! n
           = last (filter (fun r => sr_name r = n) (rules_of items)))
  | Raise e =>
      yield_all (parse_if_necessary parse_insn defines) instructions
      = Raise e
  end.
Proof.
  unfold make_kernel_parse. rewrite make_kernel_parse_fold.
  destruct (yield_all _ instructions) as [items|e]; [|reflexivity].
  rewrite bind_Ok.
  pose proof (collect_items_spec items [] ∅) as H. cbv zeta in H.
  destruct (fold_left collect_item items ([], ∅)) as [insns subs].
  cbn [fst snd] in H. destruct H as [-> Hs].
  exists items. split; [done|]. split; [done|].
  intros n. rewrite Hs. destruct (last _); [done|]. apply lookup_empty.
Qed.

(* ===================================================================== *)
(** ** The identifiers of a text *)
(* ===================================================================== *)

Lemma word_runs_app s1 c s2 cur :
  is_word_char c = false ->
  word_runs (s1 +:+ String c s2) cur
  = (word_runs s1 cur ++ word_runs s2 "")%list.
Proof.
  intros Hc. revert cur; induction s1 as [|a s1 IH]; intros cur; simpl.
  - by rewrite Hc.
  - destruct (is_word_char a); [apply IH|].
    by rewrite IH, app_assoc.
Qed.

(** X19.  The identifiers of two texts joined by a character that is not a
    word character are those of the first text and those of the second:
    no identifier is made across the joint, none is lost. *)
Theorem gather_identifiers_join (s1 s2 : string) (c : ascii) :
  is_word_char c = false ->
  _gather_identifiers (s1 +:+ String c s2)
  = _gather_identifiers s1 ∪ _gather_identifiers s2.
Proof.
  intros Hc. unfold _gather_identifiers, WORD_RE_finditer.
  rewrite word_runs_app by done.
  by rewrite filter_app, list_to_set_app_L.
Qed.

Lemma gather_identifiers_join_witness :
  _gather_identifiers ("n" +:+ String "," "m2")
  = _gather_identifiers "n" ∪ _gather_identifiers "m2".
Proof. apply gather_identifiers_join. reflexivity. Defined.
